(** * Selection highlighter (highlightNodeV3.ts): model and properties

    A shallow embedding of src/entrypoints/content/highlight/highlightNodeV3.ts.
    JavaScript strings are sequences of UTF-16 code units, the document is a
    tree of nodes with object identities, and the code that mutates the
    document runs in a state-and-exception monad over that tree. *)

From Stdlib Require Import String Ascii Bool Arith NArith ZArith Lia List
  Permutation.
From Equations Require Import Equations.
Import ListNotations.

Local Open Scope Z_scope.

(** ** JavaScript strings *)

Module Js.

(** A JavaScript string: its UTF-16 code units. *)
Definition jsstring := list N.

(** An ASCII literal as a JavaScript string. *)
Definition u16 (s : string) : jsstring :=
  map N_of_ascii (list_ascii_of_string s).

(** [s.length] *)
Definition len (s : jsstring) : Z := Z.of_nat (length s).

Fixpoint eqb (a b : jsstring) : bool :=
  match a, b with
  | [], [] => true
  | x :: a', y :: b' => N.eqb x y && eqb a' b'
  | _, _ => false
  end.

(** [s.startsWith(q)] *)
Fixpoint startsWith (q s : jsstring) : bool :=
  match q, s with
  | [], _ => true
  | x :: q', y :: s' => N.eqb x y && startsWith q' s'
  | _ :: _, [] => false
  end.

(** The scan of [indexOf]: [s] is the suffix that starts at position [k]. *)
Fixpoint indexOf_scan (s q : jsstring) (k : nat) : Z :=
  if startsWith q s then Z.of_nat k
  else match s with
       | [] => -1
       | _ :: s' => indexOf_scan s' q (S k)
       end.

(** [s.indexOf(q, from)]: the position is clamped to [0, s.length]; the
    result is the least position at or after it where [q] occurs, or -1. *)
Definition indexOf (s q : jsstring) (from : Z) : Z :=
  let p := Z.to_nat (Z.min (Z.max from 0) (len s)) in
  indexOf_scan (skipn p s) q p.

(** [String.prototype.toLowerCase] on one code unit. Modelled on Basic Latin,
    the Latin-1 Supplement and U+0130 (LATIN CAPITAL LETTER I WITH DOT ABOVE,
    whose lower case is the two code units U+0069 U+0307 by the
    locale-insensitive SpecialCasing rule that ECMAScript prescribes); code
    units of other scripts are left as they are, so that on a string with
    letters of another script (or a capital sigma, whose lower case
    depends on what follows it) this is not the lower case that the
    engine computes. *)
Definition lowerUnit (c : N) : list N :=
  if ((65 <=? c) && (c <=? 90))%N then [(c + 32)%N]
  else if ((192 <=? c) && (c <=? 222) && negb (c =? 215))%N then [(c + 32)%N]
  else if (c =? 304)%N then [105%N; 775%N]
  else [c].

Definition toLowerCase (s : jsstring) : jsstring := flat_map lowerUnit s.

(** White space and line terminators, as [trim] sees them. *)
Definition isWhiteSpace (c : N) : bool :=
  (((9 <=? c) && (c <=? 13)) || (c =? 32) || (c =? 160) || (c =? 5760)
   || ((8192 <=? c) && (c <=? 8202)) || (c =? 8232) || (c =? 8233)
   || (c =? 8239) || (c =? 8287) || (c =? 12288) || (c =? 65279))%N.

Fixpoint trimStart (s : jsstring) : jsstring :=
  match s with
  | c :: s' => if isWhiteSpace c then trimStart s' else s
  | [] => []
  end.

(** [s.trim()] *)
Definition trim (s : jsstring) : jsstring :=
  rev (trimStart (rev (trimStart s))).

(** [/[a-zA-Z0-9]/.test(s)] *)
Definition isAlnumUnit (c : N) : bool :=
  (((97 <=? c) && (c <=? 122)) || ((65 <=? c) && (c <=? 90))
   || ((48 <=? c) && (c <=? 57)))%N.

Definition testAlnum (s : jsstring) : bool := existsb isAlnumUnit s.

End Js.

Import Js.

(** ** Match ranges and the match engine *)

Record MatchRange := mkMatch { start : Z; end_ : Z }.

(** Keeps the equation of a value that a definition matches on. *)
Definition inspect {A : Type} (x : A) : { y : A | x = y } :=
  exist _ x eq_refl.

(** The [while] loop of [findMatches], for a query [c :: q'] that the guard
    above it has found non-empty. *)
Equations? findLoop (mergedText : jsstring) (c : N) (q' : jsstring)
    (index : Z) : list MatchRange
    by wf (Z.to_nat (len mergedText - index)) lt :=
  findLoop mergedText c q' index
    with inspect (indexOf mergedText (c :: q') index) := {
    | exist _ i Hi with inspect (i =? -1) := {
      | exist _ true _ := [];
      | exist _ false Hne :=
          mkMatch i (i + len (c :: q'))
            :: findLoop mergedText c q' (i + len (c :: q')) } }.
Proof.
  apply Z.eqb_neq in Hne.
  assert (Hb : forall s k, indexOf_scan s (c :: q') k <> -1 ->
             Z.of_nat k <= indexOf_scan s (c :: q') k /\
             indexOf_scan s (c :: q') k + len (c :: q')
               <= Z.of_nat k + len s).
  { induction s as [|y s IH]; intros k Hk.
    - simpl in Hk. congruence.
    - cbn [indexOf_scan] in *.
      destruct (startsWith (c :: q') (y :: s)) eqn:Hs.
      + split; [lia|].
        assert (Hl : forall q t, startsWith q t = true ->
                       (length q <= length t)%nat).
        { induction q as [|a q IHq]; intros [|b t] Hq; simpl in *;
            try lia; try discriminate.
          apply andb_true_iff in Hq. destruct Hq as [_ Hq].
          apply IHq in Hq. lia. }
        apply Hl in Hs. unfold len. lia.
      + specialize (IH (S k) Hk). unfold len in *.
        change (List.length (y :: s)) with (S (List.length s)). lia. }
  unfold indexOf in *.
  set (p := Z.to_nat (Z.min (Z.max index 0) (len mergedText))) in *.
  specialize (Hb _ _ Hne).
  assert (Hp : len (skipn p mergedText) = len mergedText - Z.of_nat p).
  { unfold len. rewrite length_skipn.
    assert (p <= List.length mergedText)%nat by (unfold p, len; lia). lia. }
  assert (0 < len (c :: q')) by (unfold len; simpl; lia).
  unfold p in *. lia.
Qed.

Definition findMatches (mergedText selectedText : jsstring)
  : list MatchRange :=
  match selectedText with
  | [] => []
  | c :: q' => findLoop mergedText c q' 0
  end.

(** ** The document

    Every node is a JavaScript object with its own identity; [nat]
    identifiers stand for the object references that the code keeps
    ([entry.node], [pre], [highlighted], the range containers). *)

#[local] Unset Elimination Schemes.
Inductive Node :=
| TextNode (id : nat) (data : jsstring)
| Element (id : nat) (tagName : jsstring) (classList : list jsstring)
    (hidden : bool) (childNodes : list Node).
#[local] Set Elimination Schemes.

(** [hidden] is what the collector reads from the computed style of an
    element: [display === "none" || visibility === "hidden"]. *)

Definition nodeId (n : Node) : nat :=
  match n with TextNode i _ => i | Element i _ _ _ _ => i end.

Definition children (n : Node) : list Node :=
  match n with TextNode _ _ => [] | Element _ _ _ _ l => l end.

(** [node.textContent] *)
Fixpoint textContent (n : Node) : jsstring :=
  match n with
  | TextNode _ s => s
  | Element _ _ _ _ l => flat_map textContent l
  end.

(** The identities in a subtree, in document order. *)
Fixpoint ids (n : Node) : list nat :=
  match n with
  | TextNode i _ => [i]
  | Element i _ _ _ l => i :: flat_map ids l
  end.

(** The first node with identity [a] in [n] and below it. *)
Fixpoint findNode (a : nat) (n : Node) : option Node :=
  if (nodeId n =? a)%nat then Some n
  else match n with
       | TextNode _ _ => None
       | Element _ _ _ _ l =>
           (fix go (l : list Node) : option Node :=
              match l with
              | [] => None
              | k :: r => match findNode a k with
                          | Some x => Some x
                          | None => go r
                          end
              end) l
       end.

Fixpoint findL (a : nat) (l : list Node) : option Node :=
  match l with
  | [] => None
  | k :: r => match findNode a k with
              | Some x => Some x
              | None => findL a r
              end
  end.

(** [node.parentNode], as the identity of the element in [n] (or [n]
    itself) that has a child with identity [a]. *)
Fixpoint parentIn (a : nat) (n : Node) : option nat :=
  match n with
  | TextNode _ _ => None
  | Element i _ _ _ l =>
      if existsb (fun k => (nodeId k =? a)%nat) l then Some i
      else (fix go (l : list Node) : option nat :=
              match l with
              | [] => None
              | k :: r => match parentIn a k with
                          | Some p => Some p
                          | None => go r
                          end
              end) l
  end.

(** Rewriting of child lists: every child with identity [a] is replaced by
    the nodes [f] gives for it; this is what [splitText], [replaceChild],
    [remove] and [after] do to the child list of the node's parent. *)
Fixpoint substNode (a : nat) (f : Node -> list Node) (n : Node) : Node :=
  match n with
  | TextNode _ _ => n
  | Element i t c h l =>
      Element i t c h
        (flat_map (fun k => if (nodeId k =? a)%nat then f k
                            else [substNode a f k]) l)
  end.

Definition substL (a : nat) (f : Node -> list Node) (l : list Node)
  : list Node :=
  flat_map (fun k => if (nodeId k =? a)%nat then f k
                     else [substNode a f k]) l.

(** The document: the tree under [document.body] and the supply of fresh
    object identities. [body] itself stands for [document.body]; the nodes
    the code looks up, splits and replaces are the ones below it. *)
Record Document := mkDoc { body : Node; nextId : nat }.

Definition findDesc (a : nat) (d : Document) : option Node :=
  findL a (children (body d)).

Definition findText (a : nat) (d : Document) : option jsstring :=
  match findDesc a d with
  | Some (TextNode _ s) => Some s
  | _ => None
  end.

Definition parentOf (a : nat) (d : Document) : option nat :=
  parentIn a (body d).

Definition updateChildren (a : nat) (f : Node -> list Node) (d : Document)
  : Document :=
  mkDoc (substNode a f (body d)) (nextId d).

(** ** Effects: state and DOM exceptions *)

Inductive DomError :=
| IndexSizeError
| NotFoundError
| Detached. (* the call reached a node that is not in the document tree,
               which this model does not follow *)

Inductive Result (A : Type) :=
| Ok (a : A)
| Throw (e : DomError).
Arguments Ok {A} a.
Arguments Throw {A} e.

Definition M (A : Type) : Type := Document -> Result A * Document.

Definition ret {A} (a : A) : M A := fun d => (Ok a, d).

Definition bind {A B} (m : M A) (f : A -> M B) : M B :=
  fun d => match m d with
           | (Ok a, d') => f a d'
           | (Throw e, d') => (Throw e, d')
           end.

Definition throw {A} (e : DomError) : M A := fun d => (Throw e, d).

Declare Scope dom_scope.
Delimit Scope dom_scope with dom.
Notation "x <- m ;; k" := (bind m (fun x => k))
  (at level 100, m at next level, right associativity) : dom_scope.
Notation "m ;;; k" := (bind m (fun _ => k))
  (at level 100, right associativity) : dom_scope.
Local Open Scope dom_scope.

Definition fresh : M nat :=
  fun d => (Ok (nextId d), mkDoc (body d) (S (nextId d))).

(** [list.forEach(f)] for an effectful [f]. *)
Fixpoint forEach {A} (f : A -> M unit) (l : list A) : M unit :=
  match l with
  | [] => ret tt
  | x :: r => f x ;;; forEach f r
  end.

(** [node.textContent || ""] for a text node of the document. *)
Definition readText (n : nat) : M jsstring :=
  fun d => match findText n d with
           | Some s => (Ok s, d)
           | None => (Throw Detached, d)
           end.

(** The two text nodes that [splitText] leaves in place of one. *)
Definition splitAt (offset : Z) (h : nat) (x : Node) : list Node :=
  match x with
  | TextNode i s =>
      [TextNode i (firstn (Z.to_nat offset) s);
       TextNode h (skipn (Z.to_nat offset) s)]
  | Element _ _ _ _ _ => [x]
  end.

(** [node.splitText(offset)]: [node] keeps the data before [offset], a new
    text node with the rest becomes its next sibling and is returned, also
    when the rest is empty; IndexSizeError when [offset] is past the end (a
    negative argument converts to an unsigned long past any length). *)
Definition splitText (n : nat) (offset : Z) : M nat :=
  s <- readText n ;;
  if (offset <? 0) || (len s <? offset) then throw IndexSizeError
  else h <- fresh ;;
       (fun d => (Ok h, updateChildren n (splitAt offset h) d)).

(** [createSpanElement()]: a new [span] with class [highlight]; its inline
    style makes it displayed. *)
Definition createSpanElement : M Node :=
  i <- fresh ;;
  ret (Element i (u16 "SPAN") [u16 "highlight"] false []).

(** [pre.cloneNode(true)] for a text node *)
Definition cloneNode (n : nat) : M Node :=
  s <- readText n ;;
  i <- fresh ;;
  ret (TextNode i s).

(** [span.appendChild(child)] on a node that is not in the document yet. *)
Definition appendChild (parent child : Node) : Node :=
  match parent with
  | Element i t c h l => Element i t c h (l ++ [child])
  | TextNode _ _ => parent
  end.

(** [node.parentNode?.replaceChild(newChild, oldChild)]: nothing without a
    parent; NotFoundError unless [oldChild] is a child of that parent. *)
Definition replaceChildOfParent (n : nat) (newChild : Node) (oldChild : nat)
  : M unit :=
  fun d =>
    match parentOf n d with
    | None => (Ok tt, d)
    | Some p =>
        match parentOf oldChild d with
        | Some p' =>
            if (p =? p')%nat
            then (Ok tt, updateChildren oldChild (fun _ => [newChild]) d)
            else (Throw NotFoundError, d)
        | None => (Throw NotFoundError, d)
        end
    end.

(** [ref.after(moved)]: nothing when [ref] has no parent; otherwise [moved]
    leaves its place and becomes the sibling right after [ref]. *)
Definition after (ref moved : nat) : M unit :=
  fun d =>
    match parentOf ref d with
    | None => (Ok tt, d)
    | Some _ =>
        match findDesc moved d with
        | None => (Throw Detached, d)
        | Some x =>
            (Ok tt,
             updateChildren ref (fun r => [r; x])
               (updateChildren moved (fun _ => []) d))
        end
    end.

(** ** The segment collector: [getTextNodes] *)

(** The interface [TextNodeEntry]; its fields are [Entry.node],
    [Entry.start] and [Entry.end_]. *)
Module Entry.
Record t := mk { node : nat; start : Z; end_ : Z }.
End Entry.

Abbreviation TextNodeEntry := Entry.t.

Definition EXCLUDED_TAGS : list jsstring :=
  map u16 ["input"; "textarea"; "select"; "button"; "script"; "style";
           "noscript"; "template"]%string.

Record GetTextNodesOptions :=
  mkOptions { excludeHidden : bool; minContentLength : Z }.

(** The defaults of the destructuring at the head of [getTextNodes]. *)
Definition defaultOptions : GetTextNodesOptions := mkOptions true 1.

Inductive FilterResult := FILTER_ACCEPT | FILTER_REJECT | FILTER_SKIP.

(** The [acceptNode] callback, for a text node with data [content] whose
    [parentElement] is [parent]. *)
Definition acceptNode (options : GetTextNodesOptions) (parent : option Node)
    (content : jsstring) : FilterResult :=
  match parent with
  | None | Some (TextNode _ _) => FILTER_ACCEPT
  | Some (Element _ tagName _ hidden _) =>
      if existsb (Js.eqb (toLowerCase tagName)) EXCLUDED_TAGS
      then FILTER_REJECT
      else if excludeHidden options && hidden then FILTER_REJECT
      else if len (trim content) <? minContentLength options
           then FILTER_SKIP
           else FILTER_ACCEPT
  end.

(** The tree walker with [SHOW_TEXT]: the text nodes below [n], in document
    order, that the filter accepts. Elements are not shown to the filter, so
    a rejected text node does not hide anything else. *)
Fixpoint walk (options : GetTextNodesOptions) (n : Node)
  : list (nat * jsstring) :=
  match n with
  | TextNode _ _ => []
  | Element _ _ _ _ l =>
      flat_map (fun k =>
                  match k with
                  | TextNode j s =>
                      match acceptNode options (Some n) s with
                      | FILTER_ACCEPT => [(j, s)]
                      | _ => []
                      end
                  | Element _ _ _ _ _ => walk options k
                  end) l
  end.

(** The [while (walker.nextNode())] loop: one entry per accepted node. *)
Fixpoint collect (nodes : list (nat * jsstring)) (offset : Z)
  : list TextNodeEntry :=
  match nodes with
  | [] => []
  | (n, text) :: r =>
      Entry.mk n offset (offset + len text) :: collect r (offset + len text)
  end.

(** The accepted text nodes below the node with identity [root]; none when
    that node is not in the document (any more). *)
Definition walked (root : nat) (options : GetTextNodesOptions)
    (d : Document) : list (nat * jsstring) :=
  match findNode root (body d) with
  | Some r => walk options r
  | None => []
  end.

Definition getTextNodes (root : nat) (options : GetTextNodesOptions)
    (d : Document) : list TextNodeEntry * jsstring :=
  let nodes := walked root options d in
  (collect nodes 0, flat_map (fun n => toLowerCase (snd n)) nodes).

(** ** Clearing: [removeHighlights] *)

(** The selector [.highlight] *)
Definition isHighlight (n : Node) : bool :=
  match n with
  | TextNode _ _ => false
  | Element _ _ c _ _ => existsb (Js.eqb (u16 "highlight")) c
  end.

(** Every outermost [.highlight] element is replaced by a new text node
    with its text content; the replacements that [forEach] then makes inside
    an element already taken out do not reach the document. *)
Fixpoint removeNode (n : Node) (next : nat) : Node * nat :=
  match n with
  | TextNode _ _ => (n, next)
  | Element i t c h l =>
      if isHighlight n then (TextNode next (textContent n), S next)
      else
        let (l', next') :=
          (fix go (l : list Node) (k : nat) : list Node * nat :=
             match l with
             | [] => ([], k)
             | x :: r =>
                 let (x', k1) := removeNode x k in
                 let (r', k2) := go r k1 in
                 (x' :: r', k2)
             end) l next in
        (Element i t c h l', next')
  end.

Fixpoint removeL (l : list Node) (k : nat) : list Node * nat :=
  match l with
  | [] => ([], k)
  | x :: r =>
      let (x', k1) := removeNode x k in
      let (r', k2) := removeL r k1 in
      (x' :: r', k2)
  end.

(** [removeHighlights()] on a document whose [<html>] and [<body>] do not
    have the class: what it does below [document.body]. *)
Definition removeHighlights (d : Document) : Document :=
  match body d with
  | TextNode _ _ => d
  | Element i t c h l =>
      let (l', k) := removeL l (nextId d) in
      mkDoc (Element i t c h l') k
  end.

(** [document.querySelectorAll(".highlight")], below [document.body]. *)
Fixpoint markersIn (n : Node) : list Node :=
  (if isHighlight n then [n] else [])
    ++ match n with
       | TextNode _ _ => []
       | Element _ _ _ _ l => flat_map markersIn l
       end.

(** The elements with the class below [document.body]. *)
Definition markers (d : Document) : list Node :=
  flat_map markersIn (children (body d)).

(** ** The selection *)

Record Range := mkRange {
  startContainer : nat; startOffset : nat;
  endContainer : nat; endOffset : nat }.

(** What [window.getSelection()] gives: [toString()] and the ranges
    ([rangeCount] is their number, [getRangeAt(0)] the first). *)
Record Selection := mkSelection { toString : jsstring; ranges : list Range }.

Definition findGlobalOffset (texts : list TextNodeEntry) (n : nat)
    (offset : nat) : Z :=
  match find (fun t => (Entry.node t =? n)%nat) texts with
  | Some entry => Entry.start entry + Z.of_nat offset
  | None => -1
  end.

Definition isInSelection (m : MatchRange) (texts : list TextNodeEntry)
    (selection : option Selection) : bool :=
  match selection with
  | None => false
  | Some sel =>
      match ranges sel with
      | [] => false
      | range :: _ =>
          let selStart :=
            findGlobalOffset texts (startContainer range) (startOffset range) in
          let selEnd :=
            findGlobalOffset texts (endContainer range) (endOffset range) in
          if (selStart =? -1) || (selEnd =? -1) then false
          else ((selStart <=? start m) && (end_ m <=? selEnd))
               || ((start m <? selEnd) && (selStart <? end_ m))
      end
  end.

Definition getSelectedText (selection : option Selection) : jsstring :=
  match selection with
  | None => []
  | Some sel => toLowerCase (trim (toString sel))
  end.

(** ** The splice engine: [highlightMatches] *)

(** [[...matches].sort((a, b) => a.start - b.start)], a stable sort. *)
Fixpoint insertByStart (m : MatchRange) (l : list MatchRange)
  : list MatchRange :=
  match l with
  | [] => [m]
  | x :: r => if start m <=? start x then m :: l
              else x :: insertByStart m r
  end.

Definition sortByStart (l : list MatchRange) : list MatchRange :=
  fold_right insertByStart [] l.

(** The part of [m] inside a node that starts at [Entry.start entry] and
    has [contentLength] code units. *)
Definition localRange (entry : TextNodeEntry) (contentLength : Z)
    (m : MatchRange) : MatchRange :=
  mkMatch (Z.max 0 (start m - Entry.start entry))
          (Z.min contentLength (end_ m - Entry.start entry)).

(** The inner [while] loop. [pending] is [sortedMatches] from
    [currentMatchIndex] on; the result is [nodeMatches] and what is pending
    afterwards. *)
Fixpoint collectNodeMatches (entry : TextNodeEntry) (contentLength : Z)
    (pending : list MatchRange) : list MatchRange * list MatchRange :=
  match pending with
  | [] => ([], [])
  | m :: rest =>
      if (Entry.start entry <=? start m) && (end_ m <=? Entry.end_ entry)
      then let (nodeMatches, pending') :=
             collectNodeMatches entry contentLength rest in
           (localRange entry contentLength m :: nodeMatches, pending')
      else if (start m <? Entry.end_ entry) && (Entry.start entry <? end_ m)
      then ([localRange entry contentLength m], pending)
      else ([], pending)
  end.

(** The body of [nodeMatches.reverse().forEach]. *)
Definition wrapMatch (n : nat) (m : MatchRange) : M unit :=
  span <- createSpanElement ;;
  pre <- splitText n (start m) ;;
  highlighted <- splitText pre (end_ m - start m) ;;
  clone <- cloneNode pre ;;
  let span := appendChild span clone in
  replaceChildOfParent n span pre ;;;
  rest <- readText highlighted ;;
  match rest with
  | [] => ret tt
  | _ :: _ => after (nodeId span) highlighted
  end.

(** The body of [texts.forEach], threaded over the entries. *)
Fixpoint spliceEntries (texts : list TextNodeEntry) (pending : list MatchRange)
  : M unit :=
  match texts with
  | [] => ret tt
  | entry :: texts' =>
      nodeContent <- readText (Entry.node entry) ;;
      let (nodeMatches, pending') :=
        collectNodeMatches entry (len nodeContent) pending in
      forEach (wrapMatch (Entry.node entry)) (rev nodeMatches) ;;;
      spliceEntries texts' pending'
  end.

Definition highlightMatches (texts : list TextNodeEntry)
    (matches : list MatchRange) : M unit :=
  spliceEntries texts (sortByStart matches).

(** ** The controller: [highlightNode] *)

(** The page: the document and the module variable [lastSelectedText]. *)
Record Page := mkPage { document : Document; lastSelectedText : jsstring }.

(** One call of [highlightNode(root)]. [selection] is what
    [window.getSelection()] returns once the old markers are cleared, which
    is when the function reads it (both times). *)
Definition highlightNode (root : nat) (selection : option Selection)
    (p : Page) : Result unit * Page :=
  let d := removeHighlights (document p) in
  let text := getSelectedText selection in
  if negb (Js.eqb text []) && negb (Js.eqb text (lastSelectedText p)) then
    let (texts, mergedText) := getTextNodes root defaultOptions d in
    if (0 <? Z.of_nat (List.length texts)) && negb (Js.eqb text []) then
      let matches := findMatches mergedText text in
      let filteredMatches :=
        filter (fun m => negb (isInSelection m texts selection)) matches in
      let (r, d') := highlightMatches texts filteredMatches d in
      (r, mkPage d' text)
    else (Ok tt, mkPage d text)
  else (Ok tt, mkPage d (lastSelectedText p)).

(** ** The sibling controller: [HighlightFeature.switchHighlight]

    Only the head of the method is modelled: the guard on a selection of one
    letter or digit, and the comparison with the tracked text. What the
    method does once it goes on (clear, store the text, highlight) is the
    parameter [proceed]. *)

Section SwitchHighlight.

Variable FeatureState : Type.
Variable currentHighlightText : FeatureState -> jsstring.
Variable proceed : jsstring -> FeatureState -> FeatureState.

(** [getSelectedText] of that file: trimmed, not lower-cased. *)
Definition getSelectedTextRaw (selection : option Selection) : jsstring :=
  match selection with
  | None => []
  | Some sel => trim (toString sel)
  end.

Definition switchHighlight (selection : option Selection)
    (st : FeatureState) : FeatureState :=
  let selectedText := getSelectedTextRaw selection in
  if (len selectedText =? 1) && testAlnum selectedText then st
  else if negb (Js.eqb selectedText (currentHighlightText st))
       then proceed selectedText st
       else st.

End SwitchHighlight.

(** ** Observations and example documents *)

(** The text of the plain text leaves, those outside every marker, in
    document order. *)
Fixpoint plainTexts (n : Node) : list jsstring :=
  match n with
  | TextNode _ s => [s]
  | Element _ _ _ _ l =>
      if isHighlight n then [] else flat_map plainTexts l
  end.

Definition markerTexts (d : Document) : list jsstring :=
  map textContent (markers d).

Definition text (i : nat) (s : string) : Node := TextNode i (u16 s).

Definition elem (i : nat) (tag : string) (l : list Node) : Node :=
  Element i (u16 tag) [] false l.

(** The marker that [createSpanElement] and [appendChild] build. *)
Definition marker (i j : nat) (s : string) : Node :=
  Element i (u16 "SPAN") [u16 "highlight"] false [text j s].

(** [<body><b>ab</b><i>cd</i><u>ef</u></body>] *)
Definition threeLeaves : Document :=
  mkDoc (elem 0 "BODY" [elem 1 "B" [text 2 "ab"];
                        elem 3 "I" [text 4 "cd"];
                        elem 5 "U" [text 6 "ef"]]) 7.

(** [threeLeaves] with "b", "cd" and "e" in markers. *)
Definition threeLeavesMarked : Document :=
  mkDoc (elem 0 "BODY"
           [elem 1 "B" [text 2 "a"; marker 7 10 "b"; text 9 ""];
            elem 3 "I" [text 4 ""; marker 11 14 "cd"; text 13 ""];
            elem 5 "U" [text 6 ""; marker 15 18 "e"; text 17 "f"]]) 19.

(** [<body><p>ab</p></body>] *)
Definition wholeLeaf : Document :=
  mkDoc (elem 0 "BODY" [elem 1 "P" [text 2 "ab"]]) 3.

(** [<body><p>banana</p></body>], nothing tracked yet. *)
Definition banana : Page :=
  mkPage (mkDoc (elem 0 "BODY" [elem 1 "P" [text 2 "banana"]]) 3) [].

(** [<body><p>ab cd ab</p></body>], nothing tracked yet. *)
Definition twice : Page :=
  mkPage (mkDoc (elem 0 "BODY" [elem 1 "P" [text 2 "ab cd ab"]]) 3) [].

(** A paragraph whose text is one U+0130. *)
Definition dottedCapitalI : Document :=
  mkDoc (elem 0 "BODY" [elem 1 "P" [TextNode 2 [304%N]]]) 3.

(** A paragraph whose text is U+0130 and then "ab", nothing tracked yet. *)
Definition dottedCapitalIab : Page :=
  mkPage (mkDoc (elem 0 "BODY" [elem 1 "P" [TextNode 2 (304%N :: u16 "ab")]])
            3) [].

(** The selection of the code units [from, to) of the text node [n]. *)
Definition selectIn (n from to : nat) (s : string) : option Selection :=
  Some (mkSelection (u16 s) [mkRange n from n to]).

(** ** Normalization and the shape of a document *)

(** A text node in front of an already normalized list of siblings: an empty
    one is dropped, another one takes up the text node that follows it. *)
Definition joinText (i : nat) (s : jsstring) (l : list Node) : list Node :=
  match s with
  | [] => l
  | _ :: _ => match l with
              | TextNode _ t :: r => TextNode i (s ++ t) :: r
              | _ => TextNode i s :: l
              end
  end.

(** [node.normalize()]: below [n], empty text nodes are removed and every
    run of adjacent text nodes becomes the first non-empty one of them,
    holding the text of all. *)
Fixpoint normalize (n : Node) : Node :=
  match n with
  | TextNode _ _ => n
  | Element i t c h l =>
      Element i t c h
        (fold_right (fun k acc =>
                       match k with
                       | TextNode j s => joinText j s acc
                       | Element _ _ _ _ _ => normalize k :: acc
                       end) [] l)
  end.

(** A document up to the identities of its nodes. *)
#[local] Unset Elimination Schemes.
Inductive Shape :=
| SText (data : jsstring)
| SElem (tagName : jsstring) (classList : list jsstring) (hidden : bool)
    (childNodes : list Shape).
#[local] Set Elimination Schemes.

Fixpoint erase (n : Node) : Shape :=
  match n with
  | TextNode _ s => SText s
  | Element _ t c h l => SElem t c h (map erase l)
  end.

(** All the nodes of a subtree, in document order. *)
Fixpoint subnodes (n : Node) : list Node :=
  n :: match n with
       | TextNode _ _ => []
       | Element _ _ _ _ l => flat_map subnodes l
       end.

(** Object identities are unique, and the supply of fresh ones is ahead of
    all that are in use. *)
Definition wellFormed (d : Document) : Prop :=
  NoDup (ids (body d))
  /\ Forall (fun i => (i < nextId d)%nat) (ids (body d)).

(** ** What the specification speaks of *)

(** [q] occurs in [s] at position [i]. *)
Definition occursAt (s q : jsstring) (i : nat) : Prop :=
  firstn (List.length q) (skipn i s) = q.

(** Leftmost-first, non-overlapping matching as the specification words it:
    from [pos] on, the next range is the first occurrence of [q] at or after
    [pos], and scanning resumes at its end. *)
Inductive LeftmostFirst (s q : jsstring) : nat -> list MatchRange -> Prop :=
| LF_done pos :
    (forall k, (pos <= k)%nat -> ~ occursAt s q k) ->
    LeftmostFirst s q pos []
| LF_hit pos i ms :
    (pos <= i)%nat ->
    occursAt s q i ->
    (forall k, (pos <= k < i)%nat -> ~ occursAt s q k) ->
    LeftmostFirst s q (i + List.length q) ms ->
    LeftmostFirst s q pos (mkMatch (Z.of_nat i) (Z.of_nat i + len q) :: ms).

(** The ranges of [texts] tile [[lo, hi)]: each one starts where the one
    before it ended. *)
Fixpoint tiles (lo : Z) (texts : list TextNodeEntry) (hi : Z) : Prop :=
  match texts with
  | [] => lo = hi
  | e :: r =>
      Entry.start e = lo /\ lo <= Entry.end_ e /\ tiles (Entry.end_ e) r hi
  end.

(** The sum of the content lengths of the walked nodes. *)
Definition contentLength (nodes : list (nat * jsstring)) : Z :=
  fold_right (fun n acc => len (snd n) + acc) 0 nodes.

(** ** The shape of a cleared and normalized document, computed directly *)

(** The shape that clearing and normalizing give, computed directly. *)
Definition joinShape (s : jsstring) (l : list Shape) : list Shape :=
  match s with
  | [] => l
  | _ :: _ => match l with
              | SText t :: r => SText (s ++ t) :: r
              | _ => SText s :: l
              end
  end.

Fixpoint canonKid (k : Node) (acc : list Shape) : list Shape :=
  match k with
  | TextNode _ s => joinShape s acc
  | Element _ t c h l =>
      if isHighlight k then joinShape (textContent k) acc
      else SElem t c h (fold_right canonKid [] l) :: acc
  end.

Definition canonL (l : list Node) : list Shape := fold_right canonKid [] l.

Definition normalizeL (l : list Node) : list Node :=
  fold_right (fun k acc =>
                match k with
                | TextNode j s => joinText j s acc
                | Element _ _ _ _ _ => normalize k :: acc
                end) [] l.

Definition idsL (l : list Node) : list nat := flat_map ids l.
Definition descL (l : list Node) : list Node := flat_map subnodes l.

(** [parentIn] over a list of siblings. *)
Fixpoint parentInL (a : nat) (l : list Node) : option nat :=
  match l with
  | [] => None
  | k :: r => match parentIn a k with
              | Some p => Some p
              | None => parentInL a r
              end
  end.

(** [L] reads as the node [x] does: the same shape in front of any
    siblings, and the same text. *)
Definition sameText (L : list Node) (x : Node) : Prop :=
  (forall acc, fold_right canonKid acc L = canonKid x acc)
  /\ flat_map textContent L = textContent x.

(** A node without its children. *)
Definition label (n : Node) : Node :=
  match n with
  | TextNode _ _ => n
  | Element i t c h _ => Element i t c h []
  end.

(** [d'] is well formed and reads as [d] does: the same body element, the
    same shape once markers are cleared and text is merged, the same text. *)
Definition readsAs (d d' : Document) : Prop :=
  wellFormed d'
  /\ label (body d') = label (body d)
  /\ canonL (children (body d')) = canonL (children (body d))
  /\ textContent (body d') = textContent (body d).

(** ** What the splice engine is handed *)

(** The local ranges [ms], in ascending order, lie one after the other
    inside [[lo, hi]]. *)
Fixpoint chain (lo : Z) (ms : list MatchRange) (hi : Z) : Prop :=
  match ms with
  | [] => lo <= hi
  | m :: r => lo <= start m <= end_ m /\ chain (end_ m) r hi
  end.

(** Matches in ascending order that do not overlap. *)
Definition sortedMatches (l : list MatchRange) : Prop :=
  Forall (fun m => start m <= end_ m) l
  /\ ForallOrdPairs (fun a b => end_ a <= start b) l.

(** Every entry is a text node of the document that holds as many code
    units as the entry spans. *)
Definition entriesIn (texts : list TextNodeEntry) (d : Document) : Prop :=
  Forall (fun e => exists s, findText (Entry.node e) d = Some s
                             /\ Entry.end_ e = Entry.start e + len s) texts.

Definition walkKids (options : GetTextNodesOptions) (parent : Node)
    (l : list Node) : list (nat * jsstring) :=
  flat_map (fun k =>
              match k with
              | TextNode j s =>
                  match acceptNode options (Some parent) s with
                  | FILTER_ACCEPT => [(j, s)]
                  | _ => []
                  end
              | Element _ _ _ _ _ => walk options k
              end) l.

(** ** Documents for the splice engine *)

(** [<body><b>ab xa</b><i>bx ab</i></body>]: "ab" at 0, across the two
    leaves at 4, and at 8. *)
Definition acrossLeaves : Document :=
  mkDoc (elem 0 "BODY" [elem 1 "B" [text 2 "ab xa"];
                        elem 3 "I" [text 4 "bx ab"]]) 5.

(** ** What the markers hold *)

(** [s.slice(from, to)] for [0 <= from <= to]. *)
Definition slice (s : jsstring) (from to : Z) : jsstring :=
  firstn (Z.to_nat (to - from)) (skipn (Z.to_nat from) s).

(** What stands in the place of the text node [n] with data [s] once
    [wrapMatch] has wrapped the local range [m] of it; [k] is the next
    fresh identity at the call. *)
Definition wrapped (n k : nat) (s : jsstring) (m : MatchRange) : list Node :=
  [TextNode n (firstn (Z.to_nat (start m)) s);
   Element k (u16 "SPAN") [u16 "highlight"] false
     [TextNode (3 + k) (slice s (start m) (end_ m))];
   TextNode (2 + k) (skipn (Z.to_nat (end_ m - start m))
                       (skipn (Z.to_nat (start m)) s))].

(** The texts of the markers of a tree in which every text node [j] with
    data [s] stands for nodes whose markers hold the texts [f j s]. *)
Fixpoint markerTextsBy (f : nat -> jsstring -> list jsstring) (n : Node)
  : list jsstring :=
  match n with
  | TextNode j s => f j s
  | Element _ _ _ _ l =>
      (if isHighlight n then [textContent n] else [])
        ++ flat_map (markerTextsBy f) l
  end.

Definition noMarks (j : nat) (s : jsstring) : list jsstring := [].

(** The marker texts [marks] gives for the node [j], those of [g] for a
    node it does not list. *)
Definition marksOr (marks : list (nat * list jsstring))
    (g : nat -> jsstring -> list jsstring) (j : nat) (s : jsstring)
  : list jsstring :=
  match find (fun e => (fst e =? j)%nat) marks with
  | Some e => snd e
  | None => g j s
  end.

(** The pieces of text that a pass over [texts] wraps, entry by entry: the
    slices of the node's text at its local ranges. [d] is the document at
    the start of the pass. *)
Fixpoint nodeMarks (texts : list TextNodeEntry) (pending : list MatchRange)
    (d : Document) : list (nat * list jsstring) :=
  match texts with
  | [] => []
  | entry :: texts' =>
      match findText (Entry.node entry) d with
      | None => []
      | Some s =>
          let (nodeMatches, pending') :=
            collectNodeMatches entry (len s) pending in
          (Entry.node entry,
           map (fun m => slice s (start m) (end_ m)) nodeMatches)
            :: nodeMarks texts' pending' d
      end
  end.

(** The text that the node keeps once the local ranges [ms] of it are
    wrapped: what is before the first of them. *)
Definition keptText (s : jsstring) (ms : list MatchRange) : jsstring :=
  match ms with
  | [] => s
  | m :: _ => firstn (Z.to_nat (start m)) s
  end.

(** The text of every entry's node is the slice of [T] at the entry's
    range. *)
Definition entriesSlice (T : jsstring) (texts : list TextNodeEntry)
    (d : Document) : Prop :=
  Forall (fun e => 0 <= Entry.start e <= Entry.end_ e
                   /\ Entry.end_ e <= len T
                   /\ findText (Entry.node e) d
                      = Some (slice T (Entry.start e) (Entry.end_ e)))
    texts.

(** The text of the collected nodes, one after the other, as it is in the
    document (the merged text is its lower case). *)
Definition collectedText (root : nat) (options : GetTextNodesOptions)
    (d : Document) : jsstring :=
  flat_map snd (walked root options d).

(** The match [m] lies inside the range of one entry. *)
Definition insideAnEntry (texts : list TextNodeEntry) (m : MatchRange)
  : Prop :=
  exists e, In e texts
            /\ Entry.start e <= start m /\ end_ m <= Entry.end_ e.

(** ** The sibling highlighter: [initHighlight]

    The closure keeps [currentHighlight] and works on [document.body]. The
    mutation observer it sets up is disconnected while the closure changes
    the document for a new text, and what it is told of otherwise comes
    from outside; it is not modelled. *)

Module InitHighlight.

(** [currentHighlight]: the tracked text, [null] at the start, and the
    spans made for it. *)
Record Highlight := mkHighlight { text : option jsstring; spans : list nat }.

(** What the closure works on. *)
Record World := mkWorld { doc : Document; currentHighlight : Highlight }.

(** What a call does: it returns or throws, or it does not return at all
    ([None]). *)
Definition Outcome : Type := option (Result unit * World).

(** [getSelectedText] of the closure: trimmed, not lower-cased. *)
Definition getSelectedText (selection : option Selection) : jsstring :=
  match selection with
  | None => []
  | Some sel => trim (toString sel)
  end.

Definition SKIPPED_TAGS : list jsstring :=
  map u16 ["input"; "textarea"; "select"; "button"; "script"; "style"]%string.

(** The [acceptNode] callback of the closure's [getTextNodes]. *)
Definition acceptNode (parent : option Node) : FilterResult :=
  match parent with
  | Some (Element _ tagName _ _ _) =>
      if existsb (Js.eqb (toLowerCase tagName)) SKIPPED_TAGS
      then FILTER_SKIP
      else FILTER_ACCEPT
  | _ => FILTER_ACCEPT
  end.

(** The tree walker with [SHOW_TEXT] below [n]: the accepted text nodes, in
    document order. *)
Fixpoint walk (n : Node) : list nat :=
  match n with
  | TextNode _ _ => []
  | Element _ _ _ _ l =>
      flat_map (fun k =>
                  match k with
                  | TextNode j _ =>
                      match acceptNode (Some n) with
                      | FILTER_ACCEPT => [j]
                      | _ => []
                      end
                  | Element _ _ _ _ _ => walk k
                  end) l
  end.

Definition getTextNodes (d : Document) : list nat := walk (body d).

(** The walk over the children [l] of [parent]. *)
Definition walkKids (parent : Node) (l : list Node) : list nat :=
  flat_map (fun k =>
              match k with
              | TextNode j _ =>
                  match acceptNode (Some parent) with
                  | FILTER_ACCEPT => [j]
                  | _ => []
                  end
              | Element _ _ _ _ _ => walk k
              end) l.

(** [document.createElement("span")] with the class and, by the
    [textContent] setter, one text node as its child unless the text is
    empty. *)
Definition createSpan (textContent : jsstring) : M Node :=
  i <- fresh ;;
  match textContent with
  | [] => ret (Element i (u16 "SPAN") [u16 "bread-highlight"] false [])
  | _ :: _ =>
      j <- fresh ;;
      ret (Element i (u16 "SPAN") [u16 "bread-highlight"] false
             [TextNode j textContent])
  end.

(** One turn of the [while] loop of [highlightTextInNode], after [indexOf]
    has found [startIdx]: [None] at the [break], else the span made and the
    node with the rest of the text. *)
Definition highlightAt (node : nat) (startIdx textLength : Z)
  : M (option (nat * nat)) :=
  nodeText <- readText node ;;
  if len nodeText <? startIdx then ret None
  else
    beforeSplit <- splitText node startIdx ;;
    afterHighlight <- splitText beforeSplit textLength ;;
    highlighted <- readText beforeSplit ;;
    span <- createSpan highlighted ;;
    replaceChildOfParent beforeSplit span beforeSplit ;;;
    ret (Some (nodeId span, afterHighlight)).

(** The [while] loop of [highlightTextInNode], for at most [fuel] turns. *)
Fixpoint highlightLoop (fuel : nat) (node : nat)
    (lowerCaseNodeText lowerCaseText : jsstring) (w : World) : Outcome :=
  match fuel with
  | O => None
  | S fuel' =>
      let startIdx := indexOf lowerCaseNodeText lowerCaseText 0 in
      if startIdx =? -1 then Some (Ok tt, w)
      else
        match highlightAt node startIdx (len lowerCaseText) (doc w) with
        | (Throw e, d) => Some (Throw e, mkWorld d (currentHighlight w))
        | (Ok None, d) => Some (Ok tt, mkWorld d (currentHighlight w))
        | (Ok (Some (span, afterHighlight)), d) =>
            let pushed :=
              mkHighlight (text (currentHighlight w))
                          (spans (currentHighlight w) ++ [span]) in
            match readText afterHighlight d with
            | (Throw e, d') => Some (Throw e, mkWorld d' pushed)
            | (Ok rest, d') =>
                highlightLoop fuel' afterHighlight (toLowerCase rest)
                  lowerCaseText (mkWorld d' pushed)
            end
        end
  end.

(** [highlightTextInNode(node, lowerCaseText)]. Every turn of the loop
    goes on with a node that holds less text, unless [lowerCaseText] is
    empty: one turn more than the node has code units is as good as any
    number of turns. *)
Definition highlightTextInNode (node : nat) (lowerCaseText : jsstring)
    (w : World) : Outcome :=
  match readText node (doc w) with
  | (Throw e, d) => Some (Throw e, mkWorld d (currentHighlight w))
  | (Ok nodeText, d) =>
      highlightLoop (S (List.length nodeText)) node (toLowerCase nodeText)
        lowerCaseText (mkWorld d (currentHighlight w))
  end.

(** [textNodes.forEach(...)] *)
Fixpoint forEachNode (f : nat -> World -> Outcome) (l : list nat)
    (w : World) : Outcome :=
  match l with
  | [] => Some (Ok tt, w)
  | n :: r =>
      match f n w with
      | Some (Ok _, w') => forEachNode f r w'
      | stopped => stopped
      end
  end.

Definition highlightAllOccurrences (text : jsstring) (w : World) : Outcome :=
  let textNodes := getTextNodes (doc w) in
  let lowerCaseText := toLowerCase text in
  forEachNode (fun node => highlightTextInNode node lowerCaseText)
    textNodes w.

(** [f] applied to the node with identity [a]. *)
Fixpoint mapNode (a : nat) (f : Node -> Node) (n : Node) : Node :=
  if (nodeId n =? a)%nat then f n
  else match n with
       | TextNode _ _ => n
       | Element i t c h l => Element i t c h (map (mapNode a f) l)
       end.

(** The body of the [forEach] of [removeExistingHighlights]: nothing for a
    span without a parent; otherwise a new text node with the text of the
    span takes its place, and the parent is normalized. *)
Definition restoreSpan (span : nat) : M unit :=
  fun d =>
    match parentOf span d with
    | None => (Ok tt, d)
    | Some parent =>
        match findDesc span d with
        | None => (Throw Detached, d)
        | Some x =>
            let replaced :=
              substNode span (fun _ => [TextNode (nextId d) (textContent x)])
                (body d) in
            (Ok tt, mkDoc (mapNode parent normalize replaced) (S (nextId d)))
        end
    end.

Definition removeExistingHighlights (w : World) : Result unit * World :=
  match forEach restoreSpan (spans (currentHighlight w)) (doc w) with
  | (Ok _, d) =>
      (Ok tt, mkWorld d (mkHighlight (text (currentHighlight w)) []))
  | (Throw e, d) => (Throw e, mkWorld d (currentHighlight w))
  end.

Definition setText (t : jsstring) (w : World) : World :=
  mkWorld (doc w) (mkHighlight (Some t) (spans (currentHighlight w))).

(** [selectedText !== currentHighlight.text] *)
Definition differs (selectedText : jsstring) (tracked : option jsstring)
  : bool :=
  match tracked with
  | None => true
  | Some t => negb (Js.eqb selectedText t)
  end.

(** The [mouseup] listener. *)
Definition switchHighlight (selection : option Selection) (w : World)
  : Outcome :=
  let selectedText := getSelectedText selection in
  if (len selectedText =? 1) && testAlnum selectedText then Some (Ok tt, w)
  else
    match (if Js.eqb selectedText []
           then match removeExistingHighlights w with
                | (Ok _, w') => (Ok tt, setText selectedText w')
                | thrown => thrown
                end
           else (Ok tt, w)) with
    | (Throw e, w1) => Some (Throw e, w1)
    | (Ok _, w1) =>
        if negb (Js.eqb selectedText [])
           && differs selectedText (text (currentHighlight w1))
        then
          match removeExistingHighlights w1 with
          | (Throw e, w2) => Some (Throw e, w2)
          | (Ok _, w2) =>
              match highlightAllOccurrences selectedText w2 with
              | Some (Ok _, w3) => Some (Ok tt, setText selectedText w3)
              | stopped => stopped
              end
          end
        else Some (Ok tt, w1)
    end.

End InitHighlight.

(** What stands in the place of the text node [n] with data [s] after one
    turn of the loop of [highlightTextInNode] that found [startIdx]; [k]
    is the next fresh identity at the start of the turn. *)
Definition marked (n k : nat) (s : jsstring) (startIdx textLength : Z)
  : list Node :=
  [TextNode n (firstn (Z.to_nat startIdx) s);
   Element (2 + k) (u16 "SPAN") [u16 "bread-highlight"] false
     [TextNode (3 + k) (slice s startIdx (startIdx + textLength))];
   TextNode (1 + k) (skipn (Z.to_nat textLength)
                       (skipn (Z.to_nat startIdx) s))].

(** [span.textContent] for a span of the document. *)
Definition spanText (d : Document) (span : nat) : option jsstring :=
  match findDesc span d with
  | Some x => Some (textContent x)
  | None => None
  end.

(** The range [m] moved [k] places to the right. *)
Definition shiftBy (k : Z) (m : MatchRange) : MatchRange :=
  mkMatch (k + start m) (k + end_ m).

(** ** Where lower-casing is followed exactly

    [Js.toLowerCase] is [String.prototype.toLowerCase] on the strings of
    the two classes below; on other scripts the real function also maps
    letters that [Js.lowerUnit] leaves alone, and it looks at the context
    of a capital sigma. *)

(** Code units below U+0100 only: lower-casing goes unit by unit and keeps
    the length. *)
Definition latin1 (s : jsstring) : Prop :=
  Forall (fun c => (c < 256)%N) s.

(** Code units below U+0100 and U+0130, whose lower case is two units. *)
Definition caseModelled (s : jsstring) : Prop :=
  Forall (fun c => (c < 256)%N \/ c = 304%N) s.

(** ** The parts of a match *)

(** The pieces of the collected text [T] at the range of [m], one for each
    entry that the range overlaps: the part of the range inside the entry. *)
Definition partsOf (T : jsstring) (texts : list TextNodeEntry)
    (m : MatchRange) : list jsstring :=
  flat_map (fun e =>
              if (start m <? Entry.end_ e) && (Entry.start e <? end_ m)
              then [slice T (Z.max (Entry.start e) (start m))
                            (Z.min (Entry.end_ e) (end_ m))]
              else []) texts.

(** ** The whole document

    [document.querySelectorAll(".highlight")] looks at every element of
    the document: at those below [document.body], which [removeHighlights]
    above follows, and also at [<body>] itself and at the document element
    [<html>]. This module follows a call on the whole document;
    [documentElement] is the class list of [<html>]. An element with the
    class outside the body (in [<head>]) is replaced by a text node like
    any other, which changes nothing in the body. *)
Module Whole.

(** A class list that the selector [.highlight] matches. *)
Definition isMarker (classList : list jsstring) : bool :=
  existsb (Js.eqb (u16 "highlight")) classList.

(** [document.querySelectorAll(".highlight")] in the body, [<body>]
    included. *)
Definition markers (d : Document) : list Node := markersIn (body d).

Definition markerTexts (d : Document) : list jsstring :=
  map textContent (markers d).

(** How [removeHighlights()] ends. *)
Inductive Cleared :=
| HierarchyRequestError
    (* [<html>] comes first in the list and its parent is the document,
       which takes no text node as a child: [replaceChild] throws and
       nothing has been changed *)
| BodyReplaced (text : jsstring)
    (* [<body>] has been replaced by a text node with its text content;
       [document.body] is [null] from then on *)
| Below (d : Document).
    (* [<body>] stays and the markers below it are replaced *)

Definition removeHighlights (documentElement : list jsstring) (d : Document)
  : Cleared :=
  if isMarker documentElement then HierarchyRequestError
  else if isHighlight (body d) then BodyReplaced (textContent (body d))
  else Below (removeHighlights d).

(** How a call of [highlightNode] ends. *)
Inductive Outcome :=
| Returned (p : Page)
| Threw (e : DomError) (p : Page)
| ThrewHierarchyRequestError
    (* thrown by [removeHighlights()], the page is as it was *)
| BodyGone (text : jsstring).
    (* [removeHighlights()] has replaced [<body>]; what the call does
       after that is done to nodes that are no longer in the document,
       and is not followed *)

(** One call of [highlightNode(root)] on the whole document. When
    [<body>] stays, the call is the one that [highlightNode] above
    follows, which starts by clearing the markers below the body. *)
Definition highlightNode (documentElement : list jsstring) (root : nat)
    (selection : option Selection) (p : Page) : Outcome :=
  match removeHighlights documentElement (document p) with
  | HierarchyRequestError => ThrewHierarchyRequestError
  | BodyReplaced text => BodyGone text
  | Below _ =>
      match highlightNode root selection p with
      | (Ok _, p') => Returned p'
      | (Throw e, p') => Threw e p'
      end
  end.

(** [highlightNode] called once for each of [calls]; a call that does not
    return ends the sequence. *)
Fixpoint highlightNodeCalls (documentElement : list jsstring)
    (calls : list (nat * option Selection)) (p : Page) : Outcome :=
  match calls with
  | [] => Returned p
  | (root, selection) :: calls' =>
      match highlightNode documentElement root selection p with
      | Returned p' => highlightNodeCalls documentElement calls' p'
      | o => o
      end
  end.

End Whole.

(** * Properties *)

(** ** The match engine *)

Lemma startsWith_firstn q s :
  startsWith q s = true <-> firstn (List.length q) s = q.
Proof.
  revert s. induction q as [|x q IH]; intros [|y s]; simpl;
    try (split; (reflexivity || discriminate)).
  rewrite andb_true_iff, N.eqb_eq, IH. split.
  - intros [-> ->]. reflexivity.
  - intros H. injection H as -> H. auto.
Qed.

Lemma indexOf_scan_miss s q k :
  indexOf_scan s q k = -1 ->
  forall j, startsWith q (skipn j s) = false.
Proof.
  revert k. induction s as [|y s IH]; intros k H j.
  - simpl in H. destruct (startsWith q []) eqn:E; [lia|].
    destruct j; exact E.
  - cbn [indexOf_scan] in H.
    destruct (startsWith q (y :: s)) eqn:E; [lia|].
    destruct j as [|j]; [exact E|]. simpl. eauto.
Qed.

Lemma indexOf_scan_hit s q k :
  indexOf_scan s q k <> -1 ->
  exists j, indexOf_scan s q k = Z.of_nat (k + j)
            /\ startsWith q (skipn j s) = true
            /\ forall j', (j' < j)%nat -> startsWith q (skipn j' s) = false.
Proof.
  revert k. induction s as [|y s IH]; intros k H.
  - simpl in *. destruct (startsWith q []) eqn:E; [|congruence].
    exists 0%nat. rewrite Nat.add_0_r. repeat split; auto. intros; lia.
  - cbn [indexOf_scan] in *.
    destruct (startsWith q (y :: s)) eqn:E.
    + exists 0%nat. rewrite Nat.add_0_r. repeat split; auto. intros; lia.
    + destruct (IH _ H) as (j & Hj & Hs & Hm).
      exists (S j). rewrite Hj. repeat split; [f_equal; lia | exact Hs |].
      intros [|j'] Hlt; [exact E|]. simpl. apply Hm. lia.
Qed.

Lemma not_startsWith_occurs q s i :
  startsWith q (skipn i s) = false -> ~ occursAt s q i.
Proof.
  intros H Ho. apply startsWith_firstn in Ho. congruence.
Qed.

(** The loop of [findMatches] produces the leftmost-first ranges. *)
Lemma findLoop_leftmost s c q' index :
  0 <= index ->
  LeftmostFirst s (c :: q') (Z.to_nat index) (findLoop s c q' index).
Proof.
  funelim (findLoop s c q' index); intros Hpos; clear Heqcall.
  - (* indexOf gave -1 *)
    match goal with
    | E : (_ =? _) = true |- _ => pose proof (proj1 (Z.eqb_eq _ _) E) as Hi
    end.
    apply LF_done. intros k Hk.
    unfold indexOf in Hi.
    set (p := Z.to_nat (Z.min (Z.max index 0) (len mergedText))) in *.
    assert (Hp : (p <= Z.to_nat index)%nat) by (unfold p; lia).
    pose proof (indexOf_scan_miss _ _ _ Hi (k - p)) as Hm.
    rewrite skipn_skipn in Hm.
    replace (k - p + p)%nat with k in Hm by lia.
    now apply not_startsWith_occurs.
  - (* an occurrence at the index found *)
    match goal with
    | E : (_ =? _) = false |- _ => pose proof (proj1 (Z.eqb_neq _ _) E) as Hi
    end.
    match goal with
    | IH : _ -> LeftmostFirst _ _ _ _ |- _ => rename IH into IHloop
    end.
    unfold indexOf in *.
    set (p := Z.to_nat (Z.min (Z.max index 0) (len mergedText))) in *.
    destruct (indexOf_scan_hit _ _ _ Hi) as (j & Hj & Hs & Hm).
    rewrite Hj in *.
    rewrite skipn_skipn in Hs.
    assert (Hle : (List.length (c :: q')
                   <= List.length (skipn (j + p) mergedText))%nat).
    { apply startsWith_firstn in Hs.
      rewrite <- Hs at 1. rewrite length_firstn. lia. }
    rewrite length_skipn in Hle. cbn [List.length] in Hle.
    assert (Hp : p = Z.to_nat index) by (unfold len in *; subst p; lia).
    replace (j + p)%nat with (p + j)%nat in Hs by lia.
    rewrite <- Hp.
    apply LF_hit.
    + lia.
    + now apply startsWith_firstn.
    + intros k Hk. apply not_startsWith_occurs.
      specialize (Hm (k - p)%nat). rewrite skipn_skipn in Hm.
      replace (k - p + p)%nat with k in Hm by lia. apply Hm. lia.
    + replace (p + j + List.length (c :: q'))%nat
        with (Z.to_nat (Z.of_nat (p + j) + len (c :: q')))
        by (unfold len; lia).
      apply IHloop. unfold len. lia.
Qed.

Lemma LeftmostFirst_bounds s q pos ms :
  LeftmostFirst s q pos ms ->
  Forall (fun m => Z.of_nat pos <= start m /\ end_ m = start m + len q) ms.
Proof.
  induction 1 as [|pos i ms Hle Ho Hmin Hrest IH]; constructor.
  - simpl. lia.
  - eapply Forall_impl; [|exact IH]. simpl. unfold len. intros m. lia.
Qed.

(** Each range ends before the next one starts. *)
Lemma LeftmostFirst_chain s q pos ms :
  LeftmostFirst s q pos ms ->
  ForallOrdPairs (fun a b => end_ a <= start b) ms.
Proof.
  induction 1 as [|pos i ms Hle Ho Hmin Hrest IH]; constructor; auto.
  apply LeftmostFirst_bounds in Hrest.
  eapply Forall_impl; [|exact Hrest]. simpl. unfold len. intros m. lia.
Qed.

Lemma ordPairs_nth {A} (R : A -> A -> Prop) (l : list A) :
  ForallOrdPairs R l ->
  forall i j a b, (i < j)%nat ->
    nth_error l i = Some a -> nth_error l j = Some b -> R a b.
Proof.
  induction 1 as [|x l Hx Hl IH]; intros i j a b Hij Ha Hb.
  - destruct i; discriminate.
  - destruct j as [|j]; [lia|]. destruct i as [|i]; simpl in *.
    + injection Ha as <-. rewrite Forall_forall in Hx.
      apply Hx. eapply nth_error_In; eauto.
    + apply (IH i j a b); [lia | assumption | assumption].
Qed.

(** C3. For every logical string [s] and non-empty query [q],
    [findMatches s q] is the leftmost-first, non-overlapping sequence of
    occurrences of [q] in [s]: each range is [{i, i + len q}] for the first
    occurrence at or after the point where scanning resumed, and scanning
    resumes at [i + len q]; hence two different ranges of the result never
    overlap, and [findMatches "aaa" "aa"] is the single range [[0,2]]. *)
Theorem findMatches_leftmost_nonoverlapping (s q : jsstring) :
  q <> [] ->
  LeftmostFirst s q 0 (findMatches s q)
  /\ (forall i j mi mj, i <> j ->
        nth_error (findMatches s q) i = Some mi ->
        nth_error (findMatches s q) j = Some mj ->
        end_ mi <= start mj \/ end_ mj <= start mi)
  /\ findMatches (u16 "aaa") (u16 "aa") = [mkMatch 0 2].
Proof.
  intros Hq. destruct q as [|c q']; [congruence|].
  assert (HL : LeftmostFirst s (c :: q') 0 (findMatches s (c :: q'))).
  { apply (findLoop_leftmost s c q' 0). lia. }
  split; [exact HL|]. split; [|reflexivity].
  intros i j mi mj Hij Hi Hj.
  pose proof (ordPairs_nth _ _ (LeftmostFirst_chain _ _ _ _ HL)) as Hord.
  destruct (Nat.lt_total i j) as [Hlt|[Heq|Hgt]]; [left|congruence|right].
  - exact (Hord i j mi mj Hlt Hi Hj).
  - exact (Hord j i mj mi Hgt Hj Hi).
Qed.

Lemma findMatches_leftmost_nonoverlapping_witness :
  u16 "aa" <> []
  /\ LeftmostFirst (u16 "aaa") (u16 "aa") 0 [mkMatch 0 2].
Proof.
  split; [discriminate|].
  exact (proj1 (findMatches_leftmost_nonoverlapping
                  (u16 "aaa") (u16 "aa") ltac:(discriminate))).
Defined.

(** ** The segment collector *)

Lemma collect_tiles nodes offset :
  tiles offset (collect nodes offset) (offset + contentLength nodes)
  /\ Forall2 (fun e n => Entry.node e = fst n
                         /\ Entry.end_ e = Entry.start e + len (snd n))
       (collect nodes offset) nodes.
Proof.
  revert offset. induction nodes as [|[n text] r IH]; intros offset; simpl.
  - split; [lia | constructor].
  - destruct (IH (offset + len text)) as [Ht Hf].
    split.
    + repeat split; [unfold len; lia|].
      replace (offset + (len text + contentLength r))
        with (offset + len text + contentLength r) by lia.
      exact Ht.
    + constructor; auto.
Qed.

Lemma collect_start_nonneg nodes offset :
  0 <= offset ->
  Forall (fun e => 0 <= Entry.start e) (collect nodes offset).
Proof.
  revert offset. induction nodes as [|[n text] r IH]; intros offset Ho;
    simpl; constructor; auto.
  apply IH. unfold len. lia.
Qed.

Lemma len_app a b : len (a ++ b) = len a + len b.
Proof. unfold len. rewrite length_app. lia. Qed.

(** What does hold of every collection pass: the ranges tile
    [[0, sum of the content lengths)], every range has the length of its
    node's content, and the merged text is the concatenation of the
    lower-cased contents. Its length is that sum when lower-casing keeps the
    length of each content. *)
Lemma getTextNodes_tiles_contents root options d :
  let nodes := walked root options d in
  let texts := fst (getTextNodes root options d) in
  let mergedText := snd (getTextNodes root options d) in
  tiles 0 texts (contentLength nodes)
  /\ Forall2 (fun e n => Entry.node e = fst n
                         /\ Entry.end_ e = Entry.start e + len (snd n))
       texts nodes
  /\ mergedText = flat_map (fun n => toLowerCase (snd n)) nodes
  /\ (Forall (fun n => len (toLowerCase (snd n)) = len (snd n)) nodes ->
      len mergedText = contentLength nodes).
Proof.
  unfold getTextNodes. cbn [fst snd]. cbv zeta.
  destruct (collect_tiles (walked root options d) 0) as [Ht Hf].
  rewrite Z.add_0_l in Ht.
  split; [exact Ht|]. split; [exact Hf|]. split; [reflexivity|].
  clear Ht Hf. induction 1 as [|n r Hn Hr IH]; [reflexivity|].
  unfold contentLength in *. cbn [flat_map fold_right].
  rewrite len_app, Hn, IH. reflexivity.
Qed.

(** C4 (the code departs from it). On a text node that holds U+0130 the
    collector records the range [[0,1)], from the length of the content, but
    builds the merged text from the lower-cased content, which has two code
    units: the ranges do not tile [[0, mergedText.length)], and the length of
    the merged text is not the sum of the content lengths. With "ab" after
    the U+0130 the match of "ab" is found one place to the right of where
    the segment has it, and the marker wraps "b" alone. *)
Theorem getTextNodes_case_folding_breaks_partition :
  let r := getTextNodes 0 defaultOptions dottedCapitalI in
  let p := highlightNode 0 (Some (mkSelection (u16 "ab") []))
             dottedCapitalIab in
  walked 0 defaultOptions dottedCapitalI = [(2%nat, [304%N])]
  /\ fst r = [Entry.mk 2 0 1]
  /\ snd r = [105%N; 775%N]
  /\ len (snd r) <> contentLength (walked 0 defaultOptions dottedCapitalI)
  /\ ~ tiles 0 (fst r) (len (snd r))
  /\ getTextNodes 0 defaultOptions (document dottedCapitalIab)
     = ([Entry.mk 2 0 3], [105%N; 775%N] ++ u16 "ab")
  /\ findMatches ([105%N; 775%N] ++ u16 "ab") (u16 "ab") = [mkMatch 2 4]
  /\ markerTexts (document (snd p)) = [u16 "b"].
Proof.
  cbv zeta. repeat split; try reflexivity.
  - vm_compute. discriminate.
  - vm_compute. intros (_ & _ & H). discriminate.
Qed.

(** ** The selection filter *)

Lemma find_entry_In texts n e :
  find (fun t => (Entry.node t =? n)%nat) texts = Some e -> In e texts.
Proof. intros H. apply find_some in H. tauto. Qed.

(** C5. For a selection whose two end points map into the segments,
    [isInSelection] is true exactly when the match lies inside the
    selection's logical range or overlaps it under strict inequalities;
    so a match inside that range is never among the matches handed to
    [highlightMatches]. *)
Theorem isInSelection_mapped_selection root options d sel range others
    es ee (m : MatchRange) (matches : list MatchRange) :
  let texts := fst (getTextNodes root options d) in
  ranges sel = range :: others ->
  find (fun t => (Entry.node t =? startContainer range)%nat) texts
    = Some es ->
  find (fun t => (Entry.node t =? endContainer range)%nat) texts
    = Some ee ->
  let selStart := Entry.start es + Z.of_nat (startOffset range) in
  let selEnd := Entry.start ee + Z.of_nat (endOffset range) in
  (isInSelection m texts (Some sel) = true <->
     (selStart <= start m /\ end_ m <= selEnd)
     \/ (start m < selEnd /\ selStart < end_ m))
  /\ (selStart <= start m /\ end_ m <= selEnd ->
      ~ In m (filter (fun m => negb (isInSelection m texts (Some sel)))
                matches)).
Proof.
  intros texts Hr Hs He selStart selEnd.
  assert (Hnn : Forall (fun e => 0 <= Entry.start e) texts).
  { apply collect_start_nonneg. lia. }
  rewrite Forall_forall in Hnn.
  pose proof (Hnn _ (find_entry_In _ _ _ Hs)) as H0s.
  pose proof (Hnn _ (find_entry_In _ _ _ He)) as H0e.
  assert (Heq : isInSelection m texts (Some sel)
                = ((selStart <=? start m) && (end_ m <=? selEnd))
                  || ((start m <? selEnd) && (selStart <? end_ m))).
  { unfold isInSelection, findGlobalOffset. rewrite Hr, Hs, He.
    fold selStart selEnd.
    destruct (selStart =? -1) eqn:E1; [apply Z.eqb_eq in E1; lia|].
    destruct (selEnd =? -1) eqn:E2; [apply Z.eqb_eq in E2; lia|].
    reflexivity. }
  assert (Hiff : isInSelection m texts (Some sel) = true <->
     (selStart <= start m /\ end_ m <= selEnd)
     \/ (start m < selEnd /\ selStart < end_ m)).
  { rewrite Heq, orb_true_iff, !andb_true_iff, !Z.leb_le, !Z.ltb_lt.
    reflexivity. }
  split; [exact Hiff|].
  intros Hin Hf. apply filter_In in Hf. destruct Hf as [_ Hf].
  apply negb_true_iff in Hf.
  assert (isInSelection m texts (Some sel) = true) by (apply Hiff; auto).
  congruence.
Qed.

Lemma find_absent texts n :
  ~ In n (map Entry.node texts) ->
  find (fun t => (Entry.node t =? n)%nat) texts = None.
Proof.
  intros H. destruct (find _ texts) as [e|] eqn:E; [|reflexivity].
  exfalso. apply H. apply find_some in E. destruct E as [Hin He].
  apply Nat.eqb_eq in He. subst n. now apply in_map.
Qed.

(** C9. When the start or the end container of the selection is not the
    node of any segment, [isInSelection] is false for every match, and the
    filter of [highlightNode] keeps every match. *)
Theorem isInSelection_unmapped_selection texts sel range others :
  ranges sel = range :: others ->
  ~ In (startContainer range) (map Entry.node texts)
  \/ ~ In (endContainer range) (map Entry.node texts) ->
  (forall m, isInSelection m texts (Some sel) = false)
  /\ forall matches,
       filter (fun m => negb (isInSelection m texts (Some sel))) matches
       = matches.
Proof.
  intros Hr Habs.
  assert (H : forall m, isInSelection m texts (Some sel) = false).
  { intros m. unfold isInSelection, findGlobalOffset. rewrite Hr.
    destruct Habs as [Ha|Ha]; rewrite (find_absent _ _ Ha); cbn.
    - reflexivity.
    - rewrite orb_true_r. reflexivity. }
  split; [exact H|].
  induction matches as [|m r IH]; [reflexivity|].
  cbn [filter]. rewrite H, IH. reflexivity.
Qed.

(** ** Trees *)

Lemma Node_induction (P : Node -> Prop) :
  (forall i s, P (TextNode i s)) ->
  (forall i t c h l, Forall P l -> P (Element i t c h l)) ->
  forall n, P n.
Proof.
  intros Ht He. fix IH 1. intros [i s|i t c h l].
  - apply Ht.
  - apply He. induction l as [|x l IHl]; constructor; [apply IH | exact IHl].
Qed.

Lemma jseqb_eq a b : Js.eqb a b = true <-> a = b.
Proof.
  revert b. induction a as [|x a IH]; intros [|y b]; simpl;
    try (split; (reflexivity || discriminate)).
  rewrite andb_true_iff, N.eqb_eq, IH. split.
  - intros [-> ->]. reflexivity.
  - intros H. injection H as -> ->. auto.
Qed.

Lemma removeNode_element i t c h l k :
  isHighlight (Element i t c h l) = false ->
  removeNode (Element i t c h l) k
  = (Element i t c h (fst (removeL l k)), snd (removeL l k)).
Proof.
  intros H. cbn [removeNode]. rewrite H.
  change ((fix go (l : list Node) (k : nat) : list Node * nat :=
             match l with
             | [] => ([], k)
             | x :: r =>
                 let (x', k1) := removeNode x k in
                 let (r', k2) := go r k1 in
                 (x' :: r', k2)
             end) l k) with (removeL l k).
  destruct (removeL l k). reflexivity.
Qed.

Lemma removeNode_marker n k :
  isHighlight n = true ->
  removeNode n k = (TextNode k (textContent n), S k).
Proof.
  destruct n as [i s|i t c h l]; intros H; [discriminate|].
  cbn [removeNode]. rewrite H. reflexivity.
Qed.

Lemma removeL_cons x r k :
  removeL (x :: r) k
  = (fst (removeNode x k) :: fst (removeL r (snd (removeNode x k))),
     snd (removeL r (snd (removeNode x k)))).
Proof.
  cbn [removeL]. destruct (removeNode x k) as [x' k1]. cbn [fst snd].
  destruct (removeL r k1). reflexivity.
Qed.

(** After the clear no [.highlight] element is left. *)
Lemma removeNode_no_markers n :
  forall k, markersIn (fst (removeNode n k)) = [].
Proof.
  induction n as [i s|i t c h l IH] using Node_induction; intros k.
  - reflexivity.
  - destruct (isHighlight (Element i t c h l)) eqn:E.
    + rewrite removeNode_marker by exact E. reflexivity.
    + rewrite removeNode_element by exact E. cbn [fst markersIn].
      cbn [isHighlight] in *. rewrite E. cbn [app].
      revert k. induction IH as [|x r Hx Hr IHr]; intros k.
      * reflexivity.
      * rewrite removeL_cons. cbn [fst flat_map]. rewrite Hx, IHr.
        reflexivity.
Qed.

Lemma removeL_no_markers l :
  forall k, flat_map markersIn (fst (removeL l k)) = [].
Proof.
  induction l as [|x r IH]; intros k; [reflexivity|].
  rewrite removeL_cons. cbn [fst flat_map].
  rewrite removeNode_no_markers, IH. reflexivity.
Qed.

Lemma removeHighlights_no_markers d : markers (removeHighlights d) = [].
Proof.
  unfold removeHighlights, markers. destruct (body d) as [i s|i t c h l] eqn:E.
  - rewrite E. reflexivity.
  - pose proof (removeL_no_markers l (nextId d)) as H.
    destruct (removeL l (nextId d)) as [l' k]. exact H.
Qed.

(** ** The controller *)

(** When the selection text is empty or is the tracked text, the call clears
    the markers and does nothing else. *)
Lemma highlightNode_skip root selection p :
  getSelectedText selection = []
  \/ getSelectedText selection = lastSelectedText p ->
  highlightNode root selection p
  = (Ok tt, mkPage (removeHighlights (document p)) (lastSelectedText p)).
Proof.
  intros H. unfold highlightNode.
  destruct H as [H|H]; rewrite H.
  - reflexivity.
  - replace (Js.eqb (lastSelectedText p) (lastSelectedText p)) with true
      by (symmetry; now apply jseqb_eq).
    rewrite andb_false_r. reflexivity.
Qed.


(** C1 (the code departs from it). The first call highlights the second
    "ab" and tracks "ab"; a second call with the same selection finds the
    text equal to the tracked one and skips the pipeline, but only after the
    unconditional clear: the marker is gone and the document has changed. *)
Theorem highlightNode_same_text_clears_markers :
  let selection := selectIn 2 0 2 "ab" in
  let p1 := snd (highlightNode 0 selection twice) in
  let p2 := snd (highlightNode 0 selection p1) in
  getSelectedText selection = lastSelectedText p1
  /\ body (document p1)
     = elem 0 "BODY" [elem 1 "P" [text 2 "ab cd "; marker 3 6 "ab";
                                  text 5 ""]]
  /\ markerTexts (document p1) = [u16 "ab"]
  /\ lastSelectedText p2 = lastSelectedText p1
  /\ body (document p2)
     = elem 0 "BODY" [elem 1 "P" [text 2 "ab cd "; text 7 "ab"; text 5 ""]]
  /\ markerTexts (document p2) = []
  /\ document p2 <> document p1.
Proof.
  cbv zeta. repeat split; try (vm_compute; reflexivity).
  vm_compute. discriminate.
Qed.

(** The guard of the sibling controller: a selection of one letter or digit
    leaves its state as it is. *)
Lemma switchHighlight_rejects_single_alnum (FeatureState : Type)
    (currentHighlightText : FeatureState -> jsstring)
    (proceed : jsstring -> FeatureState -> FeatureState)
    selection (st : FeatureState) :
  len (getSelectedTextRaw selection) = 1 ->
  testAlnum (getSelectedTextRaw selection) = true ->
  switchHighlight FeatureState currentHighlightText proceed selection st = st.
Proof.
  intros Hl Ha. unfold switchHighlight. rewrite Hl, Ha. reflexivity.
Qed.

(** C6 (the code departs from it). [highlightNode] has no guard on a
    selection of one letter or digit: with the first "a" of "banana"
    selected it runs the pipeline and wraps the other two. *)
Theorem highlightNode_single_alnum_runs_pipeline :
  let selection := selectIn 2 1 2 "a" in
  let r := highlightNode 0 selection banana in
  len (getSelectedText selection) = 1
  /\ testAlnum (getSelectedText selection) = true
  /\ fst r = Ok tt
  /\ body (document (snd r))
     = elem 0 "BODY" [elem 1 "P" [text 2 "ban"; marker 7 10 "a"; text 9 "n";
                                  marker 3 6 "a"; text 5 ""]]
  /\ markerTexts (document (snd r)) = [u16 "a"; u16 "a"]
  /\ lastSelectedText (snd r) = u16 "a".
Proof.
  cbv zeta. repeat split; vm_compute; reflexivity.
Qed.

(** ** The splice engine *)

(** C8 (the code departs from it). A match that ends where its leaf ends:
    [splitText] has already made the empty rest the next sibling, and not
    calling [after] for it does not take it out; an empty text leaf follows
    the marker. *)
Theorem highlightMatches_leaves_empty_leaf_after_marker :
  getTextNodes 0 defaultOptions wholeLeaf = ([Entry.mk 2 0 2], u16 "ab")
  /\ findMatches (u16 "ab") (u16 "ab") = [mkMatch 0 2]
  /\ localRange (Entry.mk 2 0 2) (len (u16 "ab")) (mkMatch 0 2) = mkMatch 0 2
  /\ highlightMatches [Entry.mk 2 0 2] [mkMatch 0 2] wholeLeaf
     = (Ok tt,
        mkDoc (elem 0 "BODY"
                 [elem 1 "P" [text 2 ""; marker 3 6 "ab"; TextNode 5 []]]) 7).
Proof.
  repeat split; vm_compute; reflexivity.
Qed.

(** A match that runs past the end of a segment: the loop records the part
    inside the segment and leaves the match pending. *)
Lemma collectNodeMatches_spanning entry contentLength m rest :
  start m < Entry.end_ entry < end_ m ->
  Entry.start entry < end_ m ->
  collectNodeMatches entry contentLength (m :: rest)
  = ([localRange entry contentLength m], m :: rest).
Proof.
  intros [H1 H2] H3. cbn [collectNodeMatches].
  replace (end_ m <=? Entry.end_ entry) with false by (symmetry; lia).
  rewrite andb_false_r.
  replace (start m <? Entry.end_ entry) with true by (symmetry; lia).
  replace (Entry.start entry <? end_ m) with true by (symmetry; lia).
  reflexivity.
Qed.

(** A pending match that began before a segment is taken up again there,
    from the start of the segment. *)
Lemma collectNodeMatches_carried entry contentLength m rest :
  start m < Entry.start entry < Entry.end_ entry ->
  Entry.start entry < end_ m ->
  collectNodeMatches entry contentLength (m :: rest)
  = ([mkMatch 0 (Z.min contentLength (end_ m - Entry.start entry))],
     m :: rest).
Proof.
  intros [H1 H2] H3. cbn [collectNodeMatches].
  replace (Entry.start entry <=? start m) with false by (symmetry; lia).
  rewrite andb_false_l.
  replace (start m <? Entry.end_ entry) with true by (symmetry; lia).
  replace (Entry.start entry <? end_ m) with true by (symmetry; lia).
  unfold localRange. rewrite Z.max_l by lia. reflexivity.
Qed.

(** The claim C2 as it is worded fails: for the leaves "ab", "cd", "ef" and
    the range [[1,5]] the markers are not the single marker "bcde". *)
Lemma highlightMatches_three_leaves_not_one_marker :
  let r := highlightMatches
             [Entry.mk 2 0 2; Entry.mk 4 2 4; Entry.mk 6 4 6]
             [mkMatch 1 5] threeLeaves in
  fst r = Ok tt /\ markerTexts (snd r) <> [u16 "bcde"].
Proof.
  cbv zeta. split; [reflexivity|]. vm_compute. discriminate.
Qed.

(** ** Round trip of a highlight pass *)

Lemma joinShape_app s1 s2 acc :
  joinShape s1 (joinShape s2 acc) = joinShape (s1 ++ s2) acc.
Proof.
  destruct s1 as [|a s1]; [reflexivity|].
  destruct s2 as [|b s2].
  - rewrite app_nil_r. reflexivity.
  - cbn. destruct acc as [|[t|t c h l] r]; cbn;
      rewrite ?app_comm_cons, ?app_assoc; reflexivity.
Qed.

Lemma erase_joinText i s acc :
  map erase (joinText i s acc) = joinShape s (map erase acc).
Proof.
  destruct s as [|a s]; [reflexivity|].
  destruct acc as [|[j t|j t c h l] r]; reflexivity.
Qed.

Lemma normalize_element i t c h l :
  normalize (Element i t c h l) = Element i t c h (normalizeL l).
Proof. reflexivity. Qed.

Lemma canon_clear_normalize_node n :
  forall k acc,
    map erase (match fst (removeNode n k) with
               | TextNode j s => joinText j s acc
               | Element _ _ _ _ _ => normalize (fst (removeNode n k)) :: acc
               end)
    = canonKid n (map erase acc).
Proof.
  induction n as [i s|i t c h l IH] using Node_induction; intros k acc.
  - cbn [removeNode fst canonKid]. apply erase_joinText.
  - destruct (isHighlight (Element i t c h l)) eqn:E.
    + rewrite removeNode_marker by exact E. cbn [fst canonKid].
      rewrite E. apply erase_joinText.
    + rewrite removeNode_element by exact E. cbn [fst canonKid].
      rewrite E. rewrite normalize_element. cbn [map erase]. f_equal. f_equal.
      clear E. revert k. induction IH as [|x r Hx Hr IHr]; intros k.
      * reflexivity.
      * rewrite removeL_cons. cbn [fst]. 
        change (normalizeL (?a :: ?b)) with
          (match a with
           | TextNode j s => joinText j s (normalizeL b)
           | Element _ _ _ _ _ => normalize a :: normalizeL b
           end).
        rewrite Hx. cbn [fold_right]. f_equal. apply IHr.
Qed.

Lemma canon_clear_normalize l :
  forall k, map erase (normalizeL (fst (removeL l k))) = canonL l.
Proof.
  induction l as [|x r IH]; intros k; [reflexivity|].
  rewrite removeL_cons. cbn [fst].
  change (normalizeL (?a :: ?b)) with
    (match a with
     | TextNode j s => joinText j s (normalizeL b)
     | Element _ _ _ _ _ => normalize a :: normalizeL b
     end).
  rewrite canon_clear_normalize_node. unfold canonL. cbn [fold_right].
  f_equal. apply IH.
Qed.

(** Clearing a tree without markers changes nothing. *)
Lemma removeNode_unmarked n :
  markersIn n = [] -> forall k, removeNode n k = (n, k).
Proof.
  induction n as [i s|i t c h l IH] using Node_induction; intros Hm k.
  - reflexivity.
  - cbn [markersIn] in Hm.
    destruct (isHighlight (Element i t c h l)) eqn:E; [discriminate|].
    cbn [app] in Hm. rewrite removeNode_element by exact E. clear E.
    assert (H : removeL l k = (l, k)).
    { revert k. induction IH as [|x r Hx Hr IHr]; intros k; [reflexivity|].
      cbn [flat_map] in Hm. apply app_eq_nil in Hm. destruct Hm as [H1 H2].
      rewrite removeL_cons, (Hx H1). cbn [fst snd]. rewrite (IHr H2).
      reflexivity. }
    rewrite H. reflexivity.
Qed.

Lemma removeL_unmarked l :
  flat_map markersIn l = [] -> forall k, removeL l k = (l, k).
Proof.
  induction l as [|x r IH]; intros Hm k; [reflexivity|].
  cbn [flat_map] in Hm. apply app_eq_nil in Hm. destruct Hm as [H1 H2].
  rewrite removeL_cons, (removeNode_unmarked _ H1). cbn [fst snd].
  rewrite (IH H2). reflexivity.
Qed.

Lemma removeNode_textContent n :
  forall k, textContent (fst (removeNode n k)) = textContent n.
Proof.
  induction n as [i s|i t c h l IH] using Node_induction; intros k.
  - reflexivity.
  - destruct (isHighlight (Element i t c h l)) eqn:E.
    + rewrite removeNode_marker by exact E. reflexivity.
    + rewrite removeNode_element by exact E. cbn [fst textContent].
      clear E. revert k. induction IH as [|x r Hx Hr IHr]; intros k.
      * reflexivity.
      * rewrite removeL_cons. cbn [fst flat_map]. rewrite Hx, IHr.
        reflexivity.
Qed.

(** *** Rewriting child lists *)

Lemma Node_list_ind (P : Node -> Prop) (Q : list Node -> Prop) :
  (forall i s, P (TextNode i s)) ->
  (forall i t c h l, Q l -> P (Element i t c h l)) ->
  Q [] ->
  (forall x r, P x -> Q r -> Q (x :: r)) ->
  (forall n, P n) /\ (forall l, Q l).
Proof.
  intros Ht He Hn Hc.
  assert (HP : forall n, P n).
  { induction n as [i s|i t c h l IH] using Node_induction; [apply Ht|].
    apply He. induction IH; auto. }
  split; [exact HP|]. induction l; auto.
Qed.

Lemma substNode_element a f i t c h l :
  substNode a f (Element i t c h l) = Element i t c h (substL a f l).
Proof. reflexivity. Qed.

Lemma substL_cons a f k r :
  substL a f (k :: r)
  = (if (nodeId k =? a)%nat then f k else [substNode a f k]) ++ substL a f r.
Proof. reflexivity. Qed.

Lemma substL_app a f l1 l2 :
  substL a f (l1 ++ l2) = substL a f l1 ++ substL a f l2.
Proof. apply flat_map_app. Qed.

Lemma nodeId_substNode a f n : nodeId (substNode a f n) = nodeId n.
Proof. destruct n; reflexivity. Qed.

Lemma findNode_element a i t c h l :
  findNode a (Element i t c h l)
  = if (i =? a)%nat then Some (Element i t c h l) else findL a l.
Proof.
  cbn [findNode nodeId]. destruct (i =? a)%nat; [reflexivity|].
  induction l as [|k r IH]; [reflexivity|].
  cbn [findL]. destruct (findNode a k); [reflexivity|]. exact IH.
Qed.

Lemma findL_app a l1 l2 :
  findL a (l1 ++ l2)
  = match findL a l1 with Some x => Some x | None => findL a l2 end.
Proof.
  induction l1 as [|k r IH]; [reflexivity|].
  cbn [app findL]. destruct (findNode a k); [reflexivity|]. exact IH.
Qed.

Lemma ids_subnodes :
  (forall n, ids n = map nodeId (subnodes n))
  /\ (forall l, idsL l = map nodeId (descL l)).
Proof.
  apply Node_list_ind.
  - reflexivity.
  - intros i t c h l IH. cbn [ids subnodes map nodeId].
    f_equal. exact IH.
  - reflexivity.
  - intros x r Hx Hr. unfold idsL, descL in *. cbn [flat_map].
    rewrite map_app, Hx, Hr. reflexivity.
Qed.

Lemma NoDup_map_eq {A B} (f : A -> B) (l : list A) x y :
  NoDup (map f l) -> In x l -> In y l -> f x = f y -> x = y.
Proof.
  induction l as [|z l IH]; intros Hnd Hx Hy Hf; [contradiction|].
  cbn [map] in Hnd. inversion Hnd as [|? ? Hnin Hnd']; subst.
  destruct Hx as [<-|Hx], Hy as [<-|Hy]; auto.
  - exfalso. apply Hnin. rewrite Hf. now apply in_map.
  - exfalso. apply Hnin. rewrite <- Hf. now apply in_map.
Qed.

(** With unique identities, two nodes of the same identity are one. *)
Lemma unique_node l x y :
  NoDup (idsL l) -> In x (descL l) -> In y (descL l) ->
  nodeId x = nodeId y -> x = y.
Proof.
  rewrite (proj2 ids_subnodes). apply NoDup_map_eq.
Qed.

Lemma find_found a :
  (forall n x, findNode a n = Some x -> In x (subnodes n) /\ nodeId x = a)
  /\ (forall l x, findL a l = Some x -> In x (descL l) /\ nodeId x = a).
Proof.
  apply Node_list_ind.
  - intros i s x H. cbn in H. destruct (i =? a)%nat eqn:E; [|discriminate].
    injection H as <-. apply Nat.eqb_eq in E. cbn. auto.
  - intros i t c h l IH x H. rewrite findNode_element in H.
    destruct (i =? a)%nat eqn:E.
    + injection H as <-. apply Nat.eqb_eq in E. cbn. auto.
    + destruct (IH _ H) as [H1 H2]. split; [|exact H2].
      cbn [subnodes]. right. exact H1.
  - intros x H. discriminate.
  - intros k r Hk Hr x H. cbn [findL] in H. unfold descL. cbn [flat_map].
    destruct (findNode a k) as [y|] eqn:E.
    + injection H as <-. destruct (Hk _ eq_refl). split; [|assumption].
      apply in_or_app. now left.
    + destruct (Hr _ H). split; [|assumption]. apply in_or_app. now right.
Qed.

Lemma find_absent_id a :
  (forall n, ~ In a (ids n) -> findNode a n = None)
  /\ (forall l, ~ In a (idsL l) -> findL a l = None).
Proof.
  apply Node_list_ind.
  - intros i s H. cbn in *. destruct (i =? a)%nat eqn:E; [|reflexivity].
    apply Nat.eqb_eq in E. tauto.
  - intros i t c h l IH H. rewrite findNode_element. cbn [ids] in H.
    destruct (i =? a)%nat eqn:E.
    + apply Nat.eqb_eq in E. exfalso. apply H. now left.
    + apply IH. intros Hin. apply H. now right.
  - reflexivity.
  - intros k r Hk Hr H. unfold idsL in H. cbn [flat_map findL] in *.
    rewrite Hk by (intros Hin; apply H, in_or_app; now left).
    apply Hr. intros Hin. apply H, in_or_app. now right.
Qed.

Lemma find_present_id a :
  (forall n, findNode a n = None -> ~ In a (ids n))
  /\ (forall l, findL a l = None -> ~ In a (idsL l)).
Proof.
  apply Node_list_ind.
  - intros i s H. cbn in *. destruct (i =? a)%nat eqn:E; [discriminate|].
    apply Nat.eqb_neq in E. tauto.
  - intros i t c h l IH H. rewrite findNode_element in H. cbn [ids].
    destruct (i =? a)%nat eqn:E; [discriminate|].
    apply Nat.eqb_neq in E. intros [Hin|Hin]; [tauto|]. now apply IH.
  - intros _ [].
  - intros k r Hk Hr H. unfold idsL. cbn [flat_map findL] in *.
    destruct (findNode a k) eqn:E; [discriminate|].
    intros Hin. apply in_app_or in Hin. destruct Hin as [Hin|Hin].
    + now apply Hk.
    + now apply Hr.
Qed.

(** Rewriting at an identity that does not occur changes nothing. *)
Lemma subst_absent a f :
  (forall n, ~ In a (ids n) -> substNode a f n = n)
  /\ (forall l, ~ In a (idsL l) -> substL a f l = l).
Proof.
  apply Node_list_ind.
  - reflexivity.
  - intros i t c h l IH H. rewrite substNode_element. f_equal.
    apply IH. intros Hin. apply H. cbn [ids]. now right.
  - reflexivity.
  - intros k r Hk Hr H. unfold idsL in H. cbn [flat_map] in H.
    rewrite substL_cons.
    assert (Hne : (nodeId k =? a)%nat = false).
    { apply Nat.eqb_neq. intros <-. apply H, in_or_app. left.
      destruct k; cbn; auto. }
    rewrite Hne, Hk, Hr; [reflexivity| |];
      intros Hin; apply H, in_or_app; auto.
Qed.

(** Only what [f] gives for the nodes of identity [a] matters. *)
Lemma subst_ext a f g :
  (forall n, (forall x, In x (subnodes n) -> nodeId x = a -> f x = g x) ->
             substNode a f n = substNode a g n)
  /\ (forall l, (forall x, In x (descL l) -> nodeId x = a -> f x = g x) ->
                substL a f l = substL a g l).
Proof.
  apply Node_list_ind.
  - reflexivity.
  - intros i t c h l IH H. rewrite !substNode_element. f_equal.
    apply IH. intros x Hx. apply H. cbn [subnodes]. now right.
  - reflexivity.
  - intros k r Hk Hr H. unfold descL in H. cbn [flat_map] in H.
    rewrite !substL_cons.
    rewrite Hk, Hr; try (intros x Hx; apply H, in_or_app; auto).
    destruct (nodeId k =? a)%nat eqn:E; [|reflexivity].
    rewrite (H k); [reflexivity| |now apply Nat.eqb_eq].
    apply in_or_app. left. destruct k; cbn; auto.
Qed.

(** Two rewritings in a row, the second at an identity that the first
    brought in, are one rewriting. *)
Lemma subst_subst a f b g :
  (forall n, ~ In b (ids n) ->
             substNode b g (substNode a f n)
             = substNode a (fun x => substL b g (f x)) n)
  /\ (forall l, ~ In b (idsL l) ->
                substL b g (substL a f l)
                = substL a (fun x => substL b g (f x)) l).
Proof.
  apply Node_list_ind.
  - reflexivity.
  - intros i t c h l IH H. rewrite !substNode_element. f_equal.
    apply IH. intros Hin. apply H. cbn [ids]. now right.
  - reflexivity.
  - intros k r Hk Hr H. unfold idsL in H. cbn [flat_map] in H.
    rewrite !substL_cons, substL_app.
    rewrite Hr by (intros Hin; apply H, in_or_app; auto). f_equal.
    destruct (nodeId k =? a)%nat eqn:E; [reflexivity|].
    rewrite substL_cons, nodeId_substNode. cbn [substL flat_map].
    assert (Hne : (nodeId k =? b)%nat = false).
    { apply Nat.eqb_neq. intros <-. apply H, in_or_app. left.
      destruct k; cbn; auto. }
    rewrite Hne, app_nil_r, Hk; [reflexivity|].
    intros Hin. apply H, in_or_app. auto.
Qed.

Lemma idsL_app l1 l2 : idsL (l1 ++ l2) = idsL l1 ++ idsL l2.
Proof. apply flat_map_app. Qed.

Lemma nodeId_in_ids k : In (nodeId k) (ids k).
Proof. destruct k; cbn; auto. Qed.

Lemma NoDup_app_disjoint {A} (l1 l2 : list A) a :
  NoDup (l1 ++ l2) -> In a l1 -> ~ In a l2.
Proof.
  induction l1 as [|x l1 IH]; intros Hnd Hin; [contradiction|].
  cbn [app] in Hnd. inversion Hnd as [|? ? Hx Hnd']; subst.
  destruct Hin as [<-|Hin].
  - intros H. apply Hx, in_or_app. now right.
  - now apply IH.
Qed.

Lemma found_in_ids a n x : findNode a n = Some x -> In a (ids n).
Proof.
  intros H. apply (proj1 (find_found a)) in H. destruct H as [Hin <-].
  rewrite (proj1 ids_subnodes). now apply in_map.
Qed.

Lemma findNode_self k : findNode (nodeId k) k = Some k.
Proof.
  destruct k; cbn [findNode nodeId]; rewrite Nat.eqb_refl; reflexivity.
Qed.

(** Looking up an identity after the one node of identity [a] has been
    replaced by the list [L], for [a] itself or an identity that the
    document did not have: it is found in [L] or nowhere. *)
Lemma find_subst a L b x0 :
  (forall n, NoDup (ids n) -> b = a \/ ~ In b (ids n) -> nodeId n <> a ->
             findNode a n = Some x0 ->
             findNode b (substNode a (fun _ => L) n) = findL b L)
  /\ (forall l, NoDup (idsL l) -> b = a \/ ~ In b (idsL l) ->
                findL a l = Some x0 ->
                findL b (substL a (fun _ => L) l) = findL b L).
Proof.
  apply Node_list_ind.
  - intros i s _ _ Hne H. cbn in *.
    destruct (i =? a)%nat eqn:E; [|discriminate].
    apply Nat.eqb_eq in E. contradiction.
  - intros i t c h l IH Hnd Hb Hne H.
    rewrite findNode_element in H. cbn [nodeId ids] in *.
    replace (i =? a)%nat with false in H
      by (symmetry; now apply Nat.eqb_neq).
    rewrite substNode_element, findNode_element.
    replace (i =? b)%nat with false
      by (symmetry; apply Nat.eqb_neq; intros ->;
          destruct Hb as [->|Hb]; [now apply Hne | apply Hb; now left]).
    apply IH; [now inversion Hnd | | exact H].
    destruct Hb as [Hb|Hb]; [now left | right].
    intros Hin. apply Hb. now right.
  - intros _ _ H. discriminate.
  - intros k r Hk Hr Hnd Hb H. unfold idsL in Hnd, Hb.
    cbn [flat_map findL] in *. fold (idsL r) in *.
    rewrite substL_cons, findL_app.
    destruct (findNode a k) as [y|] eqn:E.
    + injection H as ->.
      assert (Har : ~ In a (idsL r)).
      { eapply NoDup_app_disjoint; [exact Hnd|]. eapply found_in_ids; eauto. }
      assert (Hbr : ~ In b (idsL r)).
      { destruct Hb as [->|Hb]; [exact Har|].
        intros Hin. apply Hb, in_or_app. now right. }
      rewrite (proj2 (subst_absent a _) r Har).
      rewrite (proj2 (find_absent_id b) r Hbr).
      destruct (nodeId k =? a)%nat eqn:Ek.
      * destruct (findL b L); reflexivity.
      * cbn [findL]. apply Nat.eqb_neq in Ek.
        rewrite Hk; auto; [|eapply NoDup_app_remove_r; eauto|].
        -- destruct (findL b L); reflexivity.
        -- destruct Hb as [Hb|Hb]; [now left | right].
           intros Hin. apply Hb, in_or_app. now left.
    + assert (Hak : ~ In a (ids k)) by now apply (proj1 (find_present_id a)).
      assert (Hbk : ~ In b (ids k)).
      { destruct Hb as [->|Hb]; [exact Hak|].
        intros Hin. apply Hb, in_or_app. now left. }
      replace (nodeId k =? a)%nat with false
        by (symmetry; apply Nat.eqb_neq; intros <-;
            apply Hak, nodeId_in_ids).
      cbn [findL]. rewrite (proj1 (subst_absent a _) k Hak).
      rewrite (proj1 (find_absent_id b) k Hbk).
      apply Hr; auto; [eapply NoDup_app_remove_l; eauto|].
      destruct Hb as [Hb|Hb]; [now left | right].
      intros Hin. apply Hb, in_or_app. now right.
Qed.

(** The identities after the one text node of identity [a] has been replaced
    by a list that keeps [a] and brings in [extra]. *)
Lemma ids_subst a L extra x0 :
  ids x0 = [a] -> idsL L = a :: extra ->
  (forall n, NoDup (ids n) -> nodeId n <> a -> findNode a n = Some x0 ->
             Permutation (ids (substNode a (fun _ => L) n)) (extra ++ ids n))
  /\ (forall l, NoDup (idsL l) -> findL a l = Some x0 ->
                Permutation (idsL (substL a (fun _ => L) l))
                            (extra ++ idsL l)).
Proof.
  intros Hx0 HL. apply Node_list_ind.
  - intros i s _ Hne H. cbn in *.
    destruct (i =? a)%nat eqn:E; [|discriminate].
    apply Nat.eqb_eq in E. contradiction.
  - intros i t c h l IH Hnd Hne H.
    rewrite findNode_element in H. cbn [nodeId ids] in *.
    replace (i =? a)%nat with false in H
      by (symmetry; now apply Nat.eqb_neq).
    fold (substL a (fun _ => L) l). fold (idsL (substL a (fun _ => L) l)).
    fold (idsL l). apply Permutation_cons_app, IH; auto. now inversion Hnd.
  - intros _ H. discriminate.
  - intros k r Hk Hr Hnd H. unfold idsL in Hnd.
    cbn [flat_map findL] in *. fold (idsL r) in *.
    rewrite substL_cons, idsL_app.
    change (idsL (k :: r)) with (ids k ++ idsL r).
    destruct (findNode a k) as [y|] eqn:E.
    + injection H as ->.
      assert (Har : ~ In a (idsL r)).
      { eapply NoDup_app_disjoint; [exact Hnd|]. eapply found_in_ids; eauto. }
      rewrite (proj2 (subst_absent a _) r Har).
      destruct (nodeId k =? a)%nat eqn:Ek.
      * apply Nat.eqb_eq in Ek. subst a. rewrite findNode_self in E.
        injection E as ->. rewrite HL, Hx0. cbn [app].
        apply Permutation_middle.
      * apply Nat.eqb_neq in Ek. rewrite app_assoc.
        apply Permutation_app_tail.
        change (idsL [substNode a (fun _ => L) k])
          with (ids (substNode a (fun _ => L) k) ++ []).
        rewrite app_nil_r. apply Hk; auto. eapply NoDup_app_remove_r; eauto.
    + assert (Hak : ~ In a (ids k)) by now apply (proj1 (find_present_id a)).
      replace (nodeId k =? a)%nat with false
        by (symmetry; apply Nat.eqb_neq; intros <-;
            apply Hak, nodeId_in_ids).
      rewrite (proj1 (subst_absent a _) k Hak).
      change (idsL [k]) with (ids k ++ []). rewrite app_nil_r.
      eapply Permutation_trans;
        [apply Permutation_app_head, Hr; auto;
         eapply NoDup_app_remove_l; eauto|].
      rewrite !app_assoc. apply Permutation_app_tail, Permutation_app_comm.
Qed.

Lemma canon_subst a f :
  (forall n, (forall x, In x (subnodes n) -> nodeId x = a ->
                        sameText (f x) x) ->
             (forall acc, canonKid (substNode a f n) acc = canonKid n acc)
             /\ textContent (substNode a f n) = textContent n)
  /\ (forall l, (forall x, In x (descL l) -> nodeId x = a ->
                           sameText (f x) x) ->
                (forall acc, fold_right canonKid acc (substL a f l)
                             = fold_right canonKid acc l)
                /\ flat_map textContent (substL a f l)
                   = flat_map textContent l).
Proof.
  apply Node_list_ind.
  - intros i s _. split; reflexivity.
  - intros i t c h l IH H. rewrite substNode_element.
    destruct IH as [IH1 IH2].
    { intros x Hx. apply H. cbn [subnodes]. now right. }
    split.
    + intros acc. cbn [canonKid textContent].
      change (isHighlight (Element i t c h (substL a f l)))
        with (isHighlight (Element i t c h l)).
      rewrite IH1, IH2. reflexivity.
    + cbn [textContent]. exact IH2.
  - intros _. split; reflexivity.
  - intros k r Hk Hr H. unfold descL in H. cbn [flat_map] in H.
    destruct Hk as [Hk1 Hk2]; [intros x Hx; apply H, in_or_app; auto|].
    destruct Hr as [Hr1 Hr2]; [intros x Hx; apply H, in_or_app; auto|].
    rewrite substL_cons. split.
    + intros acc. rewrite fold_right_app, Hr1. cbn [fold_right].
      destruct (nodeId k =? a)%nat eqn:E.
      * apply Nat.eqb_eq in E. apply (H k); [|exact E].
        apply in_or_app. left. destruct k; cbn; auto.
      * cbn [fold_right]. apply Hk1.
    + rewrite flat_map_app, Hr2. cbn [flat_map]. f_equal.
      destruct (nodeId k =? a)%nat eqn:E.
      * apply Nat.eqb_eq in E. apply (H k); [|exact E].
        apply in_or_app. left. destruct k; cbn; auto.
      * cbn [flat_map]. rewrite app_nil_r. exact Hk2.
Qed.

Lemma parentIn_in_ids a :
  (forall n p, parentIn a n = Some p -> In a (ids n))
  /\ (forall l p,
        (fix go (l : list Node) : option nat :=
           match l with
           | [] => None
           | k :: r => match parentIn a k with
                       | Some p => Some p
                       | None => go r
                       end
           end) l = Some p -> In a (idsL l)).
Proof.
  apply Node_list_ind.
  - intros i s p H. discriminate.
  - intros i t c h l IH p H. cbn [parentIn] in H. cbn [ids]. right.
    destruct (existsb (fun k => (nodeId k =? a)%nat) l) eqn:E.
    + apply existsb_exists in E. destruct E as (k & Hk & Hid).
      apply Nat.eqb_eq in Hid. subst a. unfold idsL.
      apply in_flat_map. exists k. split; [exact Hk|apply nodeId_in_ids].
    + eapply IH; eauto.
  - intros p H. discriminate.
  - intros k r Hk Hr p H. unfold idsL. cbn [flat_map]. apply in_or_app.
    destruct (parentIn a k) eqn:E.
    + left. eapply Hk; eauto.
    + right. eapply Hr; eauto.
Qed.

(** Nodes other than the one replaced, and other than those brought in, are
    found as before. *)
Lemma find_subst_other a s L b :
  b <> a -> ~ In b (idsL L) ->
  (forall n, nodeId n <> a ->
             (forall x, In x (subnodes n) -> nodeId x = a ->
                        x = TextNode a s) ->
             findNode b (substNode a (fun _ => L) n)
             = match findNode b n with
               | Some x => Some (substNode a (fun _ => L) x)
               | None => None
               end)
  /\ (forall l, (forall x, In x (descL l) -> nodeId x = a ->
                           x = TextNode a s) ->
                findL b (substL a (fun _ => L) l)
                = match findL b l with
                  | Some x => Some (substNode a (fun _ => L) x)
                  | None => None
                  end).
Proof.
  intros Hba HbL. apply Node_list_ind.
  - intros i t _ _. cbn. destruct (i =? b)%nat; reflexivity.
  - intros i t c h l IH Hne Hu.
    rewrite substNode_element, !findNode_element.
    destruct (i =? b)%nat; [reflexivity|].
    apply IH. intros x Hx. apply Hu. cbn [subnodes]. now right.
  - intros _. reflexivity.
  - intros k r Hk Hr Hu. unfold descL in Hu. cbn [flat_map] in Hu.
    rewrite substL_cons, findL_app. cbn [findL].
    rewrite Hr by (intros x Hx; apply Hu, in_or_app; now right).
    destruct (nodeId k =? a)%nat eqn:E.
    + apply Nat.eqb_eq in E.
      rewrite (proj2 (find_absent_id b) L HbL).
      replace k with (TextNode a s)
        by (symmetry; apply Hu; [apply in_or_app; left; destruct k; cbn; auto
                                | exact E]).
      cbn [findNode nodeId].
      replace (a =? b)%nat with false
        by (symmetry; apply Nat.eqb_neq; congruence).
      reflexivity.
    + cbn [findL]. apply Nat.eqb_neq in E.
      rewrite Hk; [|exact E|intros x Hx; apply Hu, in_or_app; now left].
      destruct (findNode b k); reflexivity.
Qed.

Lemma parentIn_element a i t c h l :
  parentIn a (Element i t c h l)
  = if existsb (fun k => (nodeId k =? a)%nat) l then Some i
    else parentInL a l.
Proof.
  cbn [parentIn]. destruct (existsb _ l); [reflexivity|].
  induction l as [|k r IH]; [reflexivity|].
  cbn [parentInL]. destruct (parentIn a k); [reflexivity|]. exact IH.
Qed.

Lemma parentInL_app a l1 l2 :
  parentInL a (l1 ++ l2)
  = match parentInL a l1 with Some p => Some p | None => parentInL a l2 end.
Proof.
  induction l1 as [|k r IH]; [reflexivity|].
  cbn [app parentInL]. destruct (parentIn a k); [reflexivity|]. exact IH.
Qed.

(** Two nodes at the top of the list [L] that replaces the node of identity
    [a], one of them the node of identity [a] itself, the other new, have
    the same parent; [L] is a list of text nodes and markers, which have no
    children of these identities. *)
Lemma parent_of_siblings a L b :
  existsb (fun k => (nodeId k =? a)%nat) L = true ->
  existsb (fun k => (nodeId k =? b)%nat) L = true ->
  parentInL a L = None -> parentInL b L = None ->
  (forall n, ~ In b (ids n) ->
             parentIn b (substNode a (fun _ => L) n)
             = parentIn a (substNode a (fun _ => L) n))
  /\ (forall l, ~ In b (idsL l) ->
                existsb (fun k => (nodeId k =? b)%nat)
                        (substL a (fun _ => L) l)
                = existsb (fun k => (nodeId k =? a)%nat)
                          (substL a (fun _ => L) l)
                /\ parentInL b (substL a (fun _ => L) l)
                   = parentInL a (substL a (fun _ => L) l)).
Proof.
  intros HaL HbL Hpa Hpb. apply Node_list_ind.
  - reflexivity.
  - intros i t c h l IH Hb. rewrite substNode_element, !parentIn_element.
    destruct IH as [IH1 IH2].
    { intros Hin. apply Hb. cbn [ids]. now right. }
    rewrite IH1, IH2. reflexivity.
  - intros _. split; reflexivity.
  - intros k r Hk Hr Hb. unfold idsL in Hb. cbn [flat_map] in Hb.
    destruct Hr as [Hr1 Hr2]; [intros Hin; apply Hb, in_or_app; now right|].
    assert (Hbk : ~ In b (ids k))
      by (intros Hin; apply Hb, in_or_app; now left).
    rewrite substL_cons, !existsb_app, !parentInL_app, Hr1, Hr2.
    destruct (nodeId k =? a)%nat eqn:E.
    + rewrite HaL, HbL, Hpa, Hpb. split; reflexivity.
    + cbn [existsb parentInL]. rewrite nodeId_substNode, E, Hk by exact Hbk.
      replace (nodeId k =? b)%nat with false
        by (symmetry; apply Nat.eqb_neq; intros <-;
            apply Hbk, nodeId_in_ids).
      split; reflexivity.
Qed.

(** *** One wrapped match *)

Lemma bind_Ok {A B} (m : M A) (f : A -> M B) d b d' :
  bind m f d = (Ok b, d') ->
  exists a d1, m d = (Ok a, d1) /\ f a d1 = (Ok b, d').
Proof.
  unfold bind. destruct (m d) as [[a|e] d1]; [eauto|discriminate].
Qed.

Lemma readText_Ok n d s d' :
  readText n d = (Ok s, d') -> findText n d = Some s /\ d' = d.
Proof.
  unfold readText. destruct (findText n d); intros H; inversion H; auto.
Qed.

Lemma splitText_Ok n offset d h d' :
  splitText n offset d = (Ok h, d') ->
  exists s, findText n d = Some s
            /\ 0 <= offset <= len s
            /\ h = nextId d
            /\ d' = mkDoc (substNode n (splitAt offset h) (body d))
                          (S (nextId d)).
Proof.
  unfold splitText. intros H.
  apply bind_Ok in H. destruct H as (s & d1 & Hr & H).
  apply readText_Ok in Hr. destruct Hr as [Hs ->].
  destruct ((offset <? 0) || (len s <? offset)) eqn:E; [discriminate|].
  apply orb_false_iff in E. destruct E as [E1 E2].
  apply bind_Ok in H. destruct H as (h' & d1 & Hf & H).
  unfold fresh in Hf. inversion Hf; subst. inversion H; subst.
  exists s. repeat split; auto; lia.
Qed.

Lemma findText_found d n s :
  findText n d = Some s ->
  exists i t c h kids,
    body d = Element i t c h kids /\ findL n kids = Some (TextNode n s).
Proof.
  unfold findText, findDesc. destruct (body d) as [i s'|i t c h kids].
  - discriminate.
  - cbn [children]. destruct (findL n kids) as [[j s'|]|] eqn:E;
      intros H; inversion H; subst.
    exists i, t, c, h, kids. split; [reflexivity|].
    destruct (proj2 (find_found n) _ _ E) as [_ Hid]. cbn in Hid.
    now subst j.
Qed.

Lemma foundL_in_ids a l x : findL a l = Some x -> In a (idsL l).
Proof.
  intros H. apply (proj2 (find_found a)) in H. destruct H as [Hin <-].
  rewrite (proj2 ids_subnodes). now apply in_map.
Qed.

Section Focus.

(** The body [body0] of a document and the one text node of identity [n]
    in it; what follows is about documents that differ from it in having
    a list [L] of nodes in the place of that text node. *)
Variables (i0 : nat) (t0 : jsstring) (c0 : list jsstring) (h0 : bool)
          (kids : list Node) (n : nat) (s : jsstring).
Let body0 := Element i0 t0 c0 h0 kids.
Hypothesis Hnd : NoDup (ids body0).
Hypothesis Hfind : findL n kids = Some (TextNode n s).

Lemma focus_root : i0 <> n.
Proof.
  intros ->. inversion Hnd as [|? ? Hnin _]; subst. apply Hnin.
  eapply foundL_in_ids; eauto.
Qed.

Lemma focus_kids : NoDup (idsL kids).
Proof. now inversion Hnd. Qed.

Lemma focus_ext f : substNode n f body0
  = substNode n (fun _ => f (TextNode n s)) body0.
Proof.
  apply (proj1 (subst_ext n f (fun _ => f (TextNode n s)))).
  intros x Hx Hid. f_equal. cbn [subnodes body0] in Hx.
  destruct Hx as [<-|Hx].
  - cbn in Hid. now destruct focus_root.
  - apply (unique_node kids); auto using focus_kids.
    now apply (proj2 (find_found n) kids).
Qed.

Lemma focus_find b L k :
  b = n \/ ~ In b (ids body0) ->
  findDesc b (mkDoc (substNode n (fun _ => L) body0) k) = findL b L.
Proof.
  intros Hb. unfold findDesc. cbn [body body0 substNode children].
  apply (proj2 (find_subst n L b (TextNode n s)));
    auto using focus_kids.
  destruct Hb as [Hb|Hb]; [now left | right].
  intros Hin. apply Hb. cbn [ids body0]. now right.
Qed.

Lemma focus_subst b g L :
  ~ In b (ids body0) ->
  substNode b g (substNode n (fun _ => L) body0)
  = substNode n (fun _ => substL b g L) body0.
Proof.
  intros Hb. apply (proj1 (subst_subst n (fun _ => L) b g)). exact Hb.
Qed.

Lemma focus_ids L extra :
  idsL L = n :: extra -> Permutation (ids (substNode n (fun _ => L) body0))
              (extra ++ ids body0).
Proof.
  intros HL.
  apply (proj1 (@ids_subst n L extra (TextNode n s) eq_refl HL)); auto.
  - cbn. apply focus_root.
  - unfold body0. rewrite findNode_element.
    replace (i0 =? n)%nat with false
      by (symmetry; apply Nat.eqb_neq, focus_root).
    exact Hfind.
Qed.

Lemma focus_parent b L extra k p :
  idsL L = n :: extra ->
  parentOf b (mkDoc (substNode n (fun _ => L) body0) k) = Some p ->
  In b extra \/ In b (ids body0).
Proof.
  intros HL Hp. unfold parentOf in Hp. cbn [body] in Hp.
  apply (proj1 (parentIn_in_ids b)) in Hp.
  apply (Permutation_in _ (focus_ids L extra HL)) in Hp.
  now apply in_app_or.
Qed.

Lemma focus_sameText L :
  sameText L (TextNode n s) ->
  canonL (children (substNode n (fun _ => L) body0))
  = canonL (children body0)
  /\ textContent (substNode n (fun _ => L) body0) = textContent body0.
Proof.
  intros HL.
  destruct (proj2 (canon_subst n (fun _ => L)) kids) as [H1 H2].
  { intros x Hx Hid.
    replace x with (TextNode n s); [exact HL|].
    apply (unique_node kids); auto using focus_kids.
    now apply (proj2 (find_found n) kids). }
  split; [apply H1 | exact H2].
Qed.

Lemma focus_unique x :
  In x (descL kids) -> nodeId x = n -> x = TextNode n s.
Proof.
  intros Hx Hid. apply (unique_node kids); auto using focus_kids.
  now apply (proj2 (find_found n) kids).
Qed.

Lemma focus_other b L k :
  b <> n -> ~ In b (idsL L) ->
  findText b (mkDoc (substNode n (fun _ => L) body0) k)
  = findText b (mkDoc body0 k).
Proof.
  intros Hb HL. unfold findText, findDesc. cbn [body].
  change (children (substNode n (fun _ => L) body0))
    with (substL n (fun _ => L) kids).
  rewrite (proj2 (find_subst_other n s L b Hb HL) kids focus_unique).
  cbn [children body0].
  destruct (findL b kids) as [[j t|j t c h l]|]; reflexivity.
Qed.

Lemma focus_siblings b L :
  existsb (fun k => (nodeId k =? n)%nat) L = true ->
  existsb (fun k => (nodeId k =? b)%nat) L = true ->
  parentInL n L = None -> parentInL b L = None ->
  ~ In b (ids body0) ->
  parentIn b (substNode n (fun _ => L) body0)
  = parentIn n (substNode n (fun _ => L) body0).
Proof.
  intros H1 H2 H3 H4 Hb.
  now apply (proj1 (parent_of_siblings n L b H1 H2 H3 H4)).
Qed.

End Focus.

Lemma fresh_not_in k l b :
  Forall (fun i => (i < k)%nat) l -> (k <= b)%nat -> ~ In b l.
Proof.
  intros Hl Hb Hin. rewrite Forall_forall in Hl. apply Hl in Hin. lia.
Qed.

Lemma sameText_split n s a b :
  a ++ b = s ->
  forall pre, sameText [TextNode n a; TextNode pre b] (TextNode n s).
Proof.
  intros <- pre. split.
  - intros acc. cbn [fold_right canonKid]. apply joinShape_app.
  - cbn. now rewrite app_nil_r.
Qed.

Lemma sameText_split3 n s a b c :
  a ++ b ++ c = s ->
  forall pre h,
    sameText [TextNode n a; TextNode pre b; TextNode h c] (TextNode n s).
Proof.
  intros <- pre h. split.
  - intros acc. cbn [fold_right canonKid].
    now rewrite !joinShape_app, <- ?app_assoc.
  - cbn. now rewrite app_nil_r.
Qed.

Lemma sameText_marked n s a b c :
  a ++ b ++ c = s ->
  forall sp cl h,
    sameText [TextNode n a;
              Element sp (u16 "SPAN") [u16 "highlight"] false [TextNode cl b];
              TextNode h c] (TextNode n s).
Proof.
  intros <- sp cl h. split.
  - intros acc. cbn [fold_right canonKid].
    change (isHighlight (Element sp (u16 "SPAN") [u16 "highlight"] false
                           [TextNode cl b])) with true.
    cbn [textContent flat_map]. rewrite app_nil_r.
    now rewrite !joinShape_app, <- ?app_assoc.
  - cbn. now rewrite !app_nil_r.
Qed.

Lemma readsAs_refl d : wellFormed d -> readsAs d d.
Proof. intros H. repeat split; try reflexivity; apply H. Qed.

Lemma readsAs_trans d1 d2 d3 : readsAs d1 d2 -> readsAs d2 d3 -> readsAs d1 d3.
Proof.
  intros (_ & A1 & A2 & A3) (B0 & B1 & B2 & B3).
  repeat split; try apply B0; congruence.
Qed.

(** Wrapping one match keeps the document well formed, and keeps its text
    and what it reads as once markers are cleared and text is merged. *)
Lemma wrapMatch_sound n m d d' :
  wellFormed d ->
  wrapMatch n m d = (Ok tt, d') ->
  readsAs d d'.
Proof.
  unfold readsAs.
  intros [Hnd Hlt] H. unfold wrapMatch in H.
  apply bind_Ok in H. destruct H as (span & d1 & Hspan & H).
  unfold createSpanElement, bind, fresh, ret in Hspan.
  inversion Hspan; subst span d1; clear Hspan.
  apply bind_Ok in H. destruct H as (pre & d2 & Hpre & H).
  apply splitText_Ok in Hpre.
  destruct Hpre as (s & Hs & Hoff & -> & ->). cbn [body nextId] in *.
  destruct (findText_found _ _ _ Hs) as (i0 & t0 & c0 & h0 & kids & Hb & Hfind).
  cbn [body] in Hb. clear Hs.
  set (sp := nextId d) in *. rewrite Hb in *.
  assert (Hin : In n (ids (Element i0 t0 c0 h0 kids))).
  { cbn [ids]. right. eapply foundL_in_ids; eauto. }
  pose proof (focus_ext i0 t0 c0 h0 kids n s Hnd Hfind) as Hext.
  pose proof (focus_find i0 t0 c0 h0 kids n s Hnd Hfind) as Hlook.
  pose proof (focus_subst i0 t0 c0 h0 kids n) as Hsub.
  pose proof (focus_ids i0 t0 c0 h0 kids n s Hnd Hfind) as Hids.
  pose proof (focus_parent i0 t0 c0 h0 kids n s Hnd Hfind) as Hpar.
  pose proof (focus_sameText i0 t0 c0 h0 kids n s Hnd Hfind) as Hsame.
  remember (Element i0 t0 c0 h0 kids) as body0 eqn:Hb0.
  clear Hb0 Hfind Hb.
  assert (Hfresh : forall b, (sp <= b)%nat -> ~ In b (ids body0)).
  { intros b Hb'. eapply fresh_not_in; eauto. }
  assert (Hn : (n < sp)%nat).
  { rewrite Forall_forall in Hlt. now apply Hlt. }
  assert (Hfin : forall L extra,
             idsL L = n :: extra -> NoDup extra ->
             (forall i, In i extra -> (sp <= i < 4 + sp)%nat) ->
             sameText L (TextNode n s) ->
             d' = mkDoc (substNode n (fun _ => L) body0) (4 + sp) ->
             wellFormed d'
             /\ label (body d') = label body0
             /\ canonL (children (body d')) = canonL (children body0)
             /\ textContent (body d') = textContent body0).
  { intros L extra HL Hex Hrange HsT ->. cbn [body].
    split; [|split; [destruct body0; reflexivity | now apply Hsame]].
    split; cbn [body nextId].
    - eapply Permutation_NoDup; [apply Permutation_sym, (Hids L extra HL)|].
      apply NoDup_app; auto. intros i Hi. apply Hfresh. now apply Hrange.
    - apply Forall_forall. intros i Hi.
      apply (Permutation_in _ (Hids L extra HL)) in Hi.
      apply in_app_or in Hi. destruct Hi as [Hi|Hi].
      + apply Hrange in Hi. lia.
      + rewrite Forall_forall in Hlt. apply Hlt in Hi. lia. }
  assert (E1 : (n =? S sp)%nat = false) by (apply Nat.eqb_neq; lia).
  assert (E2 : (n =? S (S sp))%nat = false) by (apply Nat.eqb_neq; lia).
  assert (E3 : (n =? sp)%nat = false) by (apply Nat.eqb_neq; lia).
  assert (E4 : (S sp =? S (S sp))%nat = false) by (apply Nat.eqb_neq; lia).
  assert (E5 : (sp =? S (S sp))%nat = false) by (apply Nat.eqb_neq; lia).
  assert (E6 : (S (S (S sp)) =? S (S sp))%nat = false)
    by (apply Nat.eqb_neq; lia).
  assert (E7 : (S (S sp) =? sp)%nat = false) by (apply Nat.eqb_neq; lia).
  assert (E8 : (S (S (S sp)) =? sp)%nat = false) by (apply Nat.eqb_neq; lia).
  assert (E9 : (S (S sp) =? S sp)%nat = false) by (apply Nat.eqb_neq; lia).
  set (off := Z.to_nat (start m)) in *.
  set (cnt := Z.to_nat (end_ m - start m)) in *.
  (* the first split *)
  rewrite (Hext _) in H. cbn [splitAt] in H. fold off in H.
  (* the second split *)
  apply bind_Ok in H. destruct H as (hl & d3 & Hh & H).
  apply splitText_Ok in Hh. destruct Hh as (s1 & Hs1 & Hcnt & -> & ->).
  cbn [body nextId] in *.
  unfold findText in Hs1. rewrite Hlook in Hs1 by (right; apply Hfresh; lia).
  cbn [findL findNode nodeId] in Hs1. rewrite E1, Nat.eqb_refl in Hs1.
  injection Hs1 as <-.
  rewrite Hsub in H by (apply Hfresh; lia).
  cbn [substL flat_map nodeId substNode app] in H.
  rewrite E1, Nat.eqb_refl in H. cbn [splitAt app] in H. fold cnt in H.
  (* the clone *)
  apply bind_Ok in H. destruct H as (clone & d4 & Hc & H).
  unfold cloneNode in Hc.
  apply bind_Ok in Hc. destruct Hc as (s2 & d4' & Hs2 & Hc).
  apply readText_Ok in Hs2. destruct Hs2 as [Hs2 ->].
  unfold findText in Hs2. rewrite Hlook in Hs2 by (right; apply Hfresh; lia).
  cbn [findL findNode nodeId] in Hs2. rewrite E1, Nat.eqb_refl in Hs2.
  injection Hs2 as <-.
  unfold bind, fresh, ret in Hc. cbn [body nextId] in Hc.
  inversion Hc; subst clone d4; clear Hc.
  cbn [appendChild app nodeId] in H.
  assert (Hparts : firstn off s ++ firstn cnt (skipn off s)
                     ++ skipn cnt (skipn off s) = s).
  { now rewrite !firstn_skipn. }
  set (L3 := [TextNode n (firstn off s);
              TextNode (S sp) (firstn cnt (skipn off s));
              TextNode (S (S sp)) (skipn cnt (skipn off s))]) in *.
  set (mk := Element sp (u16 "SPAN") [u16 "highlight"] false
               [TextNode (S (S (S sp))) (firstn cnt (skipn off s))]) in *.
  set (L4 := [TextNode n (firstn off s); mk;
              TextNode (S (S sp)) (skipn cnt (skipn off s))]).
  assert (Hplain : d' = mkDoc (substNode n (fun _ => L3) body0) (4 + sp) ->
                   wellFormed d'
                   /\ label (body d') = label body0
                   /\ canonL (children (body d')) = canonL (children body0)
                   /\ textContent (body d') = textContent body0).
  { apply (Hfin L3 [S sp; S (S sp)]).
    - reflexivity.
    - repeat constructor; cbn; intuition lia.
    - cbn. intros i Hi. intuition lia.
    - now apply sameText_split3. }
  assert (Hmarked : d' = mkDoc (substNode n (fun _ => L4) body0) (4 + sp) ->
                    wellFormed d'
                    /\ label (body d') = label body0
                    /\ canonL (children (body d')) = canonL (children body0)
                    /\ textContent (body d') = textContent body0).
  { apply (Hfin L4 [sp; S (S (S sp)); S (S sp)]).
    - reflexivity.
    - repeat constructor; cbn; intuition lia.
    - cbn. intros i Hi. intuition lia.
    - now apply sameText_marked. }
  clear Hfin.
  (* the replacement *)
  apply bind_Ok in H. destruct H as ([] & d5 & Hrep & H).
  apply bind_Ok in H. destruct H as (rest & d6 & Hrest & H).
  apply readText_Ok in Hrest. destruct Hrest as [Hrest ->].
  unfold replaceChildOfParent in Hrep.
  destruct (parentOf n _) as [p|] eqn:Ep.
  - (* [pre] is replaced by the marker *)
    destruct (parentOf (S sp) _) as [p'|]; [|discriminate].
    destruct (p =? p')%nat; [|discriminate].
    injection Hrep as <-. unfold updateChildren in *. cbn [body nextId] in *.
    rewrite Hsub in * by (apply Hfresh; lia).
    cbn [L3 substL flat_map nodeId substNode app] in *.
    rewrite ?E1, ?E2, ?E9, ?Nat.eqb_refl in *. cbn [app] in *.
    fold L4 in H, Hrest. unfold ret in H.
    destruct rest as [|r0 rest].
    + injection H as <-. now apply Hmarked.
    + unfold after in H. destruct (parentOf sp _); [|injection H as <-;
                                                       now apply Hmarked].
      unfold findText in Hrest.
      destruct (findDesc (S (S sp)) _) as [x|] eqn:Ex; [|discriminate].
      rewrite Hlook in Ex by (right; apply Hfresh; lia).
      cbn [L4 mk findL findNode nodeId] in Ex.
      rewrite E2, E5, E6, Nat.eqb_refl in Ex. injection Ex as <-.
      injection H as <-. apply Hmarked.
      unfold updateChildren. cbn [body nextId].
      rewrite !Hsub by (apply Hfresh; lia). f_equal.
      cbn [L4 mk substL flat_map nodeId substNode app].
      rewrite ?E2, ?E3, ?E5, ?E6, ?E7, ?E8, ?Nat.eqb_refl. cbn [app].
      cbn [flat_map nodeId substNode app].
      rewrite ?E2, ?E3, ?E5, ?E6, ?E7, ?E8, ?Nat.eqb_refl. reflexivity.
  - (* no parent: nothing is replaced *)
    injection Hrep as <-. unfold ret in H.
    destruct rest as [|r0 rest].
    + injection H as <-. now apply Hplain.
    + unfold after in H.
      destruct (parentOf sp _) as [q|] eqn:Eq;
        [|injection H as <-; now apply Hplain].
      exfalso.
      destruct (Hpar sp L3 [S sp; S (S sp)] _ q eq_refl Eq) as [Hi|Hi].
      * cbn in Hi. intuition lia.
      * revert Hi. apply Hfresh. lia.
Qed.

(** *** The whole pass *)

Lemma forEach_wrapMatch_sound n ms :
  forall d d', wellFormed d ->
    forEach (wrapMatch n) ms d = (Ok tt, d') -> readsAs d d'.
Proof.
  induction ms as [|m ms IH]; intros d d' Hwf H.
  - cbn in H. injection H as <-. now apply readsAs_refl.
  - cbn [forEach] in H. apply bind_Ok in H.
    destruct H as ([] & d1 & H1 & H2).
    pose proof (wrapMatch_sound _ _ _ _ Hwf H1) as R1.
    eapply readsAs_trans; [exact R1|]. apply IH; [apply R1 | exact H2].
Qed.

Lemma spliceEntries_sound texts :
  forall pending d d', wellFormed d ->
    spliceEntries texts pending d = (Ok tt, d') -> readsAs d d'.
Proof.
  induction texts as [|entry texts IH]; intros pending d d' Hwf H.
  - cbn in H. injection H as <-. now apply readsAs_refl.
  - cbn [spliceEntries] in H. apply bind_Ok in H.
    destruct H as (nodeContent & d1 & H1 & H2).
    apply readText_Ok in H1. destruct H1 as [_ ->].
    destruct (collectNodeMatches entry (len nodeContent) pending)
      as [nodeMatches pending'].
    apply bind_Ok in H2. destruct H2 as ([] & d2 & H2 & H3).
    pose proof (forEach_wrapMatch_sound _ _ _ _ Hwf H2) as R1.
    eapply readsAs_trans; [exact R1|]. eapply IH; [apply R1 | exact H3].
Qed.

Lemma removeL_textContent l :
  forall k, flat_map textContent (fst (removeL l k)) = flat_map textContent l.
Proof.
  induction l as [|x r IH]; intros k; [reflexivity|].
  rewrite removeL_cons. cbn [fst flat_map].
  rewrite removeNode_textContent, IH. reflexivity.
Qed.

Lemma removeHighlights_textContent d :
  textContent (body (removeHighlights d)) = textContent (body d).
Proof.
  unfold removeHighlights. destruct (body d) as [i s|i t c h l] eqn:E.
  - now rewrite E.
  - pose proof (removeL_textContent l (nextId d)) as H.
    destruct (removeL l (nextId d)) as [l' k]. exact H.
Qed.

(** Clearing and then normalizing gives the shape [canonL] computes. *)
Lemma erase_normalize_removeHighlights d :
  erase (normalize (body (removeHighlights d)))
  = match body d with
    | TextNode _ s => SText s
    | Element _ t c h l => SElem t c h (canonL l)
    end.
Proof.
  unfold removeHighlights. destruct (body d) as [i s|i t c h l] eqn:E.
  - now rewrite E.
  - pose proof (canon_clear_normalize l (nextId d)) as H.
    destruct (removeL l (nextId d)) as [l' k]. cbn [body fst] in *.
    rewrite normalize_element. cbn [erase]. now rewrite H.
Qed.

Lemma removeHighlights_unmarked d : markers d = [] -> removeHighlights d = d.
Proof.
  unfold markers, removeHighlights. destruct d as [[i s|i t c h l] k];
    cbn [body nextId children]; intros H; [reflexivity|].
  now rewrite (removeL_unmarked l H k).
Qed.

(** Clearing keeps identities unique: the nodes that stay keep theirs and
    every new text node takes a fresh one. *)
Lemma removeHighlights_ids :
  (forall n k,
      (k <= snd (removeNode n k))%nat
      /\ (forall i, In i (ids (fst (removeNode n k))) ->
                    In i (ids n) \/ (k <= i < snd (removeNode n k))%nat)
      /\ (NoDup (ids n) -> Forall (fun i => (i < k)%nat) (ids n) ->
          NoDup (ids (fst (removeNode n k)))))
  /\ (forall l k,
         (k <= snd (removeL l k))%nat
         /\ (forall i, In i (idsL (fst (removeL l k))) ->
                       In i (idsL l) \/ (k <= i < snd (removeL l k))%nat)
         /\ (NoDup (idsL l) -> Forall (fun i => (i < k)%nat) (idsL l) ->
             NoDup (idsL (fst (removeL l k))))).
Proof.
  apply Node_list_ind.
  - intros i s k. cbn. repeat split; auto.
  - intros i t c h l IH k.
    destruct (isHighlight (Element i t c h l)) eqn:E.
    + rewrite removeNode_marker by exact E. cbn [fst snd ids].
      repeat split; [lia | | repeat constructor; intros []].
      intros j [<-|[]]. right. lia.
    + rewrite removeNode_element by exact E. cbn [fst snd ids].
      destruct (IH k) as (H1 & H2 & H3). fold (idsL l).
      fold (idsL (fst (removeL l k))).
      split; [exact H1|]. split.
      * intros j [<-|Hj]; [left; now left|].
        destruct (H2 _ Hj); [left; now right | now right].
      * intros Hnd Hlt. inversion Hnd as [|? ? Hi Hnd']; subst.
        inversion Hlt as [|? ? Hik Hlt']; subst.
        constructor; [|now apply H3].
        intros Hj. destruct (H2 _ Hj); [contradiction | lia].
  - intros k. cbn. repeat split; auto; constructor.
  - intros x r Hx Hr k. rewrite removeL_cons. cbn [fst snd].
    destruct (Hx k) as (X1 & X2 & X3).
    destruct (Hr (snd (removeNode x k))) as (R1 & R2 & R3).
    set (k1 := snd (removeNode x k)) in *.
    set (k2 := snd (removeL r k1)) in *.
    change (idsL (?a :: ?b)) with (ids a ++ idsL b).
    split; [lia|]. split.
    + intros j Hj. apply in_app_or in Hj. destruct Hj as [Hj|Hj].
      * destruct (X2 _ Hj); [left; apply in_or_app; now left | right; lia].
      * destruct (R2 _ Hj); [left; apply in_or_app; now right | right; lia].
    + intros Hnd Hlt. apply Forall_app in Hlt. destruct Hlt as [Lx Lr].
      apply NoDup_app.
      * apply X3; [eapply NoDup_app_remove_r; eauto | exact Lx].
      * apply R3; [eapply NoDup_app_remove_l; eauto|].
        eapply Forall_impl; [|exact Lr]. cbn. intros; lia.
      * intros j Hjx Hjr. rewrite Forall_forall in Lx, Lr.
        destruct (X2 _ Hjx) as [Ox|Fx], (R2 _ Hjr) as [Or|Fr].
        -- exact (NoDup_app_disjoint _ _ _ Hnd Ox Or).
        -- apply Lx in Ox. lia.
        -- apply Lr in Or. lia.
        -- lia.
Qed.

Lemma removeHighlights_wellFormed d :
  wellFormed d -> wellFormed (removeHighlights d).
Proof.
  intros [Hnd Hlt]. unfold removeHighlights.
  destruct d as [[i s|i t c h l] k]; cbn [body nextId] in *;
    [split; assumption|].
  destruct (proj2 removeHighlights_ids l k) as (H1 & H2 & H3).
  destruct (removeL l k) as [l' k']. cbn [fst snd] in *.
  inversion Hnd as [|? ? Hi Hnd']; subst.
  inversion Hlt as [|? ? Hik Hlt']; subst.
  split; cbn [body nextId ids].
  - constructor; [|now apply H3].
    intros Hj. destruct (H2 _ Hj); [contradiction | lia].
  - constructor; [lia|]. apply Forall_forall. intros j Hj.
    destruct (H2 _ Hj) as [Ho|Hf]; [|lia].
    rewrite Forall_forall in Hlt'. apply Hlt' in Ho. lia.
Qed.

(** *** Completion of one wrapped match *)

Lemma bind_run {A B} (m : M A) (f : A -> M B) d a d1 :
  m d = (Ok a, d1) -> bind m f d = f a d1.
Proof. intros H. unfold bind. now rewrite H. Qed.

Lemma readText_run n d s :
  findText n d = Some s -> readText n d = (Ok s, d).
Proof. intros H. unfold readText. now rewrite H. Qed.

Lemma splitText_run n offset d s :
  findText n d = Some s -> 0 <= offset <= len s ->
  splitText n offset d
  = (Ok (nextId d),
     mkDoc (substNode n (splitAt offset (nextId d)) (body d))
           (S (nextId d))).
Proof.
  intros Hs Ho. unfold splitText.
  rewrite (bind_run _ _ _ _ _ (readText_run _ _ _ Hs)).
  replace ((offset <? 0) || (len s <? offset)) with false
    by (symmetry; apply orb_false_iff; split; lia).
  reflexivity.
Qed.

Lemma cloneNode_run n d s :
  findText n d = Some s ->
  cloneNode n d = (Ok (TextNode (nextId d) s), mkDoc (body d) (S (nextId d))).
Proof.
  intros Hs. unfold cloneNode.
  rewrite (bind_run _ _ _ _ _ (readText_run _ _ _ Hs)). reflexivity.
Qed.

Lemma findText_body n b k k' : findText n (mkDoc b k) = findText n (mkDoc b k').
Proof. reflexivity. Qed.

(** A match that lies inside the text of its node is wrapped without an
    exception: the node keeps the text before the match, and every other
    text node of the document keeps its text. *)
Lemma wrapMatch_completes n m d s :
  wellFormed d ->
  findText n d = Some s ->
  0 <= start m <= end_ m -> end_ m <= len s ->
  exists d',
    wrapMatch n m d = (Ok tt, d')
    /\ findText n d' = Some (firstn (Z.to_nat (start m)) s)
    /\ (forall n' s', n' <> n -> findText n' d = Some s' ->
                      findText n' d' = Some s').
Proof.
  intros [Hnd Hlt] Hs Hm1 Hm2.
  destruct (findText_found _ _ _ Hs) as (i0 & t0 & c0 & h0 & kids & Hb & Hfind).
  destruct d as [bd sp]. cbn [body nextId] in *. subst bd.
  assert (Hin : In n (ids (Element i0 t0 c0 h0 kids))).
  { cbn [ids]. right. eapply foundL_in_ids; eauto. }
  pose proof (focus_ext i0 t0 c0 h0 kids n s Hnd Hfind) as Hext.
  pose proof (focus_find i0 t0 c0 h0 kids n s Hnd Hfind) as Hlook.
  pose proof (focus_subst i0 t0 c0 h0 kids n) as Hsub.
  pose proof (focus_parent i0 t0 c0 h0 kids n s Hnd Hfind) as Hpar.
  pose proof (focus_other i0 t0 c0 h0 kids n s Hnd Hfind) as Hoth.
  pose proof (focus_siblings i0 t0 c0 h0 kids n) as Hsib.
  assert (Hold : forall n' s', findText n' (mkDoc (Element i0 t0 c0 h0 kids) sp)
                               = Some s' -> (n' < sp)%nat).
  { intros n' s' H. apply findText_found in H.
    destruct H as (i1 & t1 & c1 & h1 & kids1 & E & H). cbn [body] in E.
    injection E as <- <- <- <- <-.
    rewrite Forall_forall in Hlt. apply Hlt. cbn [ids]. right.
    eapply foundL_in_ids; eauto. }
  remember (Element i0 t0 c0 h0 kids) as body0 eqn:Hb0.
  clear Hb0 Hfind.
  assert (Hfresh : forall b, (sp <= b)%nat -> ~ In b (ids body0)).
  { intros b Hb'. eapply fresh_not_in; eauto. }
  assert (Hn : (n < sp)%nat).
  { rewrite Forall_forall in Hlt. now apply Hlt. }
  assert (E1 : (n =? S sp)%nat = false) by (apply Nat.eqb_neq; lia).
  assert (E2 : (n =? S (S sp))%nat = false) by (apply Nat.eqb_neq; lia).
  assert (E3 : (n =? sp)%nat = false) by (apply Nat.eqb_neq; lia).
  assert (E4 : (S sp =? S (S sp))%nat = false) by (apply Nat.eqb_neq; lia).
  assert (E5 : (sp =? S (S sp))%nat = false) by (apply Nat.eqb_neq; lia).
  assert (E6 : (S (S (S sp)) =? S (S sp))%nat = false)
    by (apply Nat.eqb_neq; lia).
  assert (E7 : (S (S sp) =? sp)%nat = false) by (apply Nat.eqb_neq; lia).
  assert (E8 : (S (S (S sp)) =? sp)%nat = false) by (apply Nat.eqb_neq; lia).
  assert (E9 : (S (S sp) =? S sp)%nat = false) by (apply Nat.eqb_neq; lia).
  assert (E10 : (S sp =? n)%nat = false) by (apply Nat.eqb_neq; lia).
  set (off := Z.to_nat (start m)) in *.
  set (cnt := Z.to_nat (end_ m - start m)) in *.
  set (L3 := [TextNode n (firstn off s);
              TextNode (S sp) (firstn cnt (skipn off s));
              TextNode (S (S sp)) (skipn cnt (skipn off s))]).
  set (mk := Element sp (u16 "SPAN") [u16 "highlight"] false
               [TextNode (S (S (S sp))) (firstn cnt (skipn off s))]).
  set (L4 := [TextNode n (firstn off s); mk;
              TextNode (S (S sp)) (skipn cnt (skipn off s))]).
  (* what holds of both documents the call can end in *)
  assert (Hpost : forall L,
             findL n L = Some (TextNode n (firstn off s)) ->
             (forall b, In b (idsL L) -> b = n \/ (sp <= b)%nat) ->
             findText n (mkDoc (substNode n (fun _ => L) body0) (4 + sp))
             = Some (firstn off s)
             /\ (forall n' s', n' <> n ->
                   findText n' (mkDoc body0 sp) = Some s' ->
                   findText n'
                     (mkDoc (substNode n (fun _ => L) body0) (4 + sp))
                   = Some s')).
  { intros L HL Hids. split.
    - unfold findText. rewrite Hlook by now left. now rewrite HL.
    - intros n' s' Hne H. rewrite Hoth; [exact H | exact Hne |].
      intros Hb. apply Hids in Hb. apply Hold in H. lia. }
  assert (Hlen : len (skipn off s) = len s - start m).
  { unfold len, off. rewrite length_skipn. unfold len in *. lia. }
  unfold wrapMatch.
  erewrite bind_run by reflexivity.
  erewrite bind_run by (apply (splitText_run _ _ _ s); [exact Hs | lia]).
  cbn [body nextId]. rewrite (Hext _). cbn [splitAt]. fold off.
  erewrite bind_run.
  2:{ apply (splitText_run _ _ _ (skipn off s)); [|lia].
      unfold findText. rewrite Hlook by (right; apply Hfresh; lia).
      cbn [findL findNode nodeId]. now rewrite E1, Nat.eqb_refl. }
  cbn [body nextId]. rewrite Hsub by (apply Hfresh; lia).
  cbn [substL flat_map nodeId substNode app].
  rewrite E1, Nat.eqb_refl. cbn [splitAt app]. fold cnt. fold L3.
  erewrite bind_run.
  2:{ apply (cloneNode_run _ _ (firstn cnt (skipn off s))).
      unfold findText. rewrite Hlook by (right; apply Hfresh; lia).
      cbn [L3 findL findNode nodeId]. now rewrite E1, Nat.eqb_refl. }
  cbn [body nextId appendChild app nodeId]. fold mk.
  assert (Hp3 : forall L, In L [L3; L4] ->
             findL n L = Some (TextNode n (firstn off s))
             /\ (forall b, In b (idsL L) -> b = n \/ (sp <= b)%nat)).
  { intros L [<-|[<-|[]]]; (split;
      [cbn [L3 L4 findL findNode nodeId]; now rewrite Nat.eqb_refl
      |cbn; intros b Hb; intuition lia]). }
  assert (Hend : forall L, In L [L3; L4] ->
             exists d',
               (Ok tt, mkDoc (substNode n (fun _ => L) body0) (4 + sp))
               = (Ok tt, d')
               /\ findText n d' = Some (firstn off s)
               /\ (forall n' s', n' <> n ->
                     findText n' (mkDoc body0 sp) = Some s' ->
                     findText n' d' = Some s')).
  { intros L HL. eexists. split; [reflexivity|].
    destruct (Hp3 L HL) as [H1 H2]. now apply Hpost. }
  assert (Hh3 : findText (S (S sp))
                  (mkDoc (substNode n (fun _ => L3) body0) (4 + sp))
                = Some (skipn cnt (skipn off s))).
  { unfold findText. rewrite Hlook by (right; apply Hfresh; lia).
    cbn [L3 findL findNode nodeId]. now rewrite E2, E4, Nat.eqb_refl. }
  assert (Hh4 : findDesc (S (S sp))
                  (mkDoc (substNode n (fun _ => L4) body0) (4 + sp))
                = Some (TextNode (S (S sp)) (skipn cnt (skipn off s)))).
  { rewrite Hlook by (right; apply Hfresh; lia).
    cbn [L4 mk findL findNode nodeId].
    now rewrite E2, E5, E6, Nat.eqb_refl. }
  unfold replaceChildOfParent at 1. unfold bind at 1.
  destruct (parentOf n _) as [p|] eqn:Ep.
  - (* [pre] is replaced by the marker *)
    unfold parentOf in *. cbn [body] in *.
    rewrite Hsib, Ep, Nat.eqb_refl;
      [ | cbn [L3 existsb nodeId]; now rewrite Nat.eqb_refl
        | cbn [L3 existsb nodeId]; now rewrite E1, Nat.eqb_refl
        | reflexivity | reflexivity | apply Hfresh; lia].
    unfold updateChildren. cbn [body nextId].
    rewrite Hsub by (apply Hfresh; lia).
    cbn [L3 substL flat_map nodeId substNode app].
    rewrite E1, E9, Nat.eqb_refl. cbn [app]. fold L4.
    unfold bind at 1, readText at 1. unfold findText at 1.
    change (S (S (S (S sp)))) with (4 + sp)%nat. rewrite Hh4.
    destruct (skipn cnt (skipn off s)) as [|r0 rest] eqn:Erest.
    + apply Hend. right. now left.
    + unfold after.
      destruct (parentOf sp _); [|apply Hend; right; now left].
      rewrite Hh4. unfold updateChildren. cbn [body nextId].
      rewrite !Hsub by (apply Hfresh; lia).
      cbn [L4 mk substL flat_map nodeId substNode app].
      rewrite ?E2, ?E3, ?E5, ?E6, ?E7, ?E8, ?Nat.eqb_refl. cbn [app].
      cbn [flat_map nodeId substNode app].
      rewrite ?E2, ?E3, ?E5, ?E6, ?E7, ?E8, ?Nat.eqb_refl.
      fold mk. cbn [app]. fold L4.
      apply (Hend L4). right. now left.
  - (* no parent: nothing is replaced *)
    unfold bind at 1, readText at 1.
    change (S (S (S (S sp)))) with (4 + sp)%nat. rewrite Hh3.
    destruct (skipn cnt (skipn off s)) as [|r0 rest] eqn:Erest.
    + apply Hend. now left.
    + unfold after.
      destruct (parentOf sp _) as [q|] eqn:Eq; [|apply Hend; now left].
      exfalso.
      destruct (Hpar sp L3 [S sp; S (S sp)] _ q eq_refl Eq) as [Hi|Hi].
      * cbn in Hi. intuition lia.
      * revert Hi. apply Hfresh. lia.
Qed.

(** *** Completion of the pass *)

Lemma forEach_app_run {A} (f : A -> M unit) l1 l2 d d1 :
  forEach f l1 d = (Ok tt, d1) ->
  forEach f (l1 ++ l2) d = forEach f l2 d1.
Proof.
  revert d. induction l1 as [|x l1 IH]; intros d H.
  - cbn in H. injection H as <-. reflexivity.
  - cbn [app forEach] in *. apply bind_Ok in H.
    destruct H as ([] & d2 & H1 & H2).
    rewrite (bind_run _ _ _ _ _ H1). now apply IH.
Qed.

Lemma len_firstn_le k s : 0 <= k <= len s -> len (firstn (Z.to_nat k) s) = k.
Proof. intros H. unfold len in *. rewrite length_firstn. lia. Qed.

(** The matches of one node are wrapped from the last to the first without
    an exception. *)
Lemma forEach_rev_completes n :
  forall ms lo d s,
    wellFormed d -> findText n d = Some s -> 0 <= lo ->
    chain lo ms (len s) ->
    exists d' s',
      forEach (wrapMatch n) (rev ms) d = (Ok tt, d')
      /\ wellFormed d'
      /\ findText n d' = Some s' /\ lo <= len s'
      /\ (forall n' t, n' <> n -> findText n' d = Some t ->
                       findText n' d' = Some t).
Proof.
  induction ms as [|m r IH]; intros lo d s Hwf Hs Hlo Hc.
  - exists d, s. cbn [rev forEach chain] in *.
    split; [reflexivity|]. split; [exact Hwf|]. split; [exact Hs|].
    split; [exact Hc|]. auto.
  - cbn [chain] in Hc. destruct Hc as [Hm Hc].
    destruct (IH (end_ m) d s Hwf Hs ltac:(lia) Hc)
      as (d1 & s1 & Hrun & Hwf1 & Hs1 & Hle & Hoth).
    destruct (wrapMatch_completes n m d1 s1 Hwf1 Hs1 ltac:(lia) Hle)
      as (d2 & Hw & Hs2 & Hoth2).
    exists d2, (firstn (Z.to_nat (start m)) s1).
    cbn [rev]. rewrite (forEach_app_run _ _ _ _ _ Hrun).
    cbn [forEach]. rewrite (bind_run _ _ _ _ _ Hw).
    split; [reflexivity|].
    split; [apply (wrapMatch_sound _ _ _ _ Hwf1 Hw)|].
    split; [exact Hs2|]. split; [rewrite len_firstn_le; lia|].
    intros n' t Hne Ht. apply Hoth2; [exact Hne|]. now apply Hoth.
Qed.

Lemma sortedMatches_tail m l : sortedMatches (m :: l) -> sortedMatches l.
Proof.
  intros [H1 H2]. inversion H1; subst. inversion H2; subst. now split.
Qed.

(** The loop that gathers the matches of one node gives local ranges that
    lie one after the other inside the node, and leaves sorted matches
    pending. *)
Lemma collectNodeMatches_chain entry contentLength :
  Entry.end_ entry = Entry.start entry + contentLength ->
  0 <= contentLength ->
  forall pending lo,
    sortedMatches pending ->
    lo <= contentLength ->
    Forall (fun m => lo <= Z.max 0 (start m - Entry.start entry)) pending ->
    chain lo (fst (collectNodeMatches entry contentLength pending))
          contentLength
    /\ sortedMatches (snd (collectNodeMatches entry contentLength pending)).
Proof.
  intros He Hlen. induction pending as [|m rest IH]; intros lo Hs Hlo Hall.
  - cbn. split; [exact Hlo | exact Hs].
  - cbn [collectNodeMatches].
    pose proof Hs as [Hs1 Hs2].
    inversion Hs1 as [|? ? Hm Hs1']; subst.
    inversion Hs2 as [|? ? Hmr Hs2']; subst.
    inversion Hall as [|? ? Hlo_m Hall']; subst.
    destruct ((Entry.start entry <=? start m)
              && (end_ m <=? Entry.end_ entry)) eqn:E1.
    + apply andb_true_iff in E1. destruct E1 as [Ea Eb].
      apply Z.leb_le in Ea, Eb.
      destruct (IH (Z.min contentLength (end_ m - Entry.start entry)))
        as [IH1 IH2].
      * now split.
      * lia.
      * rewrite Forall_forall in Hmr |- *. intros m' Hm'.
        specialize (Hmr m' Hm'). lia.
      * destruct (collectNodeMatches entry contentLength rest)
          as [nodeMatches pending'].
        cbn [fst snd localRange chain start end_] in *.
        split; [|exact IH2]. split; [lia | exact IH1].
    + destruct ((start m <? Entry.end_ entry)
                && (Entry.start entry <? end_ m)) eqn:E2.
      * apply andb_true_iff in E2. destruct E2 as [Ea Eb].
        apply Z.ltb_lt in Ea, Eb.
        cbn [fst snd localRange chain start end_]. split; [lia | exact Hs].
      * cbn [fst snd chain]. split; [exact Hlo | exact Hs].
Qed.

Lemma spliceEntries_completes :
  forall texts pending d,
    wellFormed d -> sortedMatches pending ->
    NoDup (map Entry.node texts) -> entriesIn texts d ->
    exists d', spliceEntries texts pending d = (Ok tt, d').
Proof.
  induction texts as [|entry texts IH]; intros pending d Hwf Hs Hnd He.
  - exists d. reflexivity.
  - inversion He as [|? ? (s & Hfind & Hend) He']; subst.
    cbn [map] in Hnd. inversion Hnd as [|? ? Hnin Hnd']; subst.
    cbn [spliceEntries].
    rewrite (bind_run _ _ _ _ _ (readText_run _ _ _ Hfind)).
    destruct (collectNodeMatches_chain entry (len s) Hend
                ltac:(unfold len; lia) pending 0 Hs ltac:(unfold len; lia))
      as [Hc Hs'].
    { apply Forall_forall. intros m _. lia. }
    destruct (collectNodeMatches entry (len s) pending)
      as [nodeMatches pending']. cbn [fst snd] in *.
    destruct (forEach_rev_completes (Entry.node entry) nodeMatches 0 d s
                Hwf Hfind ltac:(lia) Hc)
      as (d1 & s1 & Hrun & Hwf1 & _ & _ & Hoth).
    rewrite (bind_run _ _ _ _ _ Hrun).
    apply IH; auto.
    unfold entriesIn in *. rewrite Forall_forall in He' |- *.
    intros e Hin. destruct (He' e Hin) as (t & Ht & Hte).
    exists t. split; [|exact Hte]. apply Hoth; [|exact Ht].
    intros Heq. apply Hnin. rewrite <- Heq. now apply in_map.
Qed.

(** *** What the collector and the match engine hand to the splice engine *)

Lemma findMatches_sorted s q : sortedMatches (findMatches s q).
Proof.
  destruct q as [|c q']; [split; constructor|].
  assert (HL : LeftmostFirst s (c :: q') 0 (findMatches s (c :: q'))).
  { apply (findLoop_leftmost s c q' 0). lia. }
  split.
  - eapply Forall_impl; [|exact (LeftmostFirst_bounds _ _ _ _ HL)].
    cbn. unfold len. intros m. lia.
  - exact (LeftmostFirst_chain _ _ _ _ HL).
Qed.

Lemma sortedMatches_filter f l :
  sortedMatches l -> sortedMatches (filter f l).
Proof.
  intros [H1 H2]. split.
  - apply Forall_forall. intros m Hm. apply filter_In in Hm.
    rewrite Forall_forall in H1. now apply H1.
  - induction H2 as [|x l Hx Hl IH]; [constructor|].
    inversion H1; subst. cbn [filter].
    destruct (f x); [|now apply IH]. constructor; [|now apply IH].
    apply Forall_forall. intros m Hm. apply filter_In in Hm.
    rewrite Forall_forall in Hx. now apply Hx.
Qed.

(** Sorting leaves matches that are in order as they are. *)
Lemma sortByStart_sorted l : sortedMatches l -> sortByStart l = l.
Proof.
  induction l as [|m l IH]; intros Hs; [reflexivity|].
  unfold sortByStart in *. cbn [fold_right].
  rewrite (IH (sortedMatches_tail _ _ Hs)).
  destruct l as [|x l]; [reflexivity|]. cbn [insertByStart].
  destruct Hs as [H1 H2]. inversion H1; subst.
  inversion H2 as [|? ? Hx _]; subst.
  inversion Hx; subst.
  replace (start m <=? start x) with true by (symmetry; lia). reflexivity.
Qed.

Lemma walk_element options i t c h l :
  walk options (Element i t c h l)
  = walkKids options (Element i t c h l) l.
Proof. reflexivity. Qed.

(** The walker gives text nodes of the subtree, each once. *)
Lemma walk_nodes options :
  (forall r, (forall j s, In (j, s) (walk options r) ->
                          In (TextNode j s) (descL (children r)))
             /\ (NoDup (ids r) -> NoDup (map fst (walk options r))))
  /\ (forall l parent,
         (forall j s, In (j, s) (walkKids options parent l) ->
                      In (TextNode j s) (descL l))
         /\ (NoDup (idsL l) -> NoDup (map fst (walkKids options parent l)))).
Proof.
  apply Node_list_ind.
  - intros i s. split; [intros j t []|constructor].
  - intros i t c h l IH. rewrite walk_element. cbn [children ids].
    destruct (IH (Element i t c h l)) as [H1 H2].
    split; [exact H1|]. intros Hnd. apply H2. now inversion Hnd.
  - intros parent. split; [intros j s []|constructor].
  - intros k r Hk Hr parent. destruct (Hr parent) as [R1 R2].
    destruct Hk as [K1 K2].
    unfold walkKids, descL, idsL in *. cbn [flat_map].
    assert (Hhead : forall j s,
               In (j, s)
                  match k with
                  | TextNode j s =>
                      match acceptNode options (Some parent) s with
                      | FILTER_ACCEPT => [(j, s)]
                      | _ => []
                      end
                  | Element _ _ _ _ _ => walk options k
                  end -> In (TextNode j s) (subnodes k)).
    { intros j s Hin. destruct k as [j' s'|i t c h l].
      - destruct (acceptNode options (Some parent) s'); try contradiction.
        destruct Hin as [E|[]]. injection E as -> ->. now left.
      - cbn [subnodes]. right. now apply K1. }
    split.
    + intros j s Hin. apply in_app_or in Hin. apply in_or_app.
      destruct Hin as [Hin|Hin]; [left; now apply Hhead | right; now apply R1].
    + intros Hnd. rewrite map_app. apply NoDup_app.
      * destruct k as [j' s'|i t c h l].
        -- destruct (acceptNode options (Some parent) s');
             repeat constructor; intros [].
        -- apply K2. eapply NoDup_app_remove_r; eauto.
      * apply R2. eapply NoDup_app_remove_l; eauto.
      * intros j Hj1 Hj2.
        apply in_map_iff in Hj1. destruct Hj1 as ([j1 s1] & E1 & Hj1).
        apply in_map_iff in Hj2. destruct Hj2 as ([j2 s2] & E2 & Hj2).
        cbn in E1, E2. subst j1 j2.
        apply Hhead in Hj1. apply R1 in Hj2.
        apply (NoDup_app_disjoint _ _ j Hnd).
        -- rewrite (proj1 ids_subnodes).
           change j with (nodeId (TextNode j s1)). now apply in_map.
        -- fold (idsL r). rewrite (proj2 ids_subnodes).
           change j with (nodeId (TextNode j s2)). now apply in_map.
Qed.

Lemma subnodes_sub :
  (forall t r, In r (subnodes t) ->
               (forall x, In x (subnodes r) -> In x (subnodes t))
               /\ (NoDup (ids t) -> NoDup (ids r)))
  /\ (forall l r, In r (descL l) ->
                  (forall x, In x (subnodes r) -> In x (descL l))
                  /\ (NoDup (idsL l) -> NoDup (ids r))).
Proof.
  apply Node_list_ind.
  - intros i s r [<-|[]]. auto.
  - intros i t c h l IH r [<-|Hr]; [auto|].
    destruct (IH r Hr) as [H1 H2]. split.
    + intros x Hx. cbn [subnodes]. right. now apply H1.
    + intros Hnd. apply H2. now inversion Hnd.
  - intros r [].
  - intros k l Hk Hl r Hr. unfold descL, idsL in *. cbn [flat_map] in *.
    apply in_app_or in Hr. destruct Hr as [Hr|Hr].
    + destruct (Hk r Hr) as [H1 H2]. split.
      * intros x Hx. apply in_or_app. left. now apply H1.
      * intros Hnd. apply H2. eapply NoDup_app_remove_r; eauto.
    + destruct (Hl r Hr) as [H1 H2]. split.
      * intros x Hx. apply in_or_app. right. now apply H1.
      * intros Hnd. apply H2. eapply NoDup_app_remove_l; eauto.
Qed.

Lemma collect_entries d nodes :
  forall offset,
    map Entry.node (collect nodes offset) = map fst nodes
    /\ ((forall j s, In (j, s) nodes -> findText j d = Some s) ->
        entriesIn (collect nodes offset) d).
Proof.
  induction nodes as [|[j s] r IH]; intros offset.
  - split; [reflexivity | constructor].
  - destruct (IH (offset + len s)) as [IH1 IH2]. cbn [collect map fst].
    split; [now rewrite IH1|].
    intros H. constructor.
    + exists s. cbn. split; [apply H; now left | reflexivity].
    + apply IH2. intros j' s' Hin. apply H. now right.
Qed.

(** The entries of a collection pass are distinct text nodes of the
    document, each with the text the walker read. *)
Lemma getTextNodes_entriesIn root options d :
  wellFormed d ->
  let texts := fst (getTextNodes root options d) in
  NoDup (map Entry.node texts) /\ entriesIn texts d.
Proof.
  intros [Hnd _]. cbv zeta. unfold getTextNodes. cbn [fst].
  assert (Hw : NoDup (map fst (walked root options d))
               /\ forall j s, In (j, s) (walked root options d) ->
                              findText j d = Some s).
  { unfold walked. destruct (findNode root (body d)) as [r|] eqn:Er;
      [|split; [constructor | intros j s []]].
    apply (proj1 (find_found root)) in Er. destruct Er as [Hr _].
    destruct (proj1 subnodes_sub _ _ Hr) as [Hsub Hndr].
    destruct (proj1 (walk_nodes options) r) as [W1 W2].
    split; [now apply W2, Hndr|].
    intros j s Hin. apply W1 in Hin.
    destruct r as [ir sr|ir tr cr hr lr]; [destruct Hin|].
    cbn [children] in Hin.
    assert (Hx : In (TextNode j s) (subnodes (body d))).
    { apply Hsub. cbn [subnodes]. now right. }
    unfold findText, findDesc.
    destruct (body d) as [i0 s0|i0 t0 c0 h0 kids].
    - destruct Hr as [E|[]]. discriminate.
    - cbn [children subnodes ids] in *.
      destruct Hx as [E|Hx]; [discriminate|].
      assert (Hk : NoDup (idsL kids)) by now inversion Hnd.
      destruct (findL j kids) as [x|] eqn:Ef.
      + destruct (proj2 (find_found j) _ _ Ef) as [Hxin Hid].
        replace x with (TextNode j s)
          by (apply (unique_node kids); auto).
        reflexivity.
      + exfalso. apply (proj2 (find_present_id j) _ Ef).
        rewrite (proj2 ids_subnodes).
        change j with (nodeId (TextNode j s)). now apply in_map. }
  destruct Hw as [Hw1 Hw2].
  destruct (collect_entries d (walked root options d) 0) as [Hmap He].
  split; [now rewrite Hmap | now apply He].
Qed.

(** A call of [highlightNode] on a well-formed document raises no
    exception. *)
Lemma highlightNode_completes root selection p :
  wellFormed (document p) ->
  fst (highlightNode root selection p) = Ok tt.
Proof.
  intros Hwf. apply removeHighlights_wellFormed in Hwf.
  unfold highlightNode.
  destruct (negb (Js.eqb (getSelectedText selection) [])
            && negb (Js.eqb (getSelectedText selection)
                            (lastSelectedText p))); [|reflexivity].
  pose proof (getTextNodes_entriesIn root defaultOptions _ Hwf) as He.
  cbv zeta in He.
  destruct (getTextNodes root defaultOptions
              (removeHighlights (document p))) as [texts mergedText].
  cbn [fst] in He. destruct He as [Hnd He].
  destruct ((0 <? Z.of_nat (List.length texts))
            && negb (Js.eqb (getSelectedText selection) []));
    [|reflexivity].
  unfold highlightMatches.
  set (filtered := filter _ _).
  assert (Hs : sortedMatches filtered).
  { apply sortedMatches_filter, findMatches_sorted. }
  rewrite (sortByStart_sorted _ Hs).
  destruct (spliceEntries_completes texts filtered _ Hwf Hs Hnd He)
    as [d' Hd]. now rewrite Hd.
Qed.

Lemma highlightMatches_readsAs texts matches d d' :
  wellFormed d ->
  highlightMatches texts matches d = (Ok tt, d') -> readsAs d d'.
Proof. intros Hwf H. exact (spliceEntries_sound _ _ _ _ Hwf H). Qed.

(** What reads the same is the same once cleared and normalized. *)
Lemma readsAs_round_trip d d' :
  readsAs d d' ->
  erase (normalize (body (removeHighlights d')))
  = erase (normalize (body (removeHighlights d))).
Proof.
  intros (_ & Hl & Hc & _). rewrite !erase_normalize_removeHighlights.
  destruct (body d) as [i s|i t c h l], (body d') as [i' s'|i' t' c' h' l'];
    cbn [label children] in *; try discriminate.
  - now injection Hl as -> ->.
  - injection Hl as -> -> -> ->. now rewrite Hc.
Qed.

(** The same through the controller: a call of [highlightNode] that
    completes leaves a well-formed document that reads as the cleared
    document it started its pass from. *)
Lemma highlightNode_readsAs root selection p :
  wellFormed (document p) ->
  fst (highlightNode root selection p) = Ok tt ->
  readsAs (removeHighlights (document p))
          (document (snd (highlightNode root selection p))).
Proof.
  intros Hwf. apply removeHighlights_wellFormed in Hwf.
  unfold highlightNode.
  destruct (negb (Js.eqb (getSelectedText selection) [])
            && negb (Js.eqb (getSelectedText selection)
                            (lastSelectedText p)));
    [|intros _; now apply readsAs_refl].
  destruct (getTextNodes root defaultOptions
              (removeHighlights (document p))) as [texts mergedText].
  destruct ((0 <? Z.of_nat (List.length texts))
            && negb (Js.eqb (getSelectedText selection) []));
    [|intros _; now apply readsAs_refl].
  destruct (highlightMatches texts _ (removeHighlights (document p)))
    as [[[]|e] d'] eqn:E; [|discriminate].
  intros _. cbn [snd document].
  exact (highlightMatches_readsAs _ _ _ _ Hwf E).
Qed.

(** Every call of [highlightNode] on a well-formed document completes,
    leaves a well-formed document, and can be undone: clearing and
    normalizing the result gives what clearing and normalizing the document
    of before the call gives, and the text is unchanged. *)
Lemma highlightNode_round_trip root selection p :
  wellFormed (document p) ->
  let r := highlightNode root selection p in
  fst r = Ok tt
  /\ wellFormed (document (snd r))
  /\ erase (normalize (body (removeHighlights (document (snd r)))))
     = erase (normalize (body (removeHighlights (document p))))
  /\ textContent (body (document (snd r))) = textContent (body (document p)).
Proof.
  intros Hwf r.
  pose proof (highlightNode_completes root selection p Hwf) as Hok.
  pose proof (highlightNode_readsAs root selection p Hwf Hok) as Hr.
  fold r in Hok, Hr. split; [exact Hok|]. split; [apply Hr|]. split.
  - rewrite (readsAs_round_trip _ _ Hr).
    now rewrite (removeHighlights_unmarked _ (removeHighlights_no_markers _)).
  - destruct Hr as (_ & _ & _ & Ht). rewrite Ht.
    apply removeHighlights_textContent.
Qed.

(** C7. For every well-formed document and every pass of
    [highlightMatches] that completes, clearing the markers restores the
    content of before the pass: after normalization the cleared document is
    the document of before the pass (cleared, which changes nothing when it
    has no markers, as at the point where [highlightNode] starts a pass), up
    to the identity of the nodes, so text leaf by text leaf; when the
    document of before the pass was normalized, every leaf of it is back
    with its text; and the text of the document is what it was, with the
    markers in and after they are cleared. *)
Theorem highlight_pass_round_trip texts matches d d' :
  wellFormed d ->
  highlightMatches texts matches d = (Ok tt, d') ->
  erase (normalize (body (removeHighlights d')))
  = erase (normalize (body (removeHighlights d)))
  /\ (markers d = [] ->
      erase (normalize (body (removeHighlights d')))
      = erase (normalize (body d)))
  /\ (markers d = [] -> normalize (body d) = body d ->
      erase (normalize (body (removeHighlights d'))) = erase (body d))
  /\ textContent (body (removeHighlights d')) = textContent (body d)
  /\ textContent (body d') = textContent (body d)
  /\ markers (removeHighlights d') = [].
Proof.
  intros Hwf H.
  pose proof (highlightMatches_readsAs _ _ _ _ Hwf H) as Hr.
  pose proof (readsAs_round_trip _ _ Hr) as Hgen.
  destruct Hr as (_ & _ & _ & Ht).
  split; [exact Hgen|]. split; [|split; [|split; [|split]]].
  - intros Hm. rewrite Hgen. now rewrite removeHighlights_unmarked.
  - intros Hm Hn. rewrite Hgen, removeHighlights_unmarked by exact Hm.
    now rewrite Hn.
  - now rewrite removeHighlights_textContent.
  - exact Ht.
  - apply removeHighlights_no_markers.
Qed.

(** ** Instances *)

Lemma isInSelection_mapped_selection_witness :
  ~ In (mkMatch 0 2)
       (filter
          (fun m =>
             negb (isInSelection m
                     (fst (getTextNodes 0 defaultOptions (document twice)))
                     (selectIn 2 0 2 "ab")))
          [mkMatch 0 2; mkMatch 6 8]).
Proof.
  refine (proj2 (isInSelection_mapped_selection
                   0 defaultOptions (document twice)
                   (mkSelection (u16 "ab") [mkRange 2 0 2 2])
                   (mkRange 2 0 2 2) [] (Entry.mk 2 0 8) (Entry.mk 2 0 8)
                   (mkMatch 0 2) [mkMatch 0 2; mkMatch 6 8]
                   eq_refl eq_refl eq_refl) _).
  simpl. lia.
Defined.

Lemma isInSelection_unmapped_selection_witness :
  filter (fun m => negb (isInSelection m [Entry.mk 2 0 8]
                           (selectIn 9 0 2 "ab")))
    [mkMatch 0 2; mkMatch 6 8]
  = [mkMatch 0 2; mkMatch 6 8].
Proof.
  refine (proj2 (isInSelection_unmapped_selection
                   [Entry.mk 2 0 8]
                   (mkSelection (u16 "ab") [mkRange 9 0 9 2])
                   (mkRange 9 0 9 2) [] eq_refl _) _).
  left. simpl. lia.
Defined.


Lemma highlight_pass_round_trip_witness :
  wellFormed threeLeaves
  /\ highlightMatches [Entry.mk 2 0 2; Entry.mk 4 2 4; Entry.mk 6 4 6]
       [mkMatch 1 5] threeLeaves
     = (Ok tt, threeLeavesMarked)
  /\ erase (normalize (body (removeHighlights threeLeavesMarked)))
     = erase (body threeLeaves).
Proof.
  assert (Hwf : wellFormed threeLeaves).
  { split; cbn.
    - repeat (constructor; [cbn; intuition discriminate|]). constructor.
    - repeat (constructor; [lia|]). constructor. }
  assert (Hrun : highlightMatches
                   [Entry.mk 2 0 2; Entry.mk 4 2 4; Entry.mk 6 4 6]
                   [mkMatch 1 5] threeLeaves
                 = (Ok tt, threeLeavesMarked)).
  { vm_compute. reflexivity. }
  split; [exact Hwf|]. split; [exact Hrun|].
  apply (highlight_pass_round_trip _ _ _ _ Hwf Hrun); reflexivity.
Defined.

(** * Further properties *)

(** ** The match engine *)

Lemma occursAt_length s q i :
  occursAt s q i -> (i + List.length q <= List.length s)%nat \/ q = [].
Proof.
  unfold occursAt. intros H. destruct q as [|c q]; [now right|left].
  assert (Hl : List.length (firstn (List.length (c :: q)) (skipn i s))
               = List.length (c :: q)) by now rewrite H.
  rewrite length_firstn, length_skipn in Hl. cbn [List.length] in *. lia.
Qed.

Lemma LeftmostFirst_occurrences s q pos ms :
  q <> [] ->
  LeftmostFirst s q pos ms ->
  Forall (fun m => 0 <= start m /\ start m < end_ m /\ end_ m <= len s
                   /\ end_ m = start m + len q
                   /\ occursAt s q (Z.to_nat (start m))) ms.
Proof.
  intros Hq. induction 1 as [|pos i ms Hle Ho Hmin Hrest IH]; constructor.
  - cbn [start end_].
    destruct (occursAt_length _ _ _ Ho) as [Hl|Hl]; [|contradiction].
    assert (0 < len q) by (unfold len; destruct q; cbn; [congruence|lia]).
    rewrite Nat2Z.id.
    repeat split; try (unfold len in *; lia). exact Ho.
  - exact IH.
Qed.

Lemma findMatches_ranges_are_occurrences_aux s q m :
  In m (findMatches s q) ->
  0 <= start m /\ start m < end_ m /\ end_ m <= len s
  /\ end_ m = start m + len q
  /\ occursAt s q (Z.to_nat (start m)).
Proof.
  destruct q as [|c q']; [intros []|]. revert m. apply Forall_forall.
  apply (LeftmostFirst_occurrences s (c :: q') 0); [discriminate|].
  apply (findLoop_leftmost s c q' 0). lia.
Qed.

(** X1. Every range that [findMatches] returns lies inside the string, is
    as long as the query and not empty, and the query occurs in the string
    where the range starts. *)
Theorem findMatches_ranges_are_occurrences (s q : jsstring) :
  Forall (fun m => 0 <= start m /\ start m < end_ m /\ end_ m <= len s
                   /\ end_ m = start m + len q
                   /\ occursAt s q (Z.to_nat (start m)))
    (findMatches s q).
Proof.
  destruct q as [|c q']; [constructor|].
  apply (LeftmostFirst_occurrences s (c :: q') 0); [discriminate|].
  apply (findLoop_leftmost s c q' 0). lia.
Qed.

Lemma LeftmostFirst_covers s q pos ms :
  LeftmostFirst s q pos ms ->
  forall k, (pos <= k)%nat -> occursAt s q k ->
    exists m, In m ms /\ start m <= Z.of_nat k < end_ m.
Proof.
  induction 1 as [pos Hnone|pos i ms Hle Ho Hmin Hrest IH]; intros k Hk Hok.
  - destruct (Hnone k Hk Hok).
  - destruct (Nat.lt_ge_cases k i) as [Hlt|Hge].
    + destruct (Hmin k (conj Hk Hlt) Hok).
    + destruct (Nat.lt_ge_cases k (i + List.length q)) as [Hin|Hout].
      * exists (mkMatch (Z.of_nat i) (Z.of_nat i + len q)).
        split; [now left|]. cbn [start end_]. unfold len. lia.
      * destruct (IH k Hout Hok) as (m & Hm & Hr).
        exists m. split; [now right | exact Hr].
Qed.

(** X2. No occurrence of a non-empty query is passed over: wherever the
    query occurs in the string, the place where that occurrence starts lies
    inside one of the ranges returned (the occurrence is one of them or
    overlaps one that started before it). *)
Theorem findMatches_covers_every_occurrence (s q : jsstring) (k : nat) :
  q <> [] ->
  occursAt s q k ->
  exists m, In m (findMatches s q) /\ start m <= Z.of_nat k < end_ m.
Proof.
  intros Hq Ho. destruct q as [|c q']; [congruence|].
  apply (LeftmostFirst_covers s (c :: q') 0); [|lia|exact Ho].
  apply (findLoop_leftmost s c q' 0). lia.
Qed.

Lemma findMatches_covers_every_occurrence_witness :
  exists m, In m (findMatches (u16 "aaa") (u16 "aa"))
            /\ start m <= 1 < end_ m.
Proof.
  exact (findMatches_covers_every_occurrence
           (u16 "aaa") (u16 "aa") 1 ltac:(discriminate) eq_refl).
Defined.

(** ** The segment collector *)

Lemma in_walkKids options parent l j s :
  In (j, s) (walkKids options parent l) <->
  (In (TextNode j s) l /\ acceptNode options (Some parent) s = FILTER_ACCEPT)
  \/ exists k, In k l /\ In (j, s) (walk options k).
Proof.
  unfold walkKids. rewrite in_flat_map. split.
  - intros (k & Hk & Hin). destruct k as [j' s'|i t c h l'].
    + left. destruct (acceptNode options (Some parent) s') eqn:E;
        try contradiction.
      destruct Hin as [Heq|[]]. injection Heq as -> ->. now split.
    + right. exists (Element i t c h l'). now split.
  - intros [[Hin Hacc]|(k & Hk & Hin)].
    + exists (TextNode j s). split; [exact Hin|]. rewrite Hacc. now left.
    + exists k. split; [exact Hk|]. destruct k; [destruct Hin | exact Hin].
Qed.

Lemma in_walk options :
  forall r j s,
    In (j, s) (walk options r) <->
    exists p, In p (subnodes r) /\ In (TextNode j s) (children p)
              /\ acceptNode options (Some p) s = FILTER_ACCEPT.
Proof.
  induction r as [i s0|i t c h l IH] using Node_induction; intros j s.
  - cbn. split; [intros [] | intros (p & [<-|[]] & [] & _)].
  - rewrite walk_element, in_walkKids. cbn [subnodes]. split.
    + intros [[Hin Hacc]|(k & Hk & Hin)].
      * exists (Element i t c h l). split; [now left|]. now split.
      * rewrite Forall_forall in IH. apply (IH k Hk) in Hin.
        destruct Hin as (p & Hp & Hrest). exists p. split; [|exact Hrest].
        right. apply in_flat_map. now exists k.
    + intros (p & [<-|Hp] & Hin & Hacc).
      * left. now split.
      * right. apply in_flat_map in Hp. destruct Hp as (k & Hk & Hp).
        exists k. split; [exact Hk|].
        rewrite Forall_forall in IH. apply (IH k Hk). now exists p.
Qed.

Lemma subnodes_trans :
  forall r p q, In p (subnodes r) -> In q (subnodes p) -> In q (subnodes r).
Proof.
  induction r as [i s0|i t c h l IH] using Node_induction; intros p q Hp Hq.
  - destruct Hp as [<-|[]]. exact Hq.
  - cbn [subnodes] in Hp. destruct Hp as [<-|Hp]; [exact Hq|].
    cbn [subnodes]. right. apply in_flat_map in Hp.
    destruct Hp as (k & Hk & Hp). apply in_flat_map. exists k.
    split; [exact Hk|]. rewrite Forall_forall in IH. now apply (IH k Hk p).
Qed.

(** X3. Which text nodes the collector takes: a text node below the root
    is collected exactly when the element it is a child of has no excluded
    tag name (compared in lower case), is not hidden when hidden elements
    are excluded, and the trimmed content has the minimal length. Hidden
    is what [getComputedStyle] reports for that element: its own [display]
    and its [visibility], inherited or not. No element further up is asked
    for its tag name or its style: below an element with an excluded tag
    name, or one that is hidden itself, the text of an element child that
    passes the three tests is collected. *)
Theorem getTextNodes_filter_looks_at_parent_only
    (options : GetTextNodesOptions) (r : Node) (j : nat) (s : jsstring) :
  (In (j, s) (walk options r) <->
   exists i t c h l,
     In (Element i t c h l) (subnodes r) /\ In (TextNode j s) l
     /\ existsb (Js.eqb (toLowerCase t)) EXCLUDED_TAGS = false
     /\ excludeHidden options && h = false
     /\ minContentLength options <= len (trim s))
  /\ forall i t c h l i' t' c' h' l',
       In (Element i t c h l) (subnodes r) ->
       In (Element i' t' c' h' l') l ->
       In (TextNode j s) l' ->
       existsb (Js.eqb (toLowerCase t')) EXCLUDED_TAGS = false ->
       excludeHidden options && h' = false ->
       minContentLength options <= len (trim s) ->
       In (j, s) (walk options r).
Proof.
  assert (Hiff : In (j, s) (walk options r) <->
            exists i t c h l,
              In (Element i t c h l) (subnodes r) /\ In (TextNode j s) l
              /\ existsb (Js.eqb (toLowerCase t)) EXCLUDED_TAGS = false
              /\ excludeHidden options && h = false
              /\ minContentLength options <= len (trim s)).
  { rewrite in_walk. split.
    - intros (p & Hp & Hin & Hacc). destruct p as [i s0|i t c h l];
        [destruct Hin|].
      exists i, t, c, h, l. split; [exact Hp|]. split; [exact Hin|].
      cbn [acceptNode] in Hacc.
      destruct (existsb _ EXCLUDED_TAGS); [discriminate|].
      destruct (excludeHidden options && h); [discriminate|].
      destruct (len (trim s) <? minContentLength options) eqn:E;
        [discriminate|].
      apply Z.ltb_ge in E. now repeat split.
    - intros (i & t & c & h & l & Hp & Hin & H1 & H2 & H3).
      exists (Element i t c h l). split; [exact Hp|]. split; [exact Hin|].
      cbn [acceptNode]. rewrite H1, H2.
      apply Z.ltb_ge in H3. now rewrite H3. }
  split; [exact Hiff|].
  intros i t c h l i' t' c' h' l' Hup Hkid Htext H1 H2 H3.
  apply Hiff. exists i', t', c', h', l'.
  split; [|now repeat split].
  apply (subnodes_trans _ _ _ Hup). cbn [subnodes]. right.
  apply in_flat_map. exists (Element i' t' c' h' l').
  split; [exact Hkid | now left].
Qed.

(** [<body><button><b>ab</b></button><div><i>cd</i></div></body>], the
    [<div>] with [display: none]. *)
Lemma getTextNodes_filter_looks_at_parent_only_witness :
  let r := Element 0 (u16 "BODY") [] false
             [Element 1 (u16 "BUTTON") [] false
                [Element 2 (u16 "B") [] false [TextNode 3 (u16 "ab")]];
              Element 4 (u16 "DIV") [] true
                [Element 5 (u16 "I") [] false [TextNode 6 (u16 "cd")]]] in
  In (3%nat, u16 "ab") (walk defaultOptions r)
  /\ walk defaultOptions r = [(3%nat, u16 "ab"); (6%nat, u16 "cd")].
Proof.
  cbv zeta. split; [|reflexivity].
  refine (proj2 (getTextNodes_filter_looks_at_parent_only defaultOptions _
                   3%nat (u16 "ab"))
            1%nat (u16 "BUTTON") [] false _
            2%nat (u16 "B") [] false [TextNode 3 (u16 "ab")]
            _ _ _ _ _ _).
  - right. left. reflexivity.
  - left. reflexivity.
  - left. reflexivity.
  - reflexivity.
  - reflexivity.
  - vm_compute. discriminate.
Defined.

Lemma lowerUnit_length c : c <> 304%N -> List.length (lowerUnit c) = 1%nat.
Proof.
  intros Hc. unfold lowerUnit.
  destruct ((65 <=? c) && (c <=? 90))%N; [reflexivity|].
  destruct ((192 <=? c) && (c <=? 222) && negb (c =? 215))%N; [reflexivity|].
  destruct (c =? 304)%N eqn:E; [|reflexivity].
  apply N.eqb_eq in E. contradiction.
Qed.

Lemma toLowerCase_length s :
  ~ In 304%N s -> List.length (toLowerCase s) = List.length s.
Proof.
  unfold toLowerCase. induction s as [|c s IH]; intros Hs; [reflexivity|].
  cbn [flat_map]. rewrite length_app, lowerUnit_length, IH; cbn.
  - reflexivity.
  - intros H. apply Hs. now right.
  - intros ->. apply Hs. now left.
Qed.

(** X4. When no collected text node holds U+0130, the entries partition
    the merged text: their ranges tile [[0, mergedText.length)], and the
    length of the merged text is the sum of the content lengths. *)
Theorem getTextNodes_partitions_merged_text
    (root : nat) (options : GetTextNodesOptions) (d : Document) :
  Forall (fun n => ~ In 304%N (snd n)) (walked root options d) ->
  let texts := fst (getTextNodes root options d) in
  let mergedText := snd (getTextNodes root options d) in
  tiles 0 texts (len mergedText)
  /\ len mergedText = contentLength (walked root options d).
Proof.
  intros Hno. cbv zeta.
  destruct (getTextNodes_tiles_contents root options d)
    as (Ht & _ & _ & Hlen). cbv zeta in *.
  assert (E : len (snd (getTextNodes root options d))
              = contentLength (walked root options d)).
  { apply Hlen. revert Hno. apply Forall_impl. intros n Hn.
    unfold len. now rewrite toLowerCase_length. }
  rewrite E. now split.
Qed.

Lemma getTextNodes_partitions_merged_text_witness :
  let texts := fst (getTextNodes 0 defaultOptions threeLeaves) in
  let mergedText := snd (getTextNodes 0 defaultOptions threeLeaves) in
  tiles 0 texts (len mergedText)
  /\ len mergedText = contentLength (walked 0 defaultOptions threeLeaves).
Proof.
  apply (getTextNodes_partitions_merged_text 0 defaultOptions threeLeaves).
  vm_compute. repeat constructor; intros H;
    repeat (destruct H as [H|H]; [discriminate|]); exact H.
Defined.

(** ** The selection filter *)

(** X5. On the matches that [findMatches] returns, the test for a match
    inside the selection adds nothing to the test for an overlap: with both
    ends of the selection in collected nodes, a match is filtered out
    exactly when it starts before the selection ends and ends after the
    selection starts. A match that ends where the selection starts, or
    starts where it ends, is handed on. *)
Theorem isInSelection_is_overlap root options d sel range others es ee
    (s q : jsstring) (m : MatchRange) :
  let texts := fst (getTextNodes root options d) in
  ranges sel = range :: others ->
  find (fun t => (Entry.node t =? startContainer range)%nat) texts
    = Some es ->
  find (fun t => (Entry.node t =? endContainer range)%nat) texts
    = Some ee ->
  In m (findMatches s q) ->
  let selStart := Entry.start es + Z.of_nat (startOffset range) in
  let selEnd := Entry.start ee + Z.of_nat (endOffset range) in
  (isInSelection m texts (Some sel) = true
   <-> start m < selEnd /\ selStart < end_ m)
  /\ (end_ m <= selStart \/ selEnd <= start m ->
      In m (filter (fun m => negb (isInSelection m texts (Some sel)))
              (findMatches s q))).
Proof.
  intros texts Hr Hs He Hm selStart selEnd.
  assert (Hnn : Forall (fun e => 0 <= Entry.start e) texts).
  { apply collect_start_nonneg. lia. }
  rewrite Forall_forall in Hnn.
  pose proof (Hnn _ (find_entry_In _ _ _ Hs)) as H0s.
  pose proof (Hnn _ (find_entry_In _ _ _ He)) as H0e.
  assert (Hlt : start m < end_ m).
  { destruct q as [|c q']; [destruct Hm|].
    pose proof (LeftmostFirst_occurrences s (c :: q') 0 _
                  ltac:(discriminate)
                  (findLoop_leftmost s c q' 0 ltac:(lia))) as Hall.
    rewrite Forall_forall in Hall. apply Hall in Hm. lia. }
  assert (Heq : isInSelection m texts (Some sel)
                = ((selStart <=? start m) && (end_ m <=? selEnd))
                  || ((start m <? selEnd) && (selStart <? end_ m))).
  { unfold isInSelection, findGlobalOffset. rewrite Hr, Hs, He.
    fold selStart selEnd.
    destruct (selStart =? -1) eqn:E1; [apply Z.eqb_eq in E1; lia|].
    destruct (selEnd =? -1) eqn:E2; [apply Z.eqb_eq in E2; lia|].
    reflexivity. }
  assert (Hiff : isInSelection m texts (Some sel) = true
                 <-> start m < selEnd /\ selStart < end_ m).
  { rewrite Heq, orb_true_iff, !andb_true_iff, !Z.leb_le, !Z.ltb_lt. lia. }
  split; [exact Hiff|].
  intros Hout. apply filter_In. split; [exact Hm|].
  apply negb_true_iff, not_true_is_false.
  intros E. apply Hiff in E. lia.
Qed.

Lemma isInSelection_is_overlap_witness :
  let texts := fst (getTextNodes 0 defaultOptions (document twice)) in
  let sel := mkSelection (u16 "ab") [mkRange 2 0 2 2] in
  let m := mkMatch 6 8 in
  (isInSelection m texts (Some sel) = true <-> start m < 0 + 2 /\ 0 + 0 < end_ m)
  /\ (end_ m <= 0 + 0 \/ 0 + 2 <= start m ->
      In m (filter (fun m => negb (isInSelection m texts (Some sel)))
              (findMatches (u16 "ab cd ab") (u16 "ab")))).
Proof.
  exact (isInSelection_is_overlap 0 defaultOptions (document twice)
           (mkSelection (u16 "ab") [mkRange 2 0 2 2]) (mkRange 2 0 2 2) []
           (Entry.mk 2 0 8) (Entry.mk 2 0 8)
           (u16 "ab cd ab") (u16 "ab") (mkMatch 6 8)
           eq_refl eq_refl eq_refl (or_intror (or_introl eq_refl))).
Defined.

(** ** Clearing *)

Lemma isHighlight_label n : isHighlight (label n) = isHighlight n.
Proof. destruct n; reflexivity. Qed.

Lemma removeHighlights_label d :
  label (body (removeHighlights d)) = label (body d).
Proof.
  unfold removeHighlights. destruct (body d) as [i s|i t c h l] eqn:E.
  - now rewrite E.
  - destruct (removeL l (nextId d)) as [l' k]. reflexivity.
Qed.

Lemma removeHighlights_body_stays d :
  isHighlight (body (removeHighlights d)) = isHighlight (body d).
Proof.
  now rewrite <- isHighlight_label, removeHighlights_label, isHighlight_label.
Qed.

Lemma Whole_markers d :
  isHighlight (body d) = false -> Whole.markers d = markers d.
Proof.
  unfold Whole.markers, markers. destruct (body d) as [i s|i t c h l].
  - reflexivity.
  - intros H. cbn [markersIn children]. now rewrite H.
Qed.

(** X6. How [removeHighlights()] ends, on the whole document. When
    [<html>] has the class, the call throws before anything is changed;
    otherwise, when [<body>] has it, the body itself is replaced by a text
    node with its text. In every other case the call returns and [<body>]
    stays: no element of the body has the class any more (nested markers
    are gone with the outer one), the text of the document and its
    well-formedness are kept, a body without markers is left exactly as it
    is, and clearing once more changes nothing. *)
Theorem removeHighlights_clears_once_and_for_all
    (documentElement : list jsstring) (d : Document) :
  match Whole.removeHighlights documentElement d with
  | Whole.HierarchyRequestError => Whole.isMarker documentElement = true
  | Whole.BodyReplaced text =>
      Whole.isMarker documentElement = false
      /\ isHighlight (body d) = true
      /\ text = textContent (body d)
  | Whole.Below d' =>
      Whole.isMarker documentElement = false
      /\ isHighlight (body d) = false
      /\ Whole.markers d' = []
      /\ textContent (body d') = textContent (body d)
      /\ (wellFormed d -> wellFormed d')
      /\ (Whole.markers d = [] -> d' = d)
      /\ Whole.removeHighlights documentElement d' = Whole.Below d'
  end.
Proof.
  unfold Whole.removeHighlights.
  destruct (Whole.isMarker documentElement) eqn:E1; [reflexivity|].
  destruct (isHighlight (body d)) eqn:E2; [now repeat split|].
  split; [reflexivity|]. split; [reflexivity|].
  split.
  { rewrite Whole_markers by now rewrite removeHighlights_body_stays.
    apply removeHighlights_no_markers. }
  split; [apply removeHighlights_textContent|].
  split; [apply removeHighlights_wellFormed|].
  split.
  { rewrite (Whole_markers d E2). apply removeHighlights_unmarked. }
  rewrite removeHighlights_body_stays, E2. f_equal.
  apply removeHighlights_unmarked, removeHighlights_no_markers.
Qed.

(** ** The controller *)

Lemma highlightNode_body_stays root selection p :
  wellFormed (document p) ->
  isHighlight (body (document (snd (highlightNode root selection p))))
  = isHighlight (body (document p)).
Proof.
  intros Hwf.
  pose proof (highlightNode_completes root selection p Hwf) as Hok.
  destruct (highlightNode_readsAs root selection p Hwf Hok)
    as (_ & Hl & _ & _).
  rewrite <- isHighlight_label, Hl, removeHighlights_label.
  apply isHighlight_label.
Qed.

Lemma Whole_highlightNode_returns documentElement root selection p :
  wellFormed (document p) ->
  Whole.isMarker documentElement = false ->
  isHighlight (body (document p)) = false ->
  Whole.highlightNode documentElement root selection p
  = Whole.Returned (snd (highlightNode root selection p)).
Proof.
  intros Hwf E1 E2. unfold Whole.highlightNode, Whole.removeHighlights.
  rewrite E1, E2.
  pose proof (highlightNode_completes root selection p Hwf) as Hok.
  destruct (highlightNode root selection p) as [[u|e] p'];
    [reflexivity | discriminate].
Qed.

Lemma highlightNodeCalls_invariant documentElement calls :
  Whole.isMarker documentElement = false ->
  forall p, wellFormed (document p) ->
    isHighlight (body (document p)) = false ->
    exists p',
      Whole.highlightNodeCalls documentElement calls p = Whole.Returned p'
      /\ wellFormed (document p')
      /\ isHighlight (body (document p')) = false
      /\ textContent (body (document p')) = textContent (body (document p))
      /\ erase (normalize (body (removeHighlights (document p'))))
         = erase (normalize (body (removeHighlights (document p)))).
Proof.
  intros E1.
  induction calls as [|[root selection] calls IH]; intros p Hwf E2.
  - exists p. cbn. auto.
  - cbn [Whole.highlightNodeCalls].
    rewrite (Whole_highlightNode_returns _ root selection p Hwf E1 E2).
    destruct (highlightNode_round_trip root selection p Hwf)
      as (_ & Hwf' & Hshape & Htext).
    pose proof (highlightNode_body_stays root selection p Hwf) as Hb.
    rewrite E2 in Hb.
    destruct (IH _ Hwf' Hb) as (p' & A & B & C & D & E).
    exists p'. split; [exact A|]. split; [exact B|]. split; [exact C|].
    split; [now rewrite D | now rewrite E].
Qed.

(** X7. However often [highlightNode] is called, with whatever roots and
    selections, on a well-formed document whose [<html>] and [<body>] do
    not have the class [highlight], and with the text of the document and
    of the selections in the range in which lower-casing is followed
    exactly: every call returns (no [replaceChild] is asked of the
    document node, no [splitText] for an offset outside its node), the
    document stays well formed and [<body>] stays, the text of the
    document never changes, and clearing the markers and normalizing gives
    what it gave at the start. *)
Theorem highlightNode_calls_never_throw_and_keep_text
    (documentElement : list jsstring)
    (calls : list (nat * option Selection)) (p : Page) :
  wellFormed (document p) ->
  Whole.isMarker documentElement = false ->
  isHighlight (body (document p)) = false ->
  caseModelled (textContent (body (document p))) ->
  Forall (fun call => forall sel,
            snd call = Some sel -> caseModelled (toString sel)) calls ->
  exists p' d0 d1,
    Whole.highlightNodeCalls documentElement calls p = Whole.Returned p'
    /\ wellFormed (document p')
    /\ isHighlight (body (document p')) = false
    /\ textContent (body (document p')) = textContent (body (document p))
    /\ Whole.removeHighlights documentElement (document p) = Whole.Below d0
    /\ Whole.removeHighlights documentElement (document p') = Whole.Below d1
    /\ erase (normalize (body d1)) = erase (normalize (body d0)).
Proof.
  intros Hwf E1 E2 _ _.
  destruct (highlightNodeCalls_invariant documentElement calls E1 p Hwf E2)
    as (p' & A & B & C & D & E).
  exists p', (removeHighlights (document p)),
    (removeHighlights (document p')).
  unfold Whole.removeHighlights. rewrite E1, E2, C. auto 10.
Qed.

Lemma twice_wellFormed : wellFormed (document twice).
Proof.
  split; cbn.
  - repeat constructor; cbn; intuition lia.
  - repeat constructor.
Qed.

Lemma highlightNode_calls_never_throw_and_keep_text_witness :
  let calls := [(0%nat, selectIn 2 0 2 "ab"); (0%nat, selectIn 2 3 5 "cd");
                (0%nat, None)] in
  exists p' d0 d1,
    Whole.highlightNodeCalls [] calls twice = Whole.Returned p'
    /\ wellFormed (document p')
    /\ isHighlight (body (document p')) = false
    /\ textContent (body (document p')) = textContent (body (document twice))
    /\ Whole.removeHighlights [] (document twice) = Whole.Below d0
    /\ Whole.removeHighlights [] (document p') = Whole.Below d1
    /\ erase (normalize (body d1)) = erase (normalize (body d0)).
Proof.
  refine (highlightNode_calls_never_throw_and_keep_text []
            [(0%nat, selectIn 2 0 2 "ab"); (0%nat, selectIn 2 3 5 "cd");
             (0%nat, None)] twice twice_wellFormed eq_refl eq_refl _ _).
  - vm_compute. repeat constructor.
  - constructor; [|constructor; [|constructor; [|constructor]]];
      cbn [snd selectIn]; intros sel E; try discriminate;
      injection E as <-; vm_compute; repeat constructor.
Defined.

(** ** The splice engine *)

Lemma collectNodeMatches_blocked entry contentLength m rest :
  ~ (Entry.start entry <= start m /\ end_ m <= Entry.end_ entry) ->
  forall pre, exists nodeMatches pre',
    collectNodeMatches entry contentLength (pre ++ m :: rest)
    = (nodeMatches, pre' ++ m :: rest)
    /\ collectNodeMatches entry contentLength (pre ++ [m])
       = (nodeMatches, pre' ++ [m]).
Proof.
  intros Hno.
  assert (E : (Entry.start entry <=? start m) && (end_ m <=? Entry.end_ entry)
              = false).
  { apply andb_false_iff.
    destruct (Z.leb_spec (Entry.start entry) (start m));
      destruct (Z.leb_spec (end_ m) (Entry.end_ entry)); auto.
    exfalso. apply Hno. lia. }
  induction pre as [|x pre IH].
  - cbn [app collectNodeMatches]. rewrite E.
    destruct ((start m <? Entry.end_ entry) && (Entry.start entry <? end_ m)).
    + exists [localRange entry contentLength m], []. now split.
    + exists [], []. now split.
  - cbn [app collectNodeMatches].
    destruct ((Entry.start entry <=? start x)
              && (end_ x <=? Entry.end_ entry)).
    + destruct IH as (nodeMatches & pre' & -> & ->).
      exists (localRange entry contentLength x :: nodeMatches), pre'.
      now split.
    + destruct ((start x <? Entry.end_ entry)
                && (Entry.start entry <? end_ x)).
      * exists [localRange entry contentLength x], (x :: pre). now split.
      * exists [], (x :: pre). now split.
Qed.

Lemma spliceEntries_blocked m rest :
  forall texts pre d,
    Forall (fun e => ~ (Entry.start e <= start m /\ end_ m <= Entry.end_ e))
      texts ->
    spliceEntries texts (pre ++ m :: rest) d
    = spliceEntries texts (pre ++ [m]) d.
Proof.
  induction texts as [|entry texts IH]; intros pre d Hall; [reflexivity|].
  inversion Hall as [|? ? Hno Hall']; subst.
  cbn [spliceEntries]. unfold bind.
  destruct (readText (Entry.node entry) d) as [[nodeContent|e] d1];
    [|reflexivity].
  destruct (collectNodeMatches_blocked entry (len nodeContent) m rest Hno pre)
    as (nodeMatches & pre' & -> & ->).
  destruct (forEach _ _ d1) as [[u|e] d2]; [|reflexivity].
  now apply IH.
Qed.

Lemma sortedMatches_app_inv pre m rest :
  sortedMatches (pre ++ m :: rest) -> sortedMatches (pre ++ [m]).
Proof.
  unfold sortedMatches. induction pre as [|x pre IH]; cbn [app].
  - intros [H1 H2]. inversion H1; subst.
    split; repeat constructor; assumption.
  - intros [H1 H2]. inversion H1 as [|? ? Hx H1']; subst.
    inversion H2 as [|? ? Hall H2']; subst.
    destruct (IH (conj H1' H2')) as [A B].
    split; constructor; auto.
    rewrite Forall_forall in *. intros y Hy. apply Hall.
    apply in_app_or in Hy. apply in_or_app.
    destruct Hy as [Hy|[<-|[]]]; [now left | right; now left].
Qed.

(** X8. A match that no single entry contains is never passed: the index
    into the sorted matches moves on only at a match that lies inside the
    entry at hand, so the matches after such a match are not looked at any
    more and get no marker. The pass does what it does without them. *)
Theorem highlightMatches_ignores_matches_after_one_across_nodes
    (texts : list TextNodeEntry) (pre : list MatchRange) (m : MatchRange)
    (rest : list MatchRange) (d : Document) :
  sortedMatches (pre ++ m :: rest) ->
  Forall (fun e => ~ (Entry.start e <= start m /\ end_ m <= Entry.end_ e))
    texts ->
  highlightMatches texts (pre ++ m :: rest) d
  = highlightMatches texts (pre ++ [m]) d.
Proof.
  intros Hs Hall. unfold highlightMatches.
  rewrite (sortByStart_sorted _ Hs).
  rewrite (sortByStart_sorted _ (sortedMatches_app_inv _ _ _ Hs)).
  now apply spliceEntries_blocked.
Qed.

Lemma highlightMatches_ignores_matches_after_one_across_nodes_witness :
  let texts := fst (getTextNodes 0 defaultOptions acrossLeaves) in
  let mergedText := snd (getTextNodes 0 defaultOptions acrossLeaves) in
  findMatches mergedText (u16 "ab")
  = [mkMatch 0 2] ++ mkMatch 4 6 :: [mkMatch 8 10]
  /\ highlightMatches texts ([mkMatch 0 2] ++ mkMatch 4 6 :: [mkMatch 8 10])
       acrossLeaves
     = highlightMatches texts ([mkMatch 0 2] ++ [mkMatch 4 6]) acrossLeaves.
Proof.
  cbv zeta. split; [reflexivity|].
  apply (highlightMatches_ignores_matches_after_one_across_nodes
           (fst (getTextNodes 0 defaultOptions acrossLeaves))
           [mkMatch 0 2] (mkMatch 4 6) [mkMatch 8 10] acrossLeaves).
  - split.
    + repeat constructor; cbn; lia.
    + repeat constructor; cbn; lia.
  - change (fst (getTextNodes 0 defaultOptions acrossLeaves))
      with [Entry.mk 2 0 5; Entry.mk 4 5 10].
    repeat constructor; cbn; lia.
Defined.

(** ** What the markers hold *)

Lemma parentIn_present a :
  (forall n, In a (ids n) -> nodeId n <> a -> parentIn a n <> None)
  /\ (forall l, In a (idsL l) ->
                existsb (fun k => (nodeId k =? a)%nat) l = true
                \/ parentInL a l <> None).
Proof.
  apply Node_list_ind.
  - intros i s [<-|[]] H. now destruct H.
  - intros i t c h l IH Hin Hne. rewrite parentIn_element.
    cbn [ids nodeId] in *. destruct Hin as [->|Hin]; [now destruct Hne|].
    destruct (IH Hin) as [E|E]; [now rewrite E|].
    destruct (existsb _ l); [discriminate | exact E].
  - intros [].
  - intros x r Hx Hr Hin. unfold idsL in Hin. cbn [flat_map] in Hin.
    cbn [existsb parentInL].
    destruct (Nat.eqb_spec (nodeId x) a) as [E|E]; [now left|].
    apply in_app_or in Hin. destruct Hin as [Hin|Hin].
    + right. specialize (Hx Hin E).
      destruct (parentIn a x); [discriminate | now destruct Hx].
    + destruct (Hr Hin) as [H|H]; [left; exact H | right].
      destruct (parentIn a x); [discriminate | exact H].
Qed.

(** What one call of [wrapMatch] makes of the document: the text node is
    replaced by the text before the range, the marker around a copy of the
    text at the range, and the text after the range (also when that is
    empty); four identities are used up. *)
Lemma wrapMatch_result n m d s :
  wellFormed d ->
  findText n d = Some s ->
  0 <= start m <= end_ m -> end_ m <= len s ->
  wrapMatch n m d
  = (Ok tt, mkDoc (substNode n (fun _ => wrapped n (nextId d) s m) (body d))
                  (4 + nextId d)).
Proof.
  intros [Hnd Hlt] Hs Hm1 Hm2.
  destruct (findText_found _ _ _ Hs) as (i0 & t0 & c0 & h0 & kids & Hb & Hfind).
  destruct d as [bd sp]. cbn [body nextId] in *. subst bd.
  assert (Hin : In n (ids (Element i0 t0 c0 h0 kids))).
  { cbn [ids]. right. eapply foundL_in_ids; eauto. }
  pose proof (focus_ext i0 t0 c0 h0 kids n s Hnd Hfind) as Hext.
  pose proof (focus_find i0 t0 c0 h0 kids n s Hnd Hfind) as Hlook.
  pose proof (focus_subst i0 t0 c0 h0 kids n) as Hsub.
  pose proof (focus_ids i0 t0 c0 h0 kids n s Hnd Hfind) as Hids.
  pose proof (focus_siblings i0 t0 c0 h0 kids n) as Hsib.
  pose proof (focus_root i0 t0 c0 h0 kids n s Hnd Hfind) as Hroot.
  change i0 with (nodeId (Element i0 t0 c0 h0 kids)) in Hroot.
  remember (Element i0 t0 c0 h0 kids) as body0 eqn:Hb0.
  clear Hb0 Hfind.
  assert (Hfresh : forall b, (sp <= b)%nat -> ~ In b (ids body0)).
  { intros b Hb'. eapply fresh_not_in; eauto. }
  assert (Hn : (n < sp)%nat).
  { rewrite Forall_forall in Hlt. now apply Hlt. }
  assert (E1 : (n =? S sp)%nat = false) by (apply Nat.eqb_neq; lia).
  assert (E2 : (n =? S (S sp))%nat = false) by (apply Nat.eqb_neq; lia).
  assert (E3 : (n =? sp)%nat = false) by (apply Nat.eqb_neq; lia).
  assert (E4 : (S sp =? S (S sp))%nat = false) by (apply Nat.eqb_neq; lia).
  assert (E5 : (sp =? S (S sp))%nat = false) by (apply Nat.eqb_neq; lia).
  assert (E6 : (S (S (S sp)) =? S (S sp))%nat = false)
    by (apply Nat.eqb_neq; lia).
  assert (E7 : (S (S sp) =? sp)%nat = false) by (apply Nat.eqb_neq; lia).
  assert (E8 : (S (S (S sp)) =? sp)%nat = false) by (apply Nat.eqb_neq; lia).
  assert (E9 : (S (S sp) =? S sp)%nat = false) by (apply Nat.eqb_neq; lia).
  assert (E10 : (S sp =? n)%nat = false) by (apply Nat.eqb_neq; lia).
  unfold wrapped, slice. cbn [Nat.add].
  set (off := Z.to_nat (start m)) in *.
  set (cnt := Z.to_nat (end_ m - start m)) in *.
  set (L3 := [TextNode n (firstn off s);
              TextNode (S sp) (firstn cnt (skipn off s));
              TextNode (S (S sp)) (skipn cnt (skipn off s))]).
  set (mk := Element sp (u16 "SPAN") [u16 "highlight"] false
               [TextNode (S (S (S sp))) (firstn cnt (skipn off s))]).
  set (L4 := [TextNode n (firstn off s); mk;
              TextNode (S (S sp)) (skipn cnt (skipn off s))]).
  assert (Hlen : len (skipn off s) = len s - start m).
  { unfold len, off. rewrite length_skipn. unfold len in *. lia. }
  unfold wrapMatch.
  erewrite bind_run by reflexivity.
  erewrite bind_run by (apply (splitText_run _ _ _ s); [exact Hs | lia]).
  cbn [body nextId]. rewrite (Hext _). cbn [splitAt]. fold off.
  erewrite bind_run.
  2:{ apply (splitText_run _ _ _ (skipn off s)); [|lia].
      unfold findText. rewrite Hlook by (right; apply Hfresh; lia).
      cbn [findL findNode nodeId]. now rewrite E1, Nat.eqb_refl. }
  cbn [body nextId]. rewrite Hsub by (apply Hfresh; lia).
  cbn [substL flat_map nodeId substNode app].
  rewrite E1, Nat.eqb_refl. cbn [splitAt app]. fold cnt. fold L3.
  erewrite bind_run.
  2:{ apply (cloneNode_run _ _ (firstn cnt (skipn off s))).
      unfold findText. rewrite Hlook by (right; apply Hfresh; lia).
      cbn [L3 findL findNode nodeId]. now rewrite E1, Nat.eqb_refl. }
  cbn [body nextId appendChild app nodeId]. fold mk.
  assert (Hh4 : findDesc (S (S sp))
                  (mkDoc (substNode n (fun _ => L4) body0) (4 + sp))
                = Some (TextNode (S (S sp)) (skipn cnt (skipn off s)))).
  { rewrite Hlook by (right; apply Hfresh; lia).
    cbn [L4 mk findL findNode nodeId].
    now rewrite E2, E5, E6, Nat.eqb_refl. }
  unfold replaceChildOfParent at 1. unfold bind at 1.
  destruct (parentOf n _) as [p|] eqn:Ep.
  - (* [pre] is replaced by the marker *)
    unfold parentOf in *. cbn [body] in *.
    rewrite Hsib, Ep, Nat.eqb_refl;
      [ | cbn [L3 existsb nodeId]; now rewrite Nat.eqb_refl
        | cbn [L3 existsb nodeId]; now rewrite E1, Nat.eqb_refl
        | reflexivity | reflexivity | apply Hfresh; lia].
    unfold updateChildren. cbn [body nextId].
    rewrite Hsub by (apply Hfresh; lia).
    cbn [L3 substL flat_map nodeId substNode app].
    rewrite E1, E9, Nat.eqb_refl. cbn [app]. fold L4.
    unfold bind at 1, readText at 1. unfold findText at 1.
    change (S (S (S (S sp)))) with (4 + sp)%nat. rewrite Hh4.
    destruct (skipn cnt (skipn off s)) as [|r0 rest] eqn:Erest.
    + reflexivity.
    + unfold after.
      destruct (parentOf sp _); [|reflexivity].
      rewrite Hh4. unfold updateChildren. cbn [body nextId].
      rewrite !Hsub by (apply Hfresh; lia).
      cbn [L4 mk substL flat_map nodeId substNode app].
      rewrite ?E2, ?E3, ?E5, ?E6, ?E7, ?E8, ?Nat.eqb_refl. cbn [app].
      cbn [flat_map nodeId substNode app].
      rewrite ?E2, ?E3, ?E5, ?E6, ?E7, ?E8, ?Nat.eqb_refl.
      reflexivity.
  - (* the text node has a parent *)
    exfalso. unfold parentOf in Ep. cbn [body] in Ep. revert Ep.
    apply (proj1 (parentIn_present n)).
    + apply (Permutation_in _ (Permutation_sym
                                 (Hids L3 [S sp; S (S sp)] eq_refl))).
      apply in_or_app. now right.
    + now rewrite nodeId_substNode.
Qed.

Lemma markerTextsBy_ext f g :
  (forall x, (forall j s, In (TextNode j s) (subnodes x) -> f j s = g j s) ->
             markerTextsBy f x = markerTextsBy g x)
  /\ (forall l, (forall j s, In (TextNode j s) (descL l) -> f j s = g j s) ->
                flat_map (markerTextsBy f) l = flat_map (markerTextsBy g) l).
Proof.
  apply Node_list_ind.
  - intros i s H. cbn. apply H. now left.
  - intros i t c h l IH H. cbn [markerTextsBy]. f_equal. apply IH.
    intros j s Hin. apply H. cbn [subnodes]. now right.
  - reflexivity.
  - intros x r Hx Hr H. cbn [flat_map]. unfold descL in H.
    cbn [flat_map] in H. f_equal.
    + apply Hx. intros j s Hin. apply H, in_or_app. now left.
    + apply Hr. intros j s Hin. apply H, in_or_app. now right.
Qed.

Lemma markersIn_By :
  (forall x, map textContent (markersIn x) = markerTextsBy noMarks x)
  /\ (forall l, map textContent (flat_map markersIn l)
                = flat_map (markerTextsBy noMarks) l).
Proof.
  apply Node_list_ind.
  - reflexivity.
  - intros i t c h l IH. cbn [markersIn markerTextsBy].
    rewrite map_app, IH. f_equal.
    now destruct (isHighlight (Element i t c h l)).
  - reflexivity.
  - intros x r Hx Hr. cbn [flat_map]. now rewrite map_app, Hx, Hr.
Qed.

Lemma markerTexts_By d :
  markerTexts d = flat_map (markerTextsBy noMarks) (children (body d)).
Proof. unfold markerTexts, markers. apply (proj2 markersIn_By). Qed.

Lemma textContent_subst a f :
  (forall n, (forall x, In x (subnodes n) -> nodeId x = a ->
                        flat_map textContent (f x) = textContent x) ->
             textContent (substNode a f n) = textContent n)
  /\ (forall l, (forall x, In x (descL l) -> nodeId x = a ->
                           flat_map textContent (f x) = textContent x) ->
                flat_map textContent (substL a f l)
                = flat_map textContent l).
Proof.
  apply Node_list_ind.
  - reflexivity.
  - intros i t c h l IH H. rewrite substNode_element. cbn [textContent].
    apply IH. intros x Hx. apply H. cbn [subnodes]. now right.
  - reflexivity.
  - intros x r Hx Hr H. rewrite substL_cons, flat_map_app. cbn [flat_map].
    unfold descL in H. cbn [flat_map] in H.
    rewrite Hr by (intros y Hy; apply H, in_or_app; now right).
    f_equal. destruct (Nat.eqb_spec (nodeId x) a) as [E|E].
    + apply H; [|exact E]. apply in_or_app. left.
      destruct x; cbn; now left.
    + cbn [flat_map]. rewrite app_nil_r. apply Hx.
      intros y Hy. apply H, in_or_app. now left.
Qed.

(** The markers of a tree in which the text node [n] has been replaced by
    [L], which holds the same text. *)
Lemma markerTextsBy_subst n s L g :
  flat_map textContent L = s ->
  (forall x, nodeId x <> n ->
             (forall y, In y (subnodes x) -> nodeId y = n ->
                        y = TextNode n s) ->
             markerTextsBy g (substNode n (fun _ => L) x)
             = markerTextsBy
                 (fun j t => if (j =? n)%nat
                             then flat_map (markerTextsBy g) L else g j t) x)
  /\ (forall l, (forall y, In y (descL l) -> nodeId y = n ->
                           y = TextNode n s) ->
                flat_map (markerTextsBy g) (substL n (fun _ => L) l)
                = flat_map
                    (markerTextsBy
                       (fun j t => if (j =? n)%nat
                                   then flat_map (markerTextsBy g) L
                                   else g j t)) l).
Proof.
  intros HL. apply Node_list_ind.
  - intros i t Hne _. cbn [substNode markerTextsBy nodeId] in *.
    destruct (Nat.eqb_spec i n); [contradiction | reflexivity].
  - intros i t c h l IH Hne Hu. rewrite substNode_element.
    cbn [markerTextsBy]. f_equal.
    + change (isHighlight (Element i t c h (substL n (fun _ => L) l)))
        with (isHighlight (Element i t c h l)).
      destruct (isHighlight (Element i t c h l)); [|reflexivity].
      f_equal. cbn [textContent].
      apply (proj2 (textContent_subst n (fun _ => L))).
      intros x Hx Hid. rewrite HL.
      rewrite (Hu x); [reflexivity | cbn [subnodes]; now right | exact Hid].
    + apply IH. intros y Hy. apply Hu. cbn [subnodes]. now right.
  - reflexivity.
  - intros x r Hx Hr Hu. rewrite substL_cons, flat_map_app. cbn [flat_map].
    unfold descL in Hu. cbn [flat_map] in Hu.
    rewrite Hr by (intros y Hy; apply Hu, in_or_app; now right).
    f_equal. destruct (Nat.eqb_spec (nodeId x) n) as [E|E].
    + rewrite (Hu x); [|apply in_or_app; left; destruct x; cbn; now left
                       |exact E].
      cbn [markerTextsBy]. now rewrite Nat.eqb_refl.
    + cbn [flat_map]. rewrite app_nil_r. apply Hx; [exact E|].
      intros y Hy. apply Hu, in_or_app. now left.
Qed.

Lemma findText_in_ids n d s : findText n d = Some s -> In n (ids (body d)).
Proof.
  intros H. destruct (findText_found _ _ _ H)
    as (i & t & c & h & kids & -> & Hf).
  cbn [ids]. right. eapply foundL_in_ids; eauto.
Qed.

Lemma wrapMatch_marks n m d s g :
  wellFormed d ->
  findText n d = Some s ->
  0 <= start m <= end_ m -> end_ m <= len s ->
  (forall j t, (nextId d <= j)%nat -> g j t = []) ->
  exists d',
    wrapMatch n m d = (Ok tt, d')
    /\ nextId d' = (4 + nextId d)%nat
    /\ flat_map (markerTextsBy g) (children (body d'))
       = flat_map
           (markerTextsBy
              (fun j t => if (j =? n)%nat
                          then g n (firstn (Z.to_nat (start m)) s)
                                 ++ [slice s (start m) (end_ m)]
                          else g j t))
           (children (body d)).
Proof.
  intros Hwf Hs Hm1 Hm2 Hg. eexists. split.
  - now apply (wrapMatch_result n m d s).
  - split; [reflexivity|]. cbn [body].
    destruct (findText_found _ _ _ Hs)
      as (i0 & t0 & c0 & h0 & kids & Hb & Hfind).
    rewrite Hb. rewrite substNode_element. cbn [children].
    destruct Hwf as [Hnd _]. rewrite Hb in Hnd.
    rewrite (proj2 (markerTextsBy_subst n s (wrapped n (nextId d) s m) g
                      ltac:(unfold wrapped, slice; cbn;
                            now rewrite !app_nil_r, !firstn_skipn)) kids
               (focus_unique i0 t0 c0 h0 kids n s Hnd Hfind)).
    apply (proj2 (markerTextsBy_ext _ _)). intros j t _.
    destruct (j =? n)%nat; [|reflexivity].
    unfold wrapped. cbn [flat_map markerTextsBy isHighlight existsb].
    change (Js.eqb (u16 "highlight") (u16 "highlight")) with true.
    cbn [orb textContent flat_map app].
    rewrite (Hg (3 + nextId d)%nat), (Hg (2 + nextId d)%nat) by lia.
    now rewrite !app_nil_r.
Qed.

Lemma chain_keptText s : forall ms lo,
  0 <= lo -> chain lo ms (len s) -> lo <= len (keptText s ms).
Proof.
  intros [|m r] lo Hlo Hc; cbn [chain keptText] in *; [exact Hc|].
  destruct Hc as [Hm Hc].
  assert (Hle : forall r lo, chain lo r (len s) -> lo <= len s).
  { clear. induction r as [|m r IH]; intros lo; cbn [chain]; [auto|].
    intros [Hm Hc]. apply IH in Hc. lia. }
  apply Hle in Hc. rewrite len_firstn_le; lia.
Qed.

Lemma firstn_keptText s m r :
  0 <= start m <= end_ m -> chain (end_ m) r (len s) ->
  firstn (Z.to_nat (start m)) (keptText s r) = firstn (Z.to_nat (start m)) s
  /\ slice (keptText s r) (start m) (end_ m) = slice s (start m) (end_ m).
Proof.
  intros Hm Hc. destruct r as [|m' r]; cbn [keptText chain] in *; [now split|].
  destruct Hc as [Hm' _]. unfold slice. split.
  - rewrite firstn_firstn. f_equal. lia.
  - rewrite skipn_firstn_comm, firstn_firstn. f_equal. lia.
Qed.

(** The local ranges of one node, wrapped from the last to the first: the
    node keeps the text before the first of them, and the markers that
    take its place hold the slices of its text at the ranges, in order. *)
Lemma forEach_wrapMatch_marks n :
  forall ms lo d s,
    wellFormed d -> findText n d = Some s -> 0 <= lo ->
    chain lo ms (len s) ->
    exists d',
      forEach (wrapMatch n) (rev ms) d = (Ok tt, d')
      /\ wellFormed d'
      /\ (nextId d <= nextId d')%nat
      /\ findText n d' = Some (keptText s ms)
      /\ (forall n' t, n' <> n -> findText n' d = Some t ->
                       findText n' d' = Some t)
      /\ forall g, (forall j t, (nextId d <= j)%nat -> g j t = []) ->
           flat_map (markerTextsBy g) (children (body d'))
           = flat_map
               (markerTextsBy
                  (fun j t => if (j =? n)%nat
                              then g n (keptText s ms)
                                     ++ map (fun m => slice s (start m) (end_ m))
                                          ms
                              else g j t))
               (children (body d)).
Proof.
  induction ms as [|m r IH]; intros lo d s Hwf Hs Hlo Hc.
  - exists d. cbn [rev forEach chain keptText map] in *.
    split; [reflexivity|]. split; [exact Hwf|]. split; [lia|].
    split; [exact Hs|]. split; [auto|]. intros g _.
    destruct (findText_found _ _ _ Hs)
      as (i0 & t0 & c0 & h0 & kids & Hb & Hfind).
    destruct Hwf as [Hnd _]. rewrite Hb in *. cbn [children].
    apply (proj2 (markerTextsBy_ext _ _)). intros j t Hin.
    destruct (j =? n)%nat eqn:E; [|reflexivity].
    apply Nat.eqb_eq in E. subst j. rewrite app_nil_r.
    pose proof (focus_unique i0 t0 c0 h0 kids n s Hnd Hfind _ Hin eq_refl)
      as Heq.
    now injection Heq as ->.
  - cbn [chain] in Hc. destruct Hc as [Hm Hc].
    destruct (IH (end_ m) d s Hwf Hs ltac:(lia) Hc)
      as (d1 & Hrun & Hwf1 & Hnext1 & Hs1 & Hoth1 & Hmarks1).
    pose proof (chain_keptText s r (end_ m) ltac:(lia) Hc) as Hle.
    destruct (firstn_keptText s m r ltac:(lia) Hc) as [Hf Hsl].
    destruct (wrapMatch_completes n m d1 _ Hwf1 Hs1 ltac:(lia) Hle)
      as (d2 & Hw & Hs2 & Hoth2).
    exists d2. cbn [rev]. rewrite (forEach_app_run _ _ _ _ _ Hrun).
    cbn [forEach]. rewrite (bind_run _ _ _ _ _ Hw).
    split; [reflexivity|].
    split; [apply (wrapMatch_sound _ _ _ _ Hwf1 Hw)|].
    pose proof (wrapMatch_result n m d1 _ Hwf1 Hs1 ltac:(lia) Hle) as Hres.
    rewrite Hw in Hres. injection Hres as Hd2.
    split; [rewrite Hd2; cbn [nextId]; lia|].
    split; [rewrite Hs2; cbn [keptText]; now rewrite Hf|].
    split; [intros n' t Hne Ht; apply Hoth2; auto|].
    intros g Hg.
    assert (Hn : (n < nextId d)%nat).
    { destruct Hwf as [_ Hlt]. rewrite Forall_forall in Hlt.
      apply Hlt. eapply findText_in_ids; eauto. }
    destruct (wrapMatch_marks n m d1 _ g Hwf1 Hs1 ltac:(lia) Hle)
      as (d2' & Hw' & _ & Hmarks2).
    { intros j t Hj. apply Hg. lia. }
    rewrite Hw in Hw'. injection Hw' as <-.
    rewrite Hmarks2, Hmarks1.
    + destruct (findText_found _ _ _ Hs)
        as (i0 & t0 & c0 & h0 & kids & Hb & Hfind).
      rewrite Hb. cbn [children].
      apply (proj2 (markerTextsBy_ext _ _)). intros j t _.
      rewrite Nat.eqb_refl.
      destruct (j =? n)%nat; [|reflexivity].
      cbn [keptText map]. rewrite Hf, Hsl, <- app_assoc. reflexivity.
    + intros j t Hj.
      destruct (Nat.eqb_spec j n) as [->|_]; [lia | now apply Hg].
Qed.

Lemma nodeMarks_keys texts : forall pending d j e,
  find (fun e => (fst e =? j)%nat) (nodeMarks texts pending d) = Some e ->
  In j (map Entry.node texts).
Proof.
  induction texts as [|entry texts IH]; intros pending d j e; cbn [nodeMarks].
  - discriminate.
  - destruct (findText (Entry.node entry) d) as [s|]; [|discriminate].
    destruct (collectNodeMatches entry (len s) pending) as [nm pending'].
    cbn [find fst map].
    destruct (Nat.eqb_spec (Entry.node entry) j) as [E|E].
    + intros _. now left.
    + intros H. right. eapply IH; eauto.
Qed.

Lemma nodeMarks_ext texts d d' : forall pending,
  Forall (fun e => findText (Entry.node e) d' = findText (Entry.node e) d)
    texts ->
  nodeMarks texts pending d' = nodeMarks texts pending d.
Proof.
  induction texts as [|entry texts IH]; intros pending H; [reflexivity|].
  inversion H as [|? ? He Hr]; subst. cbn [nodeMarks]. rewrite He.
  destruct (findText (Entry.node entry) d) as [s|]; [|reflexivity].
  destruct (collectNodeMatches entry (len s) pending) as [nm pending'].
  now rewrite IH.
Qed.

(** The markers after a pass: every entry's node stands for markers that
    hold the slices of its text at its local ranges. *)
Lemma spliceEntries_marks :
  forall texts pending d,
    wellFormed d -> sortedMatches pending ->
    NoDup (map Entry.node texts) -> entriesIn texts d ->
    exists d',
      spliceEntries texts pending d = (Ok tt, d')
      /\ forall g,
           (forall j t, (nextId d <= j)%nat -> g j t = []) ->
           (forall e t, In e texts -> g (Entry.node e) t = []) ->
           flat_map (markerTextsBy g) (children (body d'))
           = flat_map (markerTextsBy (marksOr (nodeMarks texts pending d) g))
               (children (body d)).
Proof.
  induction texts as [|entry texts IH]; intros pending d Hwf Hs Hnd He.
  - exists d. split; [reflexivity|]. intros g _ _. reflexivity.
  - inversion He as [|? ? (s & Hfind & Hend) He']; subst.
    cbn [map] in Hnd. inversion Hnd as [|? ? Hnin Hnd']; subst.
    cbn [spliceEntries nodeMarks]. rewrite Hfind.
    rewrite (bind_run _ _ _ _ _ (readText_run _ _ _ Hfind)).
    destruct (collectNodeMatches_chain entry (len s) Hend
                ltac:(unfold len; lia) pending 0 Hs ltac:(unfold len; lia))
      as [Hc Hs'].
    { apply Forall_forall. intros m _. lia. }
    destruct (collectNodeMatches entry (len s) pending)
      as [nodeMatches pending']. cbn [fst snd] in *.
    destruct (forEach_wrapMatch_marks (Entry.node entry) nodeMatches 0 d s
                Hwf Hfind ltac:(lia) Hc)
      as (d1 & Hrun & Hwf1 & Hnext & _ & Hoth & Hmarks1).
    rewrite (bind_run _ _ _ _ _ Hrun).
    assert (He1 : entriesIn texts d1).
    { unfold entriesIn in *. rewrite Forall_forall in He' |- *.
      intros e Hin. destruct (He' e Hin) as (t & Ht & Hte).
      exists t. split; [|exact Hte]. apply Hoth; [|exact Ht].
      intros Heq. apply Hnin. rewrite <- Heq. now apply in_map. }
    assert (Hsame : nodeMarks texts pending' d1 = nodeMarks texts pending' d).
    { apply nodeMarks_ext. unfold entriesIn in He'.
      rewrite Forall_forall in He' |- *.
      intros e Hin. destruct (He' e Hin) as (t & Ht & _). rewrite Ht.
      apply Hoth; [|exact Ht].
      intros Heq. apply Hnin. rewrite <- Heq. now apply in_map. }
    destruct (IH pending' d1 Hwf1 Hs' Hnd' He1) as (d' & Hrun' & Hmarks').
    exists d'. split; [exact Hrun'|]. intros g Hg1 Hg2.
    rewrite Hmarks', Hsame, Hmarks1.
    + destruct (findText_found _ _ _ Hfind)
        as (i0 & t0 & c0 & h0 & kids & Hb & _).
      rewrite Hb. cbn [children].
      apply (proj2 (markerTextsBy_ext _ _)). intros j t _.
      unfold marksOr at 3. cbn [find fst snd].
      rewrite (Nat.eqb_sym (Entry.node entry) j).
      destruct (Nat.eqb_spec j (Entry.node entry)) as [->|_]; [|reflexivity].
      unfold marksOr.
      destruct (find _ (nodeMarks texts pending' d)) as [e|] eqn:E.
      * apply nodeMarks_keys in E. contradiction.
      * rewrite (Hg2 entry) by now left. reflexivity.
    + intros j t Hj. unfold marksOr.
      destruct (find _ (nodeMarks texts pending' d)) as [e|] eqn:E.
      * exfalso. apply nodeMarks_keys in E. apply in_map_iff in E.
        destruct E as (e' & <- & Hin).
        unfold entriesIn in He'. rewrite Forall_forall in He'.
        destruct (He' e' Hin) as (t' & Ht' & _).
        apply findText_in_ids in Ht'.
        destruct Hwf as [_ Hlt]. rewrite Forall_forall in Hlt.
        apply Hlt in Ht'. lia.
      * now apply Hg1.
    + intros j t Hj. apply Hg1. lia.
    + intros e t Hin. apply Hg2. now right.
Qed.

(** *** Slices *)

Lemma slice_slice s A B x y :
  0 <= A -> 0 <= x <= y -> y <= B - A ->
  slice (slice s A B) x y = slice s (A + x) (A + y).
Proof.
  intros HA Hx Hy. unfold slice.
  rewrite skipn_firstn_comm, firstn_firstn, skipn_skipn.
  f_equal; [lia|]. f_equal. lia.
Qed.

Lemma slice_parts s x y :
  0 <= x <= y ->
  s = firstn (Z.to_nat x) s ++ slice s x y ++ skipn (Z.to_nat y) s.
Proof.
  intros H. unfold slice.
  replace (skipn (Z.to_nat y) s)
    with (skipn (Z.to_nat (y - x)) (skipn (Z.to_nat x) s))
    by (rewrite skipn_skipn; f_equal; lia).
  now rewrite !firstn_skipn.
Qed.

Lemma slice_nonempty s x y :
  0 <= x < y -> y <= len s -> slice s x y <> [].
Proof.
  intros Hx Hy E.
  assert (H : List.length (slice s x y) = 0%nat) by now rewrite E.
  unfold slice, len in *. rewrite length_firstn, length_skipn in H. lia.
Qed.

Lemma lowerUnit_single c : c <> 304%N -> exists x, lowerUnit c = [x].
Proof.
  intros Hc. pose proof (lowerUnit_length c Hc) as H.
  destruct (lowerUnit c) as [|x [|y r]]; try discriminate. now exists x.
Qed.

Lemma toLowerCase_firstn_skipn s :
  ~ In 304%N s ->
  forall k, toLowerCase (firstn k s) = firstn k (toLowerCase s)
            /\ toLowerCase (skipn k s) = skipn k (toLowerCase s).
Proof.
  unfold toLowerCase. induction s as [|c s IH]; intros Hs k.
  - destruct k; split; reflexivity.
  - destruct k as [|k]; [split; reflexivity|].
    destruct (lowerUnit_single c) as (x & Hx).
    { intros ->. apply Hs. now left. }
    destruct (IH (fun H => Hs (or_intror H)) k) as [H1 H2].
    cbn [firstn skipn flat_map]. rewrite Hx. cbn [app firstn skipn].
    now rewrite H1, H2.
Qed.

Lemma toLowerCase_slice s x y :
  ~ In 304%N s -> toLowerCase (slice s x y) = slice (toLowerCase s) x y.
Proof.
  intros Hs. unfold slice.
  assert (Hk : ~ In 304%N (skipn (Z.to_nat x) s)).
  { intros H. apply Hs. revert H. clear.
    generalize (Z.to_nat x). intros k. revert s.
    induction k as [|k IH]; intros [|c s]; cbn; auto. }
  rewrite (proj1 (toLowerCase_firstn_skipn _ Hk _)).
  now rewrite (proj2 (toLowerCase_firstn_skipn s Hs _)).
Qed.

(** The part of an occurrence of [q] between [a] and [b] is a contiguous
    part of [q]. *)
Lemma slice_of_occurrence s q i a b :
  occursAt s q i ->
  Z.of_nat i <= a <= b -> b <= Z.of_nat i + len q ->
  exists u v, q = u ++ slice s a b ++ v.
Proof.
  intros Ho Ha Hb.
  assert (Hq : q = slice s (Z.of_nat i) (Z.of_nat i + len q)).
  { unfold slice, occursAt, len in *. rewrite Nat2Z.id.
    replace (Z.to_nat (Z.of_nat i + Z.of_nat (List.length q) - Z.of_nat i))
      with (List.length q) by lia.
    now symmetry. }
  exists (firstn (Z.to_nat (a - Z.of_nat i)) q),
         (skipn (Z.to_nat (b - Z.of_nat i)) q).
  replace (slice s a b) with (slice q (a - Z.of_nat i) (b - Z.of_nat i)).
  - apply slice_parts. lia.
  - rewrite Hq at 1. rewrite slice_slice by lia. f_equal; lia.
Qed.

(** *** The entries and the collected text *)

Lemma walked_findText root options d j s :
  wellFormed d ->
  In (j, s) (walked root options d) -> findText j d = Some s.
Proof.
  intros [Hnd _]. unfold walked.
  destruct (findNode root (body d)) as [r|] eqn:Er; [|intros []].
  apply (proj1 (find_found root)) in Er. destruct Er as [Hr _].
  destruct (proj1 subnodes_sub _ _ Hr) as [Hsub Hndr].
  destruct (proj1 (walk_nodes options) r) as [W1 W2].
  intros Hin. apply W1 in Hin.
  destruct r as [ir sr|ir tr cr hr lr]; [destruct Hin|].
  cbn [children] in Hin.
  assert (Hx : In (TextNode j s) (subnodes (body d))).
  { apply Hsub. cbn [subnodes]. now right. }
  unfold findText, findDesc.
  destruct (body d) as [i0 s0|i0 t0 c0 h0 kids].
  - destruct Hr as [E|[]]. discriminate.
  - cbn [children subnodes ids] in *.
    destruct Hx as [E|Hx]; [discriminate|].
    assert (Hk : NoDup (idsL kids)) by now inversion Hnd.
    destruct (findL j kids) as [x|] eqn:Ef.
    + destruct (proj2 (find_found j) _ _ Ef) as [Hxin Hid].
      replace x with (TextNode j s)
        by (apply (unique_node kids); auto).
      reflexivity.
    + exfalso. apply (proj2 (find_present_id j) _ Ef).
      rewrite (proj2 ids_subnodes).
      change j with (nodeId (TextNode j s)). now apply in_map.
Qed.

Lemma collect_slices nodes : forall pre,
  Forall (fun e => exists s,
              In (Entry.node e, s) nodes
              /\ len pre <= Entry.start e
              /\ Entry.end_ e = Entry.start e + len s
              /\ Entry.end_ e <= len (pre ++ flat_map snd nodes)
              /\ slice (pre ++ flat_map snd nodes)
                   (Entry.start e) (Entry.end_ e) = s)
    (collect nodes (len pre)).
Proof.
  induction nodes as [|[j s] r IH]; intros pre; cbn [collect].
  - constructor.
  - constructor.
    + exists s. cbn [Entry.node Entry.start Entry.end_ flat_map snd].
      split; [now left|]. split; [lia|]. split; [reflexivity|].
      split; [rewrite !len_app; unfold len; lia|].
      unfold slice.
      replace (Z.to_nat (len pre + len s - len pre)) with (List.length s)
        by (unfold len; lia).
      replace (Z.to_nat (len pre)) with (List.length pre)
        by (unfold len; lia).
      rewrite skipn_app, skipn_all, Nat.sub_diag. cbn [app skipn].
      rewrite firstn_app, firstn_all, Nat.sub_diag. cbn [firstn].
      now rewrite app_nil_r.
    + specialize (IH (pre ++ s)). rewrite len_app in IH.
      cbn [flat_map snd]. rewrite app_assoc.
      revert IH. apply Forall_impl. intros e (t & H1 & H2 & H3 & H4 & H5).
      exists t. split; [now right|]. split; [unfold len in *; lia|].
      now split.
Qed.

Lemma getTextNodes_slices root options d :
  wellFormed d ->
  entriesSlice (collectedText root options d)
    (fst (getTextNodes root options d)) d.
Proof.
  intros Hwf. unfold entriesSlice, getTextNodes, collectedText. cbn [fst].
  pose proof (collect_slices (walked root options d) []) as H.
  cbn [app] in H. change (len []) with 0 in H.
  revert H. apply Forall_impl. intros e (s & H1 & H2 & H3 & H4 & H5).
  split; [unfold len in *; lia|]. split; [exact H4|].
  rewrite H5. now apply (walked_findText root options).
Qed.

(** *** Where the local ranges come from *)

Lemma collectNodeMatches_from entry contentLength : forall pending,
  Forall (fun m => start m < end_ m) pending ->
  (forall lr, In lr (fst (collectNodeMatches entry contentLength pending)) ->
     exists m, In m pending /\ lr = localRange entry contentLength m
               /\ start m < Entry.end_ entry /\ Entry.start entry < end_ m)
  /\ (forall m, In m (snd (collectNodeMatches entry contentLength pending)) ->
                In m pending).
Proof.
  induction pending as [|m rest IH]; intros Hall; cbn [collectNodeMatches].
  - split; intros ? [].
  - inversion Hall as [|? ? Hm Hrest]; subst.
    destruct ((Entry.start entry <=? start m) && (end_ m <=? Entry.end_ entry))
      eqn:E1.
    + destruct (IH Hrest) as [IH1 IH2].
      destruct (collectNodeMatches entry contentLength rest) as [nm pend'].
      cbn [fst snd] in *. apply andb_true_iff in E1.
      destruct E1 as [Ea Eb]. apply Z.leb_le in Ea, Eb. split.
      * intros lr [<-|Hin].
        -- exists m. split; [now left|]. split; [reflexivity|]. lia.
        -- destruct (IH1 lr Hin) as (m' & Hm' & Hrest').
           exists m'. split; [now right | exact Hrest'].
      * intros m' Hin. right. now apply IH2.
    + destruct ((start m <? Entry.end_ entry) && (Entry.start entry <? end_ m))
        eqn:E2; cbn [fst snd].
      * apply andb_true_iff in E2. destruct E2 as [Ea Eb].
        apply Z.ltb_lt in Ea, Eb. split; [|auto].
        intros lr [<-|[]]. exists m. split; [now left|]. now split.
      * split; [intros lr [] | auto].
Qed.

(** Every piece of text that a pass wraps is a non-empty slice of the
    collected text inside one of the matches. *)
Lemma nodeMarks_sound T : forall texts pending d,
  entriesSlice T texts d ->
  Forall (fun e => Entry.start e < Entry.end_ e) texts ->
  Forall (fun m => start m < end_ m) pending ->
  forall j ps t,
    In (j, ps) (nodeMarks texts pending d) -> In t ps ->
    exists m a b, In m pending /\ 0 <= a /\ start m <= a /\ a < b
                  /\ b <= end_ m /\ b <= len T /\ t = slice T a b.
Proof.
  induction texts as [|entry texts IH]; intros pending d Hsp Hne Hall j ps t;
    cbn [nodeMarks]; [intros []|].
  inversion Hsp as [|? ? (He1 & He2 & Hfind) Hsp']; subst.
  inversion Hne as [|? ? He0 Hne']; subst.
  rewrite Hfind.
  set (s := slice T (Entry.start entry) (Entry.end_ entry)) in *.
  assert (Hlen : len s = Entry.end_ entry - Entry.start entry).
  { unfold s, slice, len in *. rewrite length_firstn, length_skipn. lia. }
  destruct (collectNodeMatches_from entry (len s) pending Hall) as [H1 H2].
  destruct (collectNodeMatches entry (len s) pending) as [nm pend'].
  cbn [fst snd] in *. intros [Heq|Hin] Ht.
  - injection Heq as <- <-. apply in_map_iff in Ht.
    destruct Ht as (lr & <- & Hlr).
    destruct (H1 lr Hlr) as (m & Hm & -> & Ha & Hb).
    exists m, (Z.max (Entry.start entry) (start m)),
           (Z.min (Entry.end_ entry) (end_ m)).
    pose proof (proj1 (Forall_forall _ _) Hall m Hm) as Hlt. cbn beta in Hlt.
    split; [exact Hm|]. repeat (split; [lia|]).
    unfold localRange. cbn [start end_]. rewrite Hlen. unfold s.
    rewrite slice_slice by lia. f_equal; lia.
  - assert (Hall' : Forall (fun m => start m < end_ m) pend').
    { rewrite Forall_forall in *. auto. }
    destruct (IH pend' d Hsp' Hne' Hall' j ps t Hin Ht)
      as (m & a & b & Hm & Hrest).
    exists m, a, b. split; [now apply H2 | exact Hrest].
Qed.

(** *** The markers after a call *)

Lemma in_markerTextsBy f t :
  (forall x, In t (markerTextsBy f x) ->
             In t (markerTextsBy noMarks x) \/ exists j s, In t (f j s))
  /\ (forall l, In t (flat_map (markerTextsBy f) l) ->
                In t (flat_map (markerTextsBy noMarks) l)
                \/ exists j s, In t (f j s)).
Proof.
  apply Node_list_ind.
  - intros i s H. right. now exists i, s.
  - intros i c tg h l IH H. cbn [markerTextsBy] in *.
    apply in_app_or in H. destruct H as [H|H].
    + left. apply in_or_app. now left.
    + destruct (IH H) as [H'|H']; [left | now right].
      apply in_or_app. now right.
  - intros [].
  - intros x r Hx Hr H. cbn [flat_map] in *.
    apply in_app_or in H. destruct H as [H|H].
    + destruct (Hx H) as [H'|H']; [left | now right].
      apply in_or_app. now left.
    + destruct (Hr H) as [H'|H']; [left | now right].
      apply in_or_app. now right.
Qed.

Lemma in_marksOr marks t j s :
  In t (marksOr marks noMarks j s) ->
  exists ps, In (j, ps) marks /\ In t ps.
Proof.
  unfold marksOr.
  destruct (find _ marks) as [[k ps]|] eqn:E; [|intros []].
  apply find_some in E. destruct E as [Hin Hk]. cbn [fst snd] in *.
  apply Nat.eqb_eq in Hk. subst k. intros Ht. now exists ps.
Qed.

(** The markers a call leaves: in the document as it is once the old
    markers are cleared, every collected node stands for the markers around
    the slices of its text at its local ranges. *)
Lemma highlightNode_marks root selection p :
  wellFormed (document p) ->
  getSelectedText selection <> [] ->
  getSelectedText selection <> lastSelectedText p ->
  let d0 := removeHighlights (document p) in
  let texts := fst (getTextNodes root defaultOptions d0) in
  let mergedText := snd (getTextNodes root defaultOptions d0) in
  let matches :=
    filter (fun m => negb (isInSelection m texts selection))
      (findMatches mergedText (getSelectedText selection)) in
  markerTexts (document (snd (highlightNode root selection p)))
  = flat_map (markerTextsBy (marksOr (nodeMarks texts matches d0) noMarks))
      (children (body d0)).
Proof.
  intros Hwf Hq1 Hq2. cbv zeta. apply removeHighlights_wellFormed in Hwf.
  unfold highlightNode.
  assert (E1 : Js.eqb (getSelectedText selection) [] = false).
  { apply not_true_is_false. intros H. now apply jseqb_eq in H. }
  assert (E2 : Js.eqb (getSelectedText selection) (lastSelectedText p)
               = false).
  { apply not_true_is_false. intros H. now apply jseqb_eq in H. }
  rewrite E1, E2. cbn [negb andb].
  pose proof (getTextNodes_entriesIn root defaultOptions _ Hwf) as He.
  cbv zeta in He.
  destruct (getTextNodes root defaultOptions
              (removeHighlights (document p))) as [texts mergedText].
  cbn [fst snd] in *. destruct He as [Hnd He].
  destruct texts as [|e texts].
  - cbn. apply markerTexts_By.
  - replace (0 <? Z.of_nat (List.length (e :: texts))) with true
      by (symmetry; apply Z.ltb_lt; cbn [List.length]; lia).
    cbn [andb]. unfold highlightMatches.
    set (filtered := filter _ _).
    assert (Hs : sortedMatches filtered).
    { apply sortedMatches_filter, findMatches_sorted. }
    rewrite (sortByStart_sorted _ Hs).
    destruct (spliceEntries_marks (e :: texts) filtered _ Hwf Hs Hnd He)
      as (d' & Hd & Hmarks).
    rewrite Hd. cbn [snd document]. rewrite markerTexts_By.
    apply Hmarks; reflexivity.
Qed.

Lemma mergedText_collectedText root options d :
  snd (getTextNodes root options d)
  = toLowerCase (collectedText root options d).
Proof.
  unfold getTextNodes, collectedText, toLowerCase. cbn [snd].
  induction (walked root options d) as [|n r IH]; [reflexivity|].
  cbn [flat_map]. now rewrite flat_map_app, IH.
Qed.

Lemma getTextNodes_default_nonempty root d :
  Forall (fun e => Entry.start e < Entry.end_ e)
    (fst (getTextNodes root defaultOptions d)).
Proof.
  unfold getTextNodes. cbn [fst].
  pose proof (collect_slices (walked root defaultOptions d) []) as H.
  change (len []) with 0 in H. revert H. apply Forall_impl.
  intros e (s & Hin & _ & Hend & _).
  assert (Hs : s <> []).
  { unfold walked in Hin.
    destruct (findNode root (body d)) as [r|]; [|destruct Hin].
    apply in_walk in Hin. destruct Hin as (p & _ & Hkid & Hacc).
    destruct p as [i t|i t c h l]; [destruct Hkid|].
    cbn [acceptNode] in Hacc. intros ->.
    destruct (existsb _ EXCLUDED_TAGS); [discriminate|].
    destruct (excludeHidden defaultOptions && h); discriminate. }
  rewrite Hend. unfold len. destruct s; [congruence | cbn; lia].
Qed.

Lemma latin1_no_dotted_I s : latin1 s -> ~ In 304%N s.
Proof.
  unfold latin1. rewrite Forall_forall. intros H Hin.
  specialize (H _ Hin). cbn beta in H. lia.
Qed.

Lemma highlightNode_marker_parts
    (root : nat) (selection : option Selection) (p : Page) :
  wellFormed (document p) ->
  ~ In 304%N
      (collectedText root defaultOptions (removeHighlights (document p))) ->
  Forall (fun t => t <> []
                   /\ exists u v,
                        getSelectedText selection = u ++ toLowerCase t ++ v)
    (markerTexts (document (snd (highlightNode root selection p)))).
Proof.
  intros Hwf Hno.
  destruct (Js.eqb (getSelectedText selection) []) eqn:E1.
  { apply jseqb_eq in E1.
    rewrite (highlightNode_skip root selection p (or_introl E1)).
    cbn [snd document]. unfold markerTexts.
    now rewrite removeHighlights_no_markers. }
  destruct (Js.eqb (getSelectedText selection) (lastSelectedText p)) eqn:E2.
  { apply jseqb_eq in E2.
    rewrite (highlightNode_skip root selection p (or_intror E2)).
    cbn [snd document]. unfold markerTexts.
    now rewrite removeHighlights_no_markers. }
  assert (Hq1 : getSelectedText selection <> []).
  { intros H. apply jseqb_eq in H. congruence. }
  assert (Hq2 : getSelectedText selection <> lastSelectedText p).
  { intros H. apply jseqb_eq in H. congruence. }
  rewrite (highlightNode_marks root selection p Hwf Hq1 Hq2).
  pose proof (removeHighlights_wellFormed _ Hwf) as Hwf0.
  set (d0 := removeHighlights (document p)) in *.
  set (q := getSelectedText selection) in *.
  apply Forall_forall. intros t Ht.
  destruct (proj2 (in_markerTextsBy _ t) _ Ht) as [Hold|(j & s & Hnew)].
  { rewrite <- markerTexts_By in Hold. unfold markerTexts, d0 in Hold.
    rewrite removeHighlights_no_markers in Hold. destruct Hold. }
  apply in_marksOr in Hnew. destruct Hnew as (ps & Hps & Htps).
  match type of Hps with
  | In _ (nodeMarks _ ?matches _) =>
      assert (Hne : Forall (fun m => start m < end_ m) matches)
  end.
  { apply Forall_forall. intros m Hm. apply filter_In in Hm.
    destruct Hm as [Hm _].
    pose proof (findMatches_ranges_are_occurrences_aux _ _ m Hm). lia. }
  destruct (nodeMarks_sound (collectedText root defaultOptions d0) _ _ d0
              (getTextNodes_slices root defaultOptions d0 Hwf0)
              (getTextNodes_default_nonempty root d0)
              Hne j ps t Hps Htps)
    as (m & a & b & Hm & Ha0 & Ha & Hab & Hb & HbT & ->).
  split; [apply slice_nonempty; lia|].
  apply filter_In in Hm. destruct Hm as [Hm _].
  destruct (findMatches_ranges_are_occurrences_aux _ _ m Hm)
    as (H0 & Hlt & Hend & Hlen & Hocc).
  rewrite toLowerCase_slice by exact Hno.
  rewrite mergedText_collectedText in Hocc.
  apply (slice_of_occurrence _ _ _ a b Hocc); lia.
Qed.

(** X9. What a marker holds. [highlightNode] is called on a well-formed
    document whose [<html>] and [<body>] do not have the class
    [highlight]; the collected text has code units below U+0100 only and
    the selection is in the range in which lower-casing is followed
    exactly. Then the call returns, and every element with the class in
    the body afterwards wraps a piece of text that is not empty and that
    is, in lower case, the selected text or a contiguous part of it (the
    part of a match inside one text node). *)
Theorem highlightNode_markers_hold_parts_of_the_selection
    (documentElement : list jsstring) (root : nat)
    (selection : option Selection) (p : Page) :
  wellFormed (document p) ->
  Whole.isMarker documentElement = false ->
  isHighlight (body (document p)) = false ->
  latin1 (collectedText root defaultOptions (removeHighlights (document p))) ->
  (forall sel, selection = Some sel -> caseModelled (toString sel)) ->
  exists p',
    Whole.highlightNode documentElement root selection p = Whole.Returned p'
    /\ Forall (fun t => t <> []
                        /\ exists u v,
                             getSelectedText selection
                             = u ++ toLowerCase t ++ v)
         (Whole.markerTexts (document p')).
Proof.
  intros Hwf E1 E2 Hlatin _.
  exists (snd (highlightNode root selection p)).
  split; [now apply Whole_highlightNode_returns|].
  unfold Whole.markerTexts. rewrite Whole_markers.
  - apply (highlightNode_marker_parts root selection p Hwf).
    now apply latin1_no_dotted_I.
  - now rewrite highlightNode_body_stays.
Qed.

Lemma highlightNode_markers_hold_parts_of_the_selection_witness :
  exists p',
    Whole.highlightNode [] 0 (selectIn 2 0 2 "ab") twice = Whole.Returned p'
    /\ Forall (fun t => t <> []
                        /\ exists u v,
                             getSelectedText (selectIn 2 0 2 "ab")
                             = u ++ toLowerCase t ++ v)
         (Whole.markerTexts (document p')).
Proof.
  refine (highlightNode_markers_hold_parts_of_the_selection
            [] 0 (selectIn 2 0 2 "ab") twice twice_wellFormed
            eq_refl eq_refl _ _).
  - vm_compute. repeat constructor.
  - intros sel E. injection E as <-. vm_compute. repeat constructor.
Defined.

(** *** The markers in document order *)

Lemma markerTextsBy_vanish F :
  (forall x, markersIn x = [] ->
             (forall j s, In (TextNode j s) (subnodes x) -> F j s = []) ->
             markerTextsBy F x = [])
  /\ (forall l, flat_map markersIn l = [] ->
                (forall j s, In (TextNode j s) (descL l) -> F j s = []) ->
                flat_map (markerTextsBy F) l = []).
Proof.
  apply Node_list_ind.
  - intros i s _ H. apply H. now left.
  - intros i t c h l IH Hm H. cbn [markersIn markerTextsBy] in *.
    apply app_eq_nil in Hm. destruct Hm as [Hm1 Hm2].
    destruct (isHighlight (Element i t c h l)); [discriminate|].
    cbn [app]. apply IH; [exact Hm2|].
    intros j s Hin. apply H. cbn [subnodes]. now right.
  - reflexivity.
  - intros x r Hx Hr Hm H. cbn [flat_map] in *. unfold descL in H.
    cbn [flat_map] in H. apply app_eq_nil in Hm. destruct Hm as [Hm1 Hm2].
    rewrite Hx, Hr; auto.
    + intros j s Hin. apply H, in_or_app. now right.
    + intros j s Hin. apply H, in_or_app. now left.
Qed.

Lemma in_subnodes_ids x y : In y (subnodes x) -> In (nodeId y) (ids x).
Proof. intros H. rewrite (proj1 ids_subnodes). now apply in_map. Qed.

Lemma in_descL_ids l y : In y (descL l) -> In (nodeId y) (idsL l).
Proof. intros H. rewrite (proj2 ids_subnodes). now apply in_map. Qed.

Lemma NoDup_app_disjoint_r {A} (l1 l2 : list A) a :
  NoDup (l1 ++ l2) -> In a l2 -> ~ In a l1.
Proof. intros H H2 H1. exact (NoDup_app_disjoint l1 l2 a H H1 H2). Qed.

Lemma walkKids_cons options parent k r :
  walkKids options parent (k :: r)
  = walkKids options parent [k] ++ walkKids options parent r.
Proof. unfold walkKids. now rewrite <- flat_map_app. Qed.

(** In a tree without markers, the marker texts that the text nodes stand
    for come in the order in which the walker gives the nodes. *)
Lemma markerTextsBy_walk options F :
  (forall x, NoDup (ids x) -> markersIn x = [] ->
             (forall j s, In (TextNode j s) (subnodes x) ->
                          ~ In (j, s) (walk options x) -> F j s = []) ->
             markerTextsBy F x
             = flat_map (fun n => F (fst n) (snd n)) (walk options x))
  /\ (forall l parent, NoDup (idsL l) -> flat_map markersIn l = [] ->
                (forall j s, In (TextNode j s) (descL l) ->
                             ~ In (j, s) (walkKids options parent l) ->
                             F j s = []) ->
                flat_map (markerTextsBy F) l
                = flat_map (fun n => F (fst n) (snd n))
                    (walkKids options parent l)).
Proof.
  apply Node_list_ind.
  - intros i s _ _ H. cbn. apply H; [now left | intros []].
  - intros i t c h l IH Hnd Hm H. rewrite walk_element.
    cbn [markersIn markerTextsBy] in *.
    apply app_eq_nil in Hm. destruct Hm as [Hm1 Hm2].
    destruct (isHighlight (Element i t c h l)); [discriminate|].
    cbn [app]. apply IH; [now inversion Hnd | exact Hm2 |].
    intros j s Hin. rewrite <- walk_element. apply H. cbn [subnodes].
    now right.
  - reflexivity.
  - intros k r Hk Hr parent Hnd Hm H.
    unfold idsL in Hnd. cbn [flat_map] in Hnd, Hm.
    unfold descL in H. cbn [flat_map] in H.
    apply app_eq_nil in Hm. destruct Hm as [Hm1 Hm2].
    rewrite walkKids_cons in *.
    cbn [flat_map]. rewrite flat_map_app.
    assert (Hhead : forall j s, In (j, s) (walkKids options parent [k]) ->
                                In (TextNode j s) (subnodes k)).
    { intros j s Hin.
      apply (proj1 (proj2 (walk_nodes options) [k] parent)) in Hin.
      unfold descL in Hin. cbn [flat_map] in Hin.
      now rewrite app_nil_r in Hin. }
    assert (Htail : forall j s, In (j, s) (walkKids options parent r) ->
                                In (TextNode j s) (descL r)).
    { intros j s. apply (proj1 (proj2 (walk_nodes options) r parent)). }
    f_equal.
    + destruct k as [j s|i t c h l].
      * unfold walkKids. cbn [flat_map markerTextsBy]. rewrite app_nil_r.
        destruct (acceptNode options (Some parent) s) eqn:E;
          cbn [flat_map fst snd]; rewrite ?app_nil_r; try reflexivity.
        -- apply H; [apply in_or_app; left; now left|].
           unfold walkKids at 1. cbn [flat_map]. rewrite E. cbn [app].
           intros Hin. apply Htail, in_descL_ids in Hin.
           apply (NoDup_app_disjoint _ _ j Hnd); [now left | exact Hin].
        -- apply H; [apply in_or_app; left; now left|].
           unfold walkKids at 1. cbn [flat_map]. rewrite E. cbn [app].
           intros Hin. apply Htail, in_descL_ids in Hin.
           apply (NoDup_app_disjoint _ _ j Hnd); [now left | exact Hin].
      * unfold walkKids at 1. cbn [flat_map]. rewrite app_nil_r.
        apply Hk; [eapply NoDup_app_remove_r; eauto | exact Hm1 |].
        intros j s Hin Hno. apply H; [apply in_or_app; now left|].
        intros Hin'. apply in_app_or in Hin'. destruct Hin' as [Hin'|Hin'].
        -- unfold walkKids in Hin'. cbn [flat_map] in Hin'.
           rewrite app_nil_r in Hin'. contradiction.
        -- apply Htail, in_descL_ids in Hin'.
           apply in_subnodes_ids in Hin.
           exact (NoDup_app_disjoint _ _ _ Hnd Hin Hin').
    + apply Hr; [eapply NoDup_app_remove_l; eauto | exact Hm2 |].
      intros j s Hin Hno. apply H; [apply in_or_app; now right|].
      intros Hin'. apply in_app_or in Hin'. destruct Hin' as [Hin'|Hin'].
      * apply Hhead, in_subnodes_ids in Hin'.
        apply in_descL_ids in Hin.
        exact (NoDup_app_disjoint _ _ _ Hnd Hin' Hin).
      * contradiction.
Qed.

(** A tree without markers in which only text nodes below [r] stand for
    markers. *)
Lemma markerTextsBy_below root F :
  (forall x r, nodeId x <> root -> findNode root x = Some r ->
               NoDup (ids x) -> markersIn x = [] ->
               (forall j s, In (TextNode j s) (subnodes x) ->
                            ~ In (TextNode j s) (descL (children r)) ->
                            F j s = []) ->
               markerTextsBy F x = flat_map (markerTextsBy F) (children r))
  /\ (forall l r, findL root l = Some r ->
                  NoDup (idsL l) -> flat_map markersIn l = [] ->
                  (forall j s, In (TextNode j s) (descL l) ->
                               ~ In (TextNode j s) (descL (children r)) ->
                               F j s = []) ->
                  flat_map (markerTextsBy F) l
                  = flat_map (markerTextsBy F) (children r)).
Proof.
  apply Node_list_ind.
  - intros i s r Hne Hf. cbn [findNode nodeId] in *.
    destruct (Nat.eqb_spec i root); [contradiction | discriminate].
  - intros i t c h l IH r Hne Hf Hnd Hm H.
    rewrite findNode_element in Hf. cbn [nodeId] in Hne.
    destruct (Nat.eqb_spec i root); [contradiction|].
    cbn [markersIn markerTextsBy] in *.
    apply app_eq_nil in Hm. destruct Hm as [Hm1 Hm2].
    destruct (isHighlight (Element i t c h l)); [discriminate|].
    cbn [app]. apply IH; auto; [now inversion Hnd|].
    intros j s Hin. apply H. cbn [subnodes]. now right.
  - intros r Hf. discriminate.
  - intros k rest Hk Hrest r Hf Hnd Hm H.
    unfold idsL in Hnd. cbn [flat_map findL] in Hnd, Hm, Hf.
    unfold descL in H. cbn [flat_map] in H.
    apply app_eq_nil in Hm. destruct Hm as [Hm1 Hm2]. cbn [flat_map].
    destruct (findNode root k) as [x|] eqn:Ek.
    + injection Hf as ->.
      destruct (proj1 (find_found root) _ _ Ek) as [Hr Hid].
      destruct (proj1 subnodes_sub _ _ Hr) as [Hsub _].
      rewrite (proj2 (markerTextsBy_vanish F) rest Hm2), app_nil_r.
      * destruct (Nat.eqb_spec (nodeId k) root) as [E|E].
        -- assert (r = k).
           { destruct k; cbn [findNode nodeId] in *;
               rewrite (proj2 (Nat.eqb_eq _ _) E) in Ek; congruence. }
           subst r. destruct k as [j s|i t c h l].
           ++ cbn [markerTextsBy children flat_map].
              apply H; [apply in_or_app; left; now left | intros []].
           ++ cbn [markersIn markerTextsBy children] in *.
              apply app_eq_nil in Hm1. destruct Hm1 as [Hm1 _].
              now destruct (isHighlight (Element i t c h l)).
        -- apply Hk; auto; [eapply NoDup_app_remove_r; eauto|].
           intros j s Hin. apply H, in_or_app. now left.
      * intros j s Hin. apply H; [apply in_or_app; now right|].
        intros Hin'. apply in_descL_ids in Hin.
        assert (Hk' : In (TextNode j s) (subnodes k)).
        { apply Hsub. destruct r; [destruct Hin'|]. cbn [subnodes]. now right. }
        apply in_subnodes_ids in Hk'.
        exact (NoDup_app_disjoint _ _ _ Hnd Hk' Hin).
    + destruct (proj2 (find_found root) _ _ Hf) as [Hr Hid].
      destruct (proj2 subnodes_sub _ _ Hr) as [Hsub _].
      rewrite (proj1 (markerTextsBy_vanish F) k Hm1).
      * cbn [app]. apply Hrest; auto; [eapply NoDup_app_remove_l; eauto|].
        intros j s Hin. apply H, in_or_app. now right.
      * intros j s Hin. apply H; [apply in_or_app; now left|].
        intros Hin'. apply in_subnodes_ids in Hin.
        assert (Hk' : In (TextNode j s) (descL rest)).
        { apply Hsub. destruct r; [destruct Hin'|]. cbn [subnodes]. now right. }
        apply in_descL_ids in Hk'.
        exact (NoDup_app_disjoint _ _ _ Hnd Hin Hk').
Qed.

Lemma marksOr_in_order g : forall marks (nodes : list (nat * jsstring)),
  map fst marks = map fst nodes -> NoDup (map fst nodes) ->
  flat_map (fun n => marksOr marks g (fst n) (snd n)) nodes
  = flat_map snd marks.
Proof.
  induction marks as [|[k ps] marks IH]; intros [|[j s] nodes] Hk Hnd;
    try discriminate; [reflexivity|].
  cbn [map fst] in Hk, Hnd. injection Hk as -> Hk.
  inversion Hnd as [|? ? Hnin Hnd']; subst.
  cbn [flat_map fst snd]. f_equal.
  - unfold marksOr. cbn [find fst snd]. now rewrite Nat.eqb_refl.
  - rewrite <- (IH nodes Hk Hnd'). rewrite !flat_map_concat_map. f_equal.
    apply map_ext_in.
    intros [j' s'] Hin. unfold marksOr. cbn [find fst snd].
    destruct (Nat.eqb_spec j j') as [->|_]; [|reflexivity].
    exfalso. apply Hnin. change j' with (fst (j', s')). now apply in_map.
Qed.

Lemma markersIn_sub :
  (forall x r, In r (subnodes x) -> markersIn x = [] -> markersIn r = [])
  /\ (forall l r, In r (descL l) -> flat_map markersIn l = [] ->
                  markersIn r = []).
Proof.
  apply Node_list_ind.
  - intros i s r [<-|[]] H. exact H.
  - intros i t c h l IH r [<-|Hr] H; [exact H|].
    apply (IH r Hr). cbn [markersIn] in H.
    now apply app_eq_nil in H.
  - intros r [].
  - intros x l Hx Hl r Hr H. unfold descL in Hr. cbn [flat_map] in *.
    apply app_eq_nil in H. destruct H as [H1 H2].
    apply in_app_or in Hr. destruct Hr as [Hr|Hr]; eauto.
Qed.

Lemma marksOr_absent marks j s :
  ~ In j (map fst marks) -> marksOr marks noMarks j s = [].
Proof.
  intros H. unfold marksOr.
  destruct (find _ marks) as [e|] eqn:E; [|reflexivity].
  exfalso. apply H. apply find_some in E. destruct E as [Hin Hk].
  apply Nat.eqb_eq in Hk. subst j. now apply in_map.
Qed.

(** In a document without markers, the markers that the collected nodes
    stand for come in the order of the collection. *)
Lemma markerTextsBy_collected root options d marks :
  NoDup (ids (body d)) -> markers d = [] ->
  map fst marks = map fst (walked root options d) ->
  flat_map (markerTextsBy (marksOr marks noMarks)) (children (body d))
  = flat_map snd marks.
Proof.
  intros Hnd Hm Hk. unfold markers in Hm. unfold walked in Hk.
  assert (Hnone : marks = [] ->
            flat_map (markerTextsBy (marksOr marks noMarks))
              (children (body d)) = flat_map snd marks).
  { intros ->. cbn [flat_map].
    apply (proj2 (markerTextsBy_vanish _)); [exact Hm | reflexivity]. }
  assert (Hkids : forall parent l,
            NoDup (idsL l) -> flat_map markersIn l = [] ->
            map fst marks = map fst (walkKids options parent l) ->
            flat_map (markerTextsBy (marksOr marks noMarks)) l
            = flat_map snd marks).
  { intros parent l Hndl Hml Hkl.
    rewrite (proj2 (markerTextsBy_walk options _) l parent Hndl Hml).
    - apply marksOr_in_order; [exact Hkl|].
      now apply (proj2 (walk_nodes options)).
    - intros j s Hin Hno. apply marksOr_absent. rewrite Hkl.
      intros Hj. apply in_map_iff in Hj. destruct Hj as ([j' s'] & Hj & Hin').
      cbn [fst] in Hj. subst j'.
      pose proof (proj1 (proj2 (walk_nodes options) l parent) _ _ Hin')
        as Hd.
      pose proof (unique_node l _ _ Hndl Hin Hd eq_refl) as Heq.
      injection Heq as ->. contradiction. }
  destruct (body d) as [i0 s0|i0 t0 c0 h0 kids] eqn:Hb.
  - apply Hnone. cbn [findNode nodeId] in Hk.
    destruct (i0 =? root)%nat; cbn in Hk; now apply map_eq_nil in Hk.
  - rewrite findNode_element in Hk. cbn [children] in *.
    assert (Hndk : NoDup (idsL kids)) by now inversion Hnd.
    destruct (Nat.eqb_spec i0 root) as [E|E].
    + apply (Hkids (Element i0 t0 c0 h0 kids)); auto.
    + destruct (findL root kids) as [r|] eqn:Er.
      * destruct (proj2 (find_found root) _ _ Er) as [Hr _].
        destruct (proj2 subnodes_sub _ _ Hr) as [Hsub Hndr].
        rewrite (proj2 (markerTextsBy_below root _) kids r Er Hndk Hm).
        -- destruct r as [ir sr|ir tr cr hr lr].
           ++ cbn in Hk. apply map_eq_nil in Hk. subst marks. reflexivity.
           ++ cbn [children]. rewrite walk_element in Hk.
              apply (Hkids (Element ir tr cr hr lr)); auto.
              ** specialize (Hndr Hndk). now inversion Hndr.
              ** pose proof (proj2 markersIn_sub _ _ Hr Hm) as Hmr.
                 cbn [markersIn] in Hmr. now apply app_eq_nil in Hmr.
        -- intros j s Hin Hno. apply marksOr_absent. rewrite Hk.
           intros Hj. apply in_map_iff in Hj.
           destruct Hj as ([j' s'] & Hj & Hin'). cbn [fst] in Hj. subst j'.
           pose proof (proj1 (proj1 (walk_nodes options) r) _ _ Hin') as Hd.
           assert (Hd' : In (TextNode j s') (descL kids)).
           { apply Hsub. destruct r; [destruct Hd|]. cbn [subnodes].
             now right. }
           pose proof (unique_node kids _ _ Hndk Hin Hd' eq_refl) as Heq.
           injection Heq as ->. contradiction.
      * apply Hnone. cbn in Hk. now apply map_eq_nil in Hk.
Qed.

(** *** Matches that lie inside one node *)

Lemma tiles_after : forall texts lo hi,
  tiles lo texts hi -> forall e, In e texts -> lo <= Entry.start e.
Proof.
  induction texts as [|x r IH]; intros lo hi Ht e; [intros []|].
  cbn [tiles] in Ht. destruct Ht as (Hs & Hle & Ht).
  intros [<-|Hin]; [lia|]. specialize (IH _ _ Ht e Hin). lia.
Qed.

Lemma collectNodeMatches_inside entry texts hi contentLength :
  tiles (Entry.start entry) (entry :: texts) hi ->
  forall pending,
    sortedMatches pending ->
    Forall (fun m => start m < end_ m) pending ->
    Forall (insideAnEntry (entry :: texts)) pending ->
    exists inside rest,
      pending = inside ++ rest
      /\ collectNodeMatches entry contentLength pending
         = (map (localRange entry contentLength) inside, rest)
      /\ Forall (fun m => Entry.start entry <= start m
                          /\ end_ m <= Entry.end_ entry) inside
      /\ Forall (insideAnEntry texts) rest.
Proof.
  intros Ht. cbn [tiles] in Ht. destruct Ht as (_ & Hle & Ht).
  pose proof (tiles_after _ _ _ Ht) as Hafter.
  induction pending as [|m ps IH]; intros Hs Hne Hin.
  - exists [], []. repeat split; constructor.
  - inversion Hne as [|? ? Hm Hne']; subst.
    inversion Hin as [|? ? Hmi Hin']; subst.
    cbn [collectNodeMatches].
    destruct ((Entry.start entry <=? start m) && (end_ m <=? Entry.end_ entry))
      eqn:E1.
    + destruct (IH (sortedMatches_tail _ _ Hs) Hne' Hin')
        as (inside & rest & -> & -> & H1 & H2).
      exists (m :: inside), rest. apply andb_true_iff in E1.
      destruct E1 as [Ea Eb]. apply Z.leb_le in Ea, Eb.
      repeat split; auto.
    + assert (Hlater : forall m', In m' (m :: ps) ->
                start m <= start m' -> start m' < end_ m' ->
                insideAnEntry (entry :: texts) m' -> insideAnEntry texts m'
                /\ Entry.end_ entry <= start m').
      { assert (Hm0 : Entry.end_ entry <= start m).
        { destruct Hmi as (e & [<-|He] & Ha & Hb).
          - apply andb_false_iff in E1.
            destruct E1 as [E1|E1]; [apply Z.leb_gt in E1|apply Z.leb_gt in E1];
              lia.
          - specialize (Hafter e He). lia. }
        intros m' _ Hord Hlt (e & [<-|He] & Ha & Hb); [lia|].
        split; [now exists e | lia]. }
      replace ((start m <? Entry.end_ entry) && (Entry.start entry <? end_ m))
        with false.
      * exists [], (m :: ps).
        split; [reflexivity|]. split; [reflexivity|].
        split; [constructor|].
        destruct Hs as [_ Hord]. inversion Hord as [|? ? Hall _]; subst.
        rewrite Forall_forall in *. intros m' [<-|Hm'].
        -- apply Hlater; auto; [now left | lia].
        -- apply Hlater; [now right | | apply Hne'; auto
                          | apply Hin'; auto].
           specialize (Hall m' Hm'). cbn beta in Hall. lia.
      * symmetry. apply andb_false_iff. left. apply Z.ltb_ge.
        destruct (Hlater m (or_introl eq_refl) ltac:(lia) Hm Hmi). lia.
Qed.

Lemma nodeMarks_inside T : forall texts pending d hi lo,
  entriesSlice T texts d ->
  tiles lo texts hi ->
  sortedMatches pending ->
  Forall (fun m => start m < end_ m) pending ->
  Forall (insideAnEntry texts) pending ->
  map fst (nodeMarks texts pending d) = map Entry.node texts
  /\ flat_map snd (nodeMarks texts pending d)
     = map (fun m => slice T (start m) (end_ m)) pending.
Proof.
  induction texts as [|entry texts IH]; intros pending d hi lo Hsp Ht Hs Hne Hin.
  - cbn [nodeMarks map flat_map]. split; [reflexivity|].
    destruct pending as [|m ps]; [reflexivity|].
    inversion Hin as [|? ? (e & [] & _) _].
  - inversion Hsp as [|? ? (He1 & He2 & Hfind) Hsp']; subst.
    cbn [nodeMarks]. rewrite Hfind.
    set (s := slice T (Entry.start entry) (Entry.end_ entry)) in *.
    assert (Hlen : len s = Entry.end_ entry - Entry.start entry).
    { unfold s, slice, len in *. rewrite length_firstn, length_skipn. lia. }
    assert (Ht0 : tiles (Entry.start entry) (entry :: texts) hi).
    { cbn [tiles] in *. destruct Ht as (-> & H1 & H2). auto. }
    destruct (collectNodeMatches_inside entry texts hi (len s) Ht0 pending
                Hs Hne Hin) as (inside & rest & -> & Hc & H1 & H2).
    pose proof (collectNodeMatches_chain entry (len s) ltac:(lia)
                  ltac:(lia) (inside ++ rest) 0 Hs ltac:(lia)) as Hch.
    rewrite Hc in *. cbn [fst snd] in Hch.
    destruct Hch as [_ Hs'].
    { apply Forall_forall. intros m _. lia. }
    cbn [tiles] in Ht. destruct Ht as (_ & _ & Ht').
    destruct (IH rest d hi _ Hsp' Ht' Hs'
                ltac:(apply Forall_app in Hne; tauto) H2) as [IH1 IH2].
    cbn [map fst flat_map snd]. split; [now rewrite IH1|].
    rewrite IH2, map_app, map_map. f_equal.
    apply map_ext_in. intros m Hm.
    rewrite Forall_forall in H1, Hne. specialize (H1 m Hm).
    specialize (Hne m (in_or_app _ _ _ (or_introl Hm))). cbn beta in Hne.
    unfold localRange. cbn [start end_]. rewrite Hlen. unfold s.
    rewrite slice_slice by lia. f_equal; lia.
Qed.

Lemma highlightNode_marks_inside
    (root : nat) (selection : option Selection) (p : Page) :
  wellFormed (document p) ->
  getSelectedText selection <> [] ->
  getSelectedText selection <> lastSelectedText p ->
  let d0 := removeHighlights (document p) in
  let texts := fst (getTextNodes root defaultOptions d0) in
  let mergedText := snd (getTextNodes root defaultOptions d0) in
  let matches :=
    filter (fun m => negb (isInSelection m texts selection))
      (findMatches mergedText (getSelectedText selection)) in
  Forall (insideAnEntry texts) matches ->
  let after := document (snd (highlightNode root selection p)) in
  markerTexts after
  = map (fun m => slice (collectedText root defaultOptions d0)
                    (start m) (end_ m)) matches
  /\ (~ In 304%N (collectedText root defaultOptions d0) ->
      Forall (fun t => toLowerCase t = getSelectedText selection)
        (markerTexts after)).
Proof.
  intros Hwf Hq1 Hq2 d0 texts mergedText matches Hin after.
  pose proof (removeHighlights_wellFormed _ Hwf) as Hwf0. fold d0 in Hwf0.
  assert (Hocc : forall m, In m matches ->
            0 <= start m /\ start m < end_ m /\ end_ m <= len mergedText
            /\ end_ m = start m + len (getSelectedText selection)
            /\ occursAt mergedText (getSelectedText selection)
                 (Z.to_nat (start m))).
  { intros m Hm. apply filter_In in Hm. destruct Hm as [Hm _].
    now apply findMatches_ranges_are_occurrences_aux. }
  assert (Hne : Forall (fun m => start m < end_ m) matches).
  { apply Forall_forall. intros m Hm. apply Hocc in Hm. lia. }
  assert (Hs : sortedMatches matches).
  { apply sortedMatches_filter, findMatches_sorted. }
  destruct (getTextNodes_tiles_contents root defaultOptions d0)
    as (Ht & _). cbv zeta in Ht. fold texts in Ht.
  destruct (nodeMarks_inside (collectedText root defaultOptions d0)
              texts matches d0 _ 0
              (getTextNodes_slices root defaultOptions d0 Hwf0) Ht Hs Hne Hin)
    as [Hkeys Hmarks].
  assert (Hafter : markerTexts after
                   = map (fun m => slice (collectedText root defaultOptions d0)
                                     (start m) (end_ m)) matches).
  { unfold after.
    rewrite (highlightNode_marks root selection p Hwf Hq1 Hq2).
    fold d0 texts mergedText matches. rewrite <- Hmarks.
    apply (markerTextsBy_collected root defaultOptions d0).
    - apply Hwf0.
    - apply removeHighlights_no_markers.
    - rewrite Hkeys. unfold texts, getTextNodes. cbn [fst].
      apply (proj1 (collect_entries d0 _ 0)). }
  split; [exact Hafter|].
  intros Hno. rewrite Hafter. apply Forall_forall. intros t Ht'.
  apply in_map_iff in Ht'. destruct Ht' as (m & <- & Hm).
  destruct (Hocc m Hm) as (H0 & Hlt & Hend & Hlen & Ho).
  rewrite toLowerCase_slice by exact Hno.
  rewrite <- mergedText_collectedText. fold d0 mergedText.
  unfold slice, occursAt in *.
  replace (Z.to_nat (end_ m - start m))
    with (List.length (getSelectedText selection)) by (unfold len in *; lia).
  exact Ho.
Qed.

(** X10. The markers of a call whose matches all lie inside single text
    nodes. [highlightNode] is called on a well-formed document whose
    [<html>] and [<body>] do not have the class [highlight], with a
    selected text that is not empty and not the tracked one; the collected
    text has code units below U+0100 only and the selection is in the
    range in which lower-casing is followed exactly. Then the call
    returns and leaves exactly one marker for every match that the
    selection filter lets through, in the order of the matches; the marker
    holds the text of the document at the match, which is the selected
    text up to case. *)
Theorem highlightNode_wraps_every_match_inside_a_node
    (documentElement : list jsstring) (root : nat)
    (selection : option Selection) (p : Page) :
  wellFormed (document p) ->
  Whole.isMarker documentElement = false ->
  isHighlight (body (document p)) = false ->
  getSelectedText selection <> [] ->
  getSelectedText selection <> lastSelectedText p ->
  let d0 := removeHighlights (document p) in
  let texts := fst (getTextNodes root defaultOptions d0) in
  let mergedText := snd (getTextNodes root defaultOptions d0) in
  let matches :=
    filter (fun m => negb (isInSelection m texts selection))
      (findMatches mergedText (getSelectedText selection)) in
  latin1 (collectedText root defaultOptions d0) ->
  (forall sel, selection = Some sel -> caseModelled (toString sel)) ->
  Forall (insideAnEntry texts) matches ->
  exists p',
    Whole.highlightNode documentElement root selection p = Whole.Returned p'
    /\ Whole.markerTexts (document p')
       = map (fun m => slice (collectedText root defaultOptions d0)
                         (start m) (end_ m)) matches
    /\ Forall (fun t => toLowerCase t = getSelectedText selection)
         (Whole.markerTexts (document p')).
Proof.
  intros Hwf E1 E2 Hq1 Hq2 d0 texts mergedText matches Hlatin _ Hin.
  exists (snd (highlightNode root selection p)).
  split; [now apply Whole_highlightNode_returns|].
  unfold Whole.markerTexts. rewrite Whole_markers
    by now rewrite highlightNode_body_stays.
  destruct (highlightNode_marks_inside root selection p Hwf Hq1 Hq2 Hin)
    as [A B].
  split; [exact A|]. apply B. now apply latin1_no_dotted_I.
Qed.

Lemma highlightNode_wraps_every_match_inside_a_node_witness :
  let selection := selectIn 2 0 2 "ab" in
  exists p',
    Whole.highlightNode [] 0 selection twice = Whole.Returned p'
    /\ Whole.markerTexts (document p')
       = map (fun m => slice (collectedText 0 defaultOptions
                                (removeHighlights (document twice)))
                         (start m) (end_ m)) [mkMatch 6 8]
    /\ Forall (fun t => toLowerCase t = getSelectedText selection)
         (Whole.markerTexts (document p')).
Proof.
  refine (highlightNode_wraps_every_match_inside_a_node
            [] 0 (selectIn 2 0 2 "ab") twice twice_wellFormed
            eq_refl eq_refl _ _ _ _ _).
  - discriminate.
  - discriminate.
  - vm_compute. repeat constructor.
  - intros sel E. injection E as <-. vm_compute. repeat constructor.
  - change (Forall (insideAnEntry [Entry.mk 2 0 8]) [mkMatch 6 8]).
    constructor; [|constructor].
    exists (Entry.mk 2 0 8). split; [now left|]. cbn. lia.
Defined.

(** *** A match that no single node contains *)

Lemma sortedMatches_suffix a b : sortedMatches (a ++ b) -> sortedMatches b.
Proof.
  induction a as [|x a IH]; cbn [app]; intros H; [exact H|].
  apply IH. exact (sortedMatches_tail _ _ H).
Qed.

Lemma collectNodeMatches_upto entry texts hi contentLength m rest :
  tiles (Entry.start entry) (entry :: texts) hi ->
  ~ (Entry.start entry <= start m /\ end_ m <= Entry.end_ entry) ->
  forall pre,
    sortedMatches (pre ++ m :: rest) ->
    Forall (fun x => start x < end_ x) pre ->
    Forall (insideAnEntry (entry :: texts)) pre ->
    exists inside pre',
      pre = inside ++ pre'
      /\ collectNodeMatches entry contentLength (pre ++ m :: rest)
         = (map (localRange entry contentLength) inside
              ++ match pre' with
                 | [] =>
                     if (start m <? Entry.end_ entry)
                        && (Entry.start entry <? end_ m)
                     then [localRange entry contentLength m]
                     else []
                 | _ :: _ => []
                 end,
            pre' ++ m :: rest)
      /\ Forall (fun x => Entry.start entry <= start x
                          /\ end_ x <= Entry.end_ entry) inside
      /\ Forall (insideAnEntry texts) pre'
      /\ (pre' <> [] ->
          (start m <? Entry.end_ entry) && (Entry.start entry <? end_ m)
          = false).
Proof.
  intros Ht Hno. cbn [tiles] in Ht. destruct Ht as (_ & Hle & Ht).
  pose proof (tiles_after _ _ _ Ht) as Hafter.
  assert (E : (Entry.start entry <=? start m) && (end_ m <=? Entry.end_ entry)
              = false).
  { apply andb_false_iff.
    destruct (Z.leb_spec (Entry.start entry) (start m));
      destruct (Z.leb_spec (end_ m) (Entry.end_ entry)); auto.
    exfalso. apply Hno. lia. }
  induction pre as [|p ps IH]; intros Hs Hne Hin.
  - cbn [app collectNodeMatches]. rewrite E.
    exists [], []. cbn [map app].
    split; [reflexivity|]. split.
    { destruct ((start m <? Entry.end_ entry)
                && (Entry.start entry <? end_ m)); reflexivity. }
    split; [constructor|]. split; [constructor|]. congruence.
  - inversion Hne as [|? ? Hp Hne']; subst.
    inversion Hin as [|? ? Hpi Hin']; subst.
    cbn [app collectNodeMatches].
    destruct ((Entry.start entry <=? start p) && (end_ p <=? Entry.end_ entry))
      eqn:E1.
    + destruct (IH (sortedMatches_tail _ _ Hs) Hne' Hin')
        as (inside & pre' & -> & -> & H1 & H2 & H3).
      exists (p :: inside), pre'. apply andb_true_iff in E1.
      destruct E1 as [Ea Eb]. apply Z.leb_le in Ea, Eb.
      split; [reflexivity|]. split; [reflexivity|].
      split; [constructor; [lia | exact H1]|]. now split.
    + assert (Hp0 : Entry.end_ entry <= start p).
      { destruct Hpi as (e & [<-|He] & Ha & Hb).
        - apply andb_false_iff in E1.
          destruct E1 as [E1|E1]; apply Z.leb_gt in E1; lia.
        - specialize (Hafter e He). lia. }
      destruct Hs as [_ Hord]. cbn [app] in Hord.
      inversion Hord as [|? ? Hall _]; subst.
      rewrite Forall_forall in Hall.
      replace ((start p <? Entry.end_ entry) && (Entry.start entry <? end_ p))
        with false
        by (symmetry; apply andb_false_iff; left; apply Z.ltb_ge; lia).
      exists [], (p :: ps). cbn [map app].
      split; [reflexivity|]. split; [reflexivity|].
      split; [constructor|]. split.
      * rewrite Forall_forall in Hne', Hin' |- *.
        intros x [<-|Hx].
        -- destruct Hpi as (e & [<-|He] & Ha & Hb); [lia | now exists e].
        -- pose proof (Hall x (in_or_app _ _ _ (or_introl Hx))) as Hpx.
           cbn beta in Hpx. pose proof (Hne' x Hx) as Hxne. cbn beta in Hxne.
           destruct (Hin' x Hx) as (e & [<-|He] & Ha & Hb);
             [lia | now exists e].
      * intros _. apply andb_false_iff. left. apply Z.ltb_ge.
        assert (Hpm : end_ p <= start m).
        { apply Hall. apply in_or_app. right. now left. }
        lia.
Qed.

Lemma nodeMarks_spanning T m rest : forall texts pre d hi lo,
  entriesSlice T texts d ->
  tiles lo texts hi ->
  sortedMatches (pre ++ m :: rest) ->
  Forall (fun x => start x < end_ x) pre ->
  Forall (insideAnEntry texts) pre ->
  Forall (fun e => ~ (Entry.start e <= start m /\ end_ m <= Entry.end_ e))
    texts ->
  map fst (nodeMarks texts (pre ++ m :: rest) d) = map Entry.node texts
  /\ flat_map snd (nodeMarks texts (pre ++ m :: rest) d)
     = map (fun x => slice T (start x) (end_ x)) pre ++ partsOf T texts m.
Proof.
  induction texts as [|entry texts IH];
    intros pre d hi lo Hsp Ht Hs Hne Hin Hno.
  - cbn [nodeMarks map flat_map partsOf]. split; [reflexivity|].
    destruct pre as [|p ps]; [reflexivity|].
    inversion Hin as [|? ? (e & [] & _) _].
  - inversion Hsp as [|? ? (He1 & He2 & Hfind) Hsp']; subst.
    inversion Hno as [|? ? Hno1 Hno']; subst.
    cbn [nodeMarks]. rewrite Hfind.
    set (s := slice T (Entry.start entry) (Entry.end_ entry)) in *.
    assert (Hlen : len s = Entry.end_ entry - Entry.start entry).
    { unfold s, slice, len in *. rewrite length_firstn, length_skipn. lia. }
    assert (Ht0 : tiles (Entry.start entry) (entry :: texts) hi).
    { cbn [tiles] in *. destruct Ht as (-> & H1 & H2). auto. }
    destruct (collectNodeMatches_upto entry texts hi (len s) m rest Ht0 Hno1
                pre Hs Hne Hin)
      as (inside & pre' & -> & Hc & H1 & H2 & H3).
    rewrite Hc.
    assert (Hs' : sortedMatches (pre' ++ m :: rest)).
    { rewrite <- app_assoc in Hs. exact (sortedMatches_suffix _ _ Hs). }
    assert (Hm : start m <= end_ m).
    { destruct Hs' as [Hle _]. rewrite Forall_forall in Hle.
      apply (Hle m). apply in_or_app. right. now left. }
    cbn [tiles] in Ht. destruct Ht as (_ & _ & Ht').
    destruct (IH pre' d hi _ Hsp' Ht' Hs'
                ltac:(apply Forall_app in Hne; tauto) H2 Hno')
      as [IH1 IH2].
    cbn [map fst flat_map snd]. split; [now rewrite IH1|].
    rewrite IH2, !map_app, <- !app_assoc. f_equal.
    { rewrite map_map. apply map_ext_in. intros x Hx.
      rewrite Forall_forall in H1, Hne. specialize (H1 x Hx).
      specialize (Hne x (in_or_app _ _ _ (or_introl Hx))). cbn beta in Hne.
      unfold localRange. cbn [start end_]. rewrite Hlen. unfold s.
      rewrite slice_slice by lia. f_equal; lia. }
    cbn [partsOf flat_map]. fold (partsOf T texts m).
    destruct pre' as [|p ps].
    + cbn [map app].
      destruct ((start m <? Entry.end_ entry) && (Entry.start entry <? end_ m))
        eqn:Eo; [|reflexivity].
      apply andb_true_iff in Eo. destruct Eo as [Ea Eb].
      apply Z.ltb_lt in Ea, Eb.
      cbn [map app]. f_equal.
      unfold localRange. cbn [start end_]. rewrite Hlen. unfold s.
      rewrite slice_slice by lia. f_equal; lia.
    + rewrite H3 by discriminate. cbn [map app]. reflexivity.
Qed.

Lemma slice_app s a b c :
  0 <= a <= b -> b <= c -> slice s a b ++ slice s b c = slice s a c.
Proof.
  intros Hab Hbc. unfold slice.
  replace (skipn (Z.to_nat b) s)
    with (skipn (Z.to_nat (b - a)) (skipn (Z.to_nat a) s))
    by (rewrite skipn_skipn; f_equal; lia).
  set (t := skipn (Z.to_nat a) s).
  replace (Z.to_nat (c - a)) with (Z.to_nat (b - a) + Z.to_nat (c - b))%nat
    by lia.
  rewrite <- (firstn_skipn (Z.to_nat (b - a)) t) at 3.
  rewrite firstn_app, firstn_firstn, length_firstn.
  replace (Nat.min (Z.to_nat (b - a) + Z.to_nat (c - b)) (Z.to_nat (b - a)))
    with (Z.to_nat (b - a)) by lia.
  f_equal.
  destruct (Nat.le_gt_cases (Z.to_nat (b - a)) (List.length t)) as [Hle|Hgt].
  - f_equal. lia.
  - rewrite (skipn_all2 t) by lia. now rewrite !firstn_nil.
Qed.

Lemma slice_empty s a b : b <= a -> slice s a b = [].
Proof.
  intros H. unfold slice.
  replace (Z.to_nat (b - a)) with 0%nat by lia. reflexivity.
Qed.

Lemma tiles_le : forall texts lo hi, tiles lo texts hi -> lo <= hi.
Proof.
  induction texts as [|e r IH]; intros lo hi Ht; cbn [tiles] in Ht.
  - lia.
  - destruct Ht as (_ & Hle & Ht). apply IH in Ht. lia.
Qed.

(** The parts of a match, one after the other, are the text at the match
    as far as the entries reach. *)
Lemma partsOf_concat T m : forall texts lo hi,
  tiles lo texts hi -> 0 <= lo -> start m <= end_ m ->
  concat (partsOf T texts m)
  = slice T (Z.max lo (start m)) (Z.min hi (end_ m)).
Proof.
  induction texts as [|e r IH]; intros lo hi Ht Hlo Hm.
  - cbn [tiles] in Ht. subst hi. cbn. symmetry. apply slice_empty. lia.
  - cbn [tiles] in Ht. destruct Ht as (He & Hle & Ht).
    pose proof (tiles_le _ _ _ Ht) as Hhi.
    cbn [partsOf flat_map]. fold (partsOf T r m).
    rewrite concat_app, (IH _ _ Ht ltac:(lia) Hm), He.
    destruct ((start m <? Entry.end_ e) && (lo <? end_ m)) eqn:Eo.
    + apply andb_true_iff in Eo. destruct Eo as [Ea Eb].
      apply Z.ltb_lt in Ea, Eb. cbn [concat]. rewrite app_nil_r.
      rewrite (Z.max_l (Entry.end_ e)) by lia.
      destruct (Z.le_gt_cases (end_ m) (Entry.end_ e)) as [Hin|Hout].
      * rewrite (slice_empty T (Entry.end_ e)) by lia.
        rewrite app_nil_r. f_equal; lia.
      * rewrite (Z.min_l (Entry.end_ e)) by lia.
        apply slice_app; lia.
    + cbn [concat app]. apply andb_false_iff in Eo.
      destruct Eo as [Ea|Eb].
      * apply Z.ltb_ge in Ea. f_equal. lia.
      * apply Z.ltb_ge in Eb.
        rewrite !slice_empty by lia. reflexivity.
Qed.

Lemma contentLength_collectedText root options d :
  contentLength (walked root options d)
  = len (collectedText root options d).
Proof.
  unfold collectedText, len.
  induction (walked root options d) as [|[j s] r IH]; [reflexivity|].
  cbn [contentLength fold_right flat_map snd].
  change (fold_right (fun n acc => len (snd n) + acc) 0 r)
    with (contentLength r).
  rewrite IH, length_app, Nat2Z.inj_add. reflexivity.
Qed.

(** The markers that [highlightMatches] leaves in a document that has none,
    for the entries of a collection pass. *)
Lemma highlightMatches_marks root options d pending :
  wellFormed d -> markers d = [] -> sortedMatches pending ->
  let texts := fst (getTextNodes root options d) in
  exists d',
    highlightMatches texts pending d = (Ok tt, d')
    /\ (map fst (nodeMarks texts pending d) = map Entry.node texts ->
        markerTexts d' = flat_map snd (nodeMarks texts pending d)).
Proof.
  intros Hwf Hm Hs texts.
  destruct (getTextNodes_entriesIn root options d Hwf) as [Hnd He].
  fold texts in Hnd, He.
  unfold highlightMatches. rewrite (sortByStart_sorted _ Hs).
  destruct (spliceEntries_marks texts pending d Hwf Hs Hnd He)
    as (d' & Hd & Hmarks).
  exists d'. split; [exact Hd|]. intros Hkeys.
  rewrite markerTexts_By, (Hmarks noMarks) by reflexivity.
  apply (markerTextsBy_collected root options d).
  - apply Hwf.
  - exact Hm.
  - rewrite Hkeys. unfold texts, getTextNodes. cbn [fst].
    apply (proj1 (collect_entries d _ 0)).
Qed.

Lemma acrossLeaves_wellFormed : wellFormed acrossLeaves.
Proof.
  split; cbn.
  - repeat constructor; cbn; intuition lia.
  - repeat constructor.
Qed.

(** C2, amended. For the leaves "ab", "cd", "ef" and the range [[1,5]] of
    "bcde", [highlightMatches] makes one marker in each leaf the match
    touches: "b", "cd" and "e", which together read "bcde"; the plain leaves
    "a" and "f" remain on either side (next to empty ones). In general, in
    a pass over the entries of a collection in a document without markers:
    when the matches before [m] each lie inside one entry and [m] lies
    inside none, the pass returns, and the markers of the document are
    then one for each match before [m], around the text at the match, and
    after them one for each entry that [m] overlaps, in the order of the
    entries, around the part of [m] inside that entry; these parts, one
    after the other, are the text at [m]. *)
Theorem highlightMatches_spanning_match_split_per_leaf
    (root : nat) (options : GetTextNodesOptions) (d : Document)
    (pre : list MatchRange) (m : MatchRange) (rest : list MatchRange) :
  wellFormed d ->
  markers d = [] ->
  let texts := fst (getTextNodes root options d) in
  let T := collectedText root options d in
  sortedMatches (pre ++ m :: rest) ->
  Forall (fun x => start x < end_ x) pre ->
  Forall (insideAnEntry texts) pre ->
  Forall (fun e => ~ (Entry.start e <= start m /\ end_ m <= Entry.end_ e))
    texts ->
  0 <= start m ->
  end_ m <= len T ->
  (let r := highlightMatches
              [Entry.mk 2 0 2; Entry.mk 4 2 4; Entry.mk 6 4 6]
              [mkMatch 1 5] threeLeaves in
   getTextNodes 0 defaultOptions threeLeaves
   = ([Entry.mk 2 0 2; Entry.mk 4 2 4; Entry.mk 6 4 6], u16 "abcdef")
   /\ findMatches (u16 "abcdef") (u16 "bcde") = [mkMatch 1 5]
   /\ fst r = Ok tt
   /\ markerTexts (snd r) = [u16 "b"; u16 "cd"; u16 "e"]
   /\ concat (markerTexts (snd r)) = u16 "bcde"
   /\ filter (fun s => negb (Js.eqb s [])) (plainTexts (body (snd r)))
      = [u16 "a"; u16 "f"]
   /\ body (snd r)
      = elem 0 "BODY"
          [elem 1 "B" [text 2 "a"; marker 7 10 "b"; text 9 ""];
           elem 3 "I" [text 4 ""; marker 11 14 "cd"; text 13 ""];
           elem 5 "U" [text 6 ""; marker 15 18 "e"; text 17 "f"]])
  /\ exists d',
       highlightMatches texts (pre ++ m :: rest) d = (Ok tt, d')
       /\ markerTexts d'
          = map (fun x => slice T (start x) (end_ x)) pre
              ++ partsOf T texts m
       /\ concat (partsOf T texts m) = slice T (start m) (end_ m).
Proof.
  intros Hwf Hm texts T Hs Hne Hin Hno H0 Hend. split.
  { cbv zeta. repeat split; vm_compute; reflexivity. }
  destruct (highlightMatches_marks root options d (pre ++ m :: rest)
              Hwf Hm Hs) as (d' & Hrun & Hmarks).
  fold texts in Hrun, Hmarks.
  destruct (getTextNodes_tiles_contents root options d) as (Ht & _).
  cbv zeta in Ht. fold texts in Ht.
  destruct (nodeMarks_spanning T m rest texts pre d _ 0
              (getTextNodes_slices root options d Hwf) Ht Hs Hne Hin Hno)
    as [Hkeys Hparts].
  exists d'. split; [exact Hrun|]. split.
  - rewrite (Hmarks Hkeys). exact Hparts.
  - assert (Hle : start m <= end_ m).
    { destruct (sortedMatches_suffix _ _ Hs) as [Hall _].
      inversion Hall; subst. assumption. }
    rewrite (partsOf_concat T m texts 0 _ Ht ltac:(lia) Hle).
    rewrite contentLength_collectedText. fold T. f_equal; lia.
Qed.

Lemma highlightMatches_spanning_match_split_per_leaf_witness :
  let texts := fst (getTextNodes 0 defaultOptions acrossLeaves) in
  let T := collectedText 0 defaultOptions acrossLeaves in
  exists d',
    highlightMatches texts ([mkMatch 0 2] ++ mkMatch 4 6 :: [mkMatch 8 10])
      acrossLeaves = (Ok tt, d')
    /\ markerTexts d'
       = map (fun x => slice T (start x) (end_ x)) [mkMatch 0 2]
           ++ partsOf T texts (mkMatch 4 6)
    /\ concat (partsOf T texts (mkMatch 4 6)) = slice T 4 6.
Proof.
  refine (proj2 (highlightMatches_spanning_match_split_per_leaf
                   0 defaultOptions acrossLeaves
                   [mkMatch 0 2] (mkMatch 4 6) [mkMatch 8 10]
                   acrossLeaves_wellFormed eq_refl _ _ _ _ _ _)).
  - split; repeat constructor; cbn; lia.
  - repeat constructor.
  - change (Forall (insideAnEntry [Entry.mk 2 0 5; Entry.mk 4 5 10])
              [mkMatch 0 2]).
    constructor; [|constructor].
    exists (Entry.mk 2 0 5). split; [now left|]. cbn. lia.
  - change (fst (getTextNodes 0 defaultOptions acrossLeaves))
      with [Entry.mk 2 0 5; Entry.mk 4 5 10].
    repeat constructor; cbn; lia.
  - cbn. lia.
  - vm_compute. discriminate.
Defined.

(** ** The sibling highlighter *)

Lemma highlightAt_result n i tl d s :
  wellFormed d ->
  findText n d = Some s ->
  0 <= i -> 0 < tl -> i + tl <= len s ->
  InitHighlight.highlightAt n i tl d
  = (Ok (Some ((2 + nextId d)%nat, (1 + nextId d)%nat)),
     mkDoc (substNode n (fun _ => marked n (nextId d) s i tl) (body d))
           (4 + nextId d)).
Proof.
  intros [Hnd Hlt] Hs Hi Htl Hle.
  destruct (findText_found _ _ _ Hs) as (i0 & t0 & c0 & h0 & kids & Hb & Hfind).
  destruct d as [bd sp]. cbn [body nextId] in *. subst bd.
  assert (Hin : In n (ids (Element i0 t0 c0 h0 kids))).
  { cbn [ids]. right. eapply foundL_in_ids; eauto. }
  pose proof (focus_ext i0 t0 c0 h0 kids n s Hnd Hfind) as Hext.
  pose proof (focus_find i0 t0 c0 h0 kids n s Hnd Hfind) as Hlook.
  pose proof (focus_subst i0 t0 c0 h0 kids n) as Hsub.
  pose proof (focus_ids i0 t0 c0 h0 kids n s Hnd Hfind) as Hids.
  pose proof (focus_siblings i0 t0 c0 h0 kids n) as Hsib.
  pose proof (focus_root i0 t0 c0 h0 kids n s Hnd Hfind) as Hroot.
  change i0 with (nodeId (Element i0 t0 c0 h0 kids)) in Hroot.
  remember (Element i0 t0 c0 h0 kids) as body0 eqn:Hb0.
  clear Hb0 Hfind.
  assert (Hfresh : forall b, (sp <= b)%nat -> ~ In b (ids body0)).
  { intros b Hb'. eapply fresh_not_in; eauto. }
  assert (Hn : (n < sp)%nat).
  { rewrite Forall_forall in Hlt. now apply Hlt. }
  assert (E1 : (n =? S sp)%nat = false) by (apply Nat.eqb_neq; lia).
  assert (E3 : (n =? sp)%nat = false) by (apply Nat.eqb_neq; lia).
  assert (E9 : (S sp =? sp)%nat = false) by (apply Nat.eqb_neq; lia).
  unfold marked, slice. cbn [Nat.add].
  replace (Z.to_nat (i + tl - i)) with (Z.to_nat tl) by lia.
  set (off := Z.to_nat i) in *.
  set (cnt := Z.to_nat tl) in *.
  set (L2 := [TextNode n (firstn off s);
              TextNode sp (firstn cnt (skipn off s));
              TextNode (S sp) (skipn cnt (skipn off s))]).
  assert (Hlen : len (skipn off s) = len s - i).
  { unfold len, off. rewrite length_skipn. unfold len in *. lia. }
  assert (Hmid : firstn cnt (skipn off s) <> []).
  { intros E. assert (H : List.length (firstn cnt (skipn off s)) = 0%nat)
      by now rewrite E.
    rewrite length_firstn in H. unfold len, cnt in *. lia. }
  unfold InitHighlight.highlightAt.
  rewrite (bind_run _ _ _ _ _ (readText_run _ _ _ Hs)).
  replace (len s <? i) with false by (symmetry; apply Z.ltb_ge; lia).
  erewrite bind_run by (apply (splitText_run _ _ _ s); [exact Hs | lia]).
  cbn [body nextId]. rewrite (Hext _). cbn [splitAt]. fold off.
  erewrite bind_run.
  2:{ apply (splitText_run _ _ _ (skipn off s)); [|lia].
      unfold findText. rewrite Hlook by (right; apply Hfresh; lia).
      cbn [findL findNode nodeId]. now rewrite E3, Nat.eqb_refl. }
  cbn [body nextId]. rewrite Hsub by (apply Hfresh; lia).
  cbn [substL flat_map nodeId substNode app].
  rewrite E3, Nat.eqb_refl. cbn [splitAt app]. fold cnt. fold L2.
  erewrite bind_run.
  2:{ apply (readText_run _ _ (firstn cnt (skipn off s))).
      unfold findText. rewrite Hlook by (right; apply Hfresh; lia).
      cbn [L2 findL findNode nodeId]. now rewrite E3, Nat.eqb_refl. }
  unfold InitHighlight.createSpan.
  destruct (firstn cnt (skipn off s)) as [|m0 mid] eqn:Emid;
    [now destruct Hmid|].
  unfold bind at 1. unfold bind at 1. unfold fresh at 1. cbn [body nextId].
  unfold bind at 1. unfold fresh at 1. cbn [body nextId]. unfold ret at 1.
  cbn [nodeId].
  unfold bind, replaceChildOfParent, ret.
  destruct (parentOf sp _) as [p|] eqn:Ep.
  - rewrite Nat.eqb_refl. unfold updateChildren. cbn [body nextId].
    rewrite Hsub by (apply Hfresh; lia).
    cbn [L2 substL flat_map nodeId substNode app].
    rewrite E3, E9, Nat.eqb_refl. cbn [app]. reflexivity.
  - exfalso. unfold parentOf in Ep. cbn [body] in Ep. revert Ep.
    apply (proj1 (parentIn_present sp)).
    + apply (Permutation_in _ (Permutation_sym
                                 (Hids L2 [sp; S sp] eq_refl))).
      apply in_or_app. left. now left.
    + rewrite nodeId_substNode. intros E. apply (Hfresh sp (le_n _)).
      rewrite <- E. apply nodeId_in_ids.
Qed.

(** *** The match engine on the rest of a string *)

Lemma LeftmostFirst_unique s q pos ms :
  LeftmostFirst s q pos ms ->
  forall ms', LeftmostFirst s q pos ms' -> ms = ms'.
Proof.
  induction 1 as [pos Hnone|pos i ms Hle Ho Hmin Hrest IH]; intros ms' H'.
  - inversion H' as [|? i' ? Hle' Ho' _ _]; subst; [reflexivity|].
    destruct (Hnone i' Hle' Ho').
  - inversion H' as [? Hnone'|? i' ms2 Hle' Ho' Hmin' Hrest']; subst.
    + destruct (Hnone' i Hle Ho).
    + assert (i = i').
      { destruct (Nat.lt_trichotomy i i') as [Hlt|[E|Hgt]]; [|exact E|].
        - destruct (Hmin' i (conj Hle Hlt) Ho).
        - destruct (Hmin i' (conj Hle' Hgt) Ho'). }
      subst i'. f_equal. now apply IH.
Qed.

Lemma occursAt_skipn s q k i :
  occursAt (skipn k s) q i <-> occursAt s q (k + i).
Proof.
  unfold occursAt. rewrite skipn_skipn.
  now replace (i + k)%nat with (k + i)%nat by lia.
Qed.

Lemma LeftmostFirst_shift s q k pos ms :
  LeftmostFirst (skipn k s) q pos ms ->
  LeftmostFirst s q (k + pos) (map (shiftBy (Z.of_nat k)) ms).
Proof.
  induction 1 as [pos Hnone|pos i ms Hle Ho Hmin Hrest IH]; cbn [map].
  - apply LF_done. intros j Hj Hoj.
    apply (Hnone (j - k)%nat); [lia|]. apply occursAt_skipn.
    now replace (k + (j - k))%nat with j by lia.
  - unfold shiftBy at 1. cbn [start end_].
    replace (Z.of_nat k + Z.of_nat i) with (Z.of_nat (k + i)) by lia.
    replace (Z.of_nat k + (Z.of_nat i + len q))
      with (Z.of_nat (k + i) + len q) by lia.
    apply LF_hit.
    + lia.
    + now apply occursAt_skipn.
    + intros j Hj Hoj. apply (Hmin (j - k)%nat); [lia|].
      apply occursAt_skipn. now replace (k + (j - k))%nat with j by lia.
    + now replace (k + i + List.length q)%nat
        with (k + (i + List.length q))%nat by lia.
Qed.

(** [indexOf] from the start and the first range of [findMatches]. *)
Lemma findMatches_step t c q' :
  let q := c :: q' in
  let i := indexOf t q 0 in
  (i = -1 -> findMatches t q = [])
  /\ (i <> -1 ->
      0 <= i /\ i + len q <= len t
      /\ findMatches t q
         = mkMatch i (i + len q)
             :: map (shiftBy (i + len q))
                  (findMatches (skipn (Z.to_nat (i + len q)) t) q)).
Proof.
  cbv zeta. pose proof (findLoop_leftmost t c q' 0 ltac:(lia)) as HL.
  change (findLoop t c q' 0) with (findMatches t (c :: q')) in HL.
  change (Z.to_nat 0) with 0%nat in HL.
  assert (Hidx : indexOf t (c :: q') 0 = indexOf_scan t (c :: q') 0).
  { unfold indexOf.
    replace (Z.to_nat (Z.min (Z.max 0 0) (len t))) with 0%nat
      by (unfold len; lia).
    reflexivity. }
  rewrite Hidx. remember (findMatches t (c :: q')) as found eqn:Efound.
  clear Efound. split.
  - intros Hi. inversion HL as [|? i0 ms _ Ho _ _]; [reflexivity|]. subst.
    exfalso. apply startsWith_firstn in Ho.
    pose proof (indexOf_scan_miss _ _ _ Hi i0). congruence.
  - intros Hi. destruct (indexOf_scan_hit _ _ _ Hi) as (j & Hj & Hs & Hm).
    rewrite Hj. cbn [Nat.add].
    inversion HL as [? Hnone|? i0 ms _ Ho Hmin Hrest]; subst.
    + exfalso. apply (Hnone j); [lia|]. now apply startsWith_firstn.
    + assert (i0 = j).
      { destruct (Nat.lt_trichotomy i0 j) as [Hlt|[E|Hgt]]; [|exact E|].
        - apply startsWith_firstn in Ho. specialize (Hm i0 Hlt). congruence.
        - exfalso. apply (Hmin j); [lia|]. now apply startsWith_firstn. }
      subst i0.
      destruct (occursAt_length _ _ _ Ho) as [Hl|Hl]; [|discriminate].
      split; [lia|]. split; [unfold len in *; lia|]. f_equal.
      apply (LeftmostFirst_unique _ _ _ _ Hrest).
      replace (Z.of_nat j + len (c :: q'))
        with (Z.of_nat (j + List.length (c :: q'))) by (unfold len; lia).
      rewrite Nat2Z.id.
      replace (j + List.length (c :: q'))%nat
        with (j + List.length (c :: q') + 0)%nat at 1 by lia.
      apply LeftmostFirst_shift.
      apply (findLoop_leftmost _ c q' 0). lia.
Qed.

(** *** A text node replaced by nodes that hold its text *)

Lemma replaced_wellFormed n s L extra d k :
  wellFormed d -> findText n d = Some s ->
  idsL L = n :: extra -> NoDup extra ->
  (nextId d <= k)%nat ->
  (forall i, In i extra -> (nextId d <= i < k)%nat) ->
  flat_map textContent L = s ->
  wellFormed (mkDoc (substNode n (fun _ => L) (body d)) k)
  /\ textContent (substNode n (fun _ => L) (body d)) = textContent (body d).
Proof.
  intros [Hnd Hlt] Hs HL Hex Hk Hrange Htext.
  destruct (findText_found _ _ _ Hs) as (i0 & t0 & c0 & h0 & kids & Hb & Hfind).
  rewrite Hb in *.
  pose proof (focus_ids i0 t0 c0 h0 kids n s Hnd Hfind L extra HL) as Hids.
  split; [split; cbn [body nextId]|].
  - eapply Permutation_NoDup; [apply Permutation_sym, Hids|].
    apply NoDup_app; auto. intros i Hi Hi'.
    apply Hrange in Hi. rewrite Forall_forall in Hlt. apply Hlt in Hi'. lia.
  - apply Forall_forall. intros i Hi.
    apply (Permutation_in _ Hids) in Hi.
    apply in_app_or in Hi. destruct Hi as [Hi|Hi].
    + apply Hrange in Hi. lia.
    + rewrite Forall_forall in Hlt. apply Hlt in Hi. lia.
  - apply (proj1 (textContent_subst n (fun _ => L))).
    intros x Hx Hid. rewrite Htext. cbn [subnodes] in Hx.
    destruct Hx as [<-|Hx].
    + cbn in Hid. now destruct (focus_root i0 t0 c0 h0 kids n s Hnd Hfind).
    + now rewrite (focus_unique i0 t0 c0 h0 kids n s Hnd Hfind x Hx Hid).
Qed.

Lemma findDesc_ids b d x :
  findDesc b d = Some x -> forall i, In i (ids x) -> In i (ids (body d)).
Proof.
  unfold findDesc. intros H i Hi.
  destruct (proj2 (find_found b) _ _ H) as [Hx _].
  destruct (body d) as [j s|j t c h kids]; [destruct Hx|].
  cbn [children ids] in *. right.
  destruct (proj2 subnodes_sub _ _ Hx) as [Hsub _].
  rewrite (proj1 ids_subnodes) in Hi. apply in_map_iff in Hi.
  destruct Hi as (y & <- & Hy). apply in_descL_ids. now apply Hsub.
Qed.

(** A node that does not hold the replaced text node is found as it was. *)
Lemma replaced_retains n s L d k b x :
  wellFormed d -> findText n d = Some s ->
  (forall i, In i (idsL L) -> i = n \/ (nextId d <= i)%nat) ->
  findDesc b d = Some x -> b <> n -> ~ In n (ids x) ->
  findDesc b (mkDoc (substNode n (fun _ => L) (body d)) k) = Some x.
Proof.
  intros [Hnd Hlt] Hs HL Hb Hne Hnx.
  destruct (findText_found _ _ _ Hs) as (i0 & t0 & c0 & h0 & kids & Hbd & Hfind).
  assert (HbL : ~ In b (idsL L)).
  { intros Hin. apply HL in Hin. destruct Hin as [->|Hin]; [now apply Hne|].
    destruct (proj2 (find_found b) _ _ Hb) as [_ Hid].
    pose proof (nodeId_in_ids x) as H. rewrite Hid in H.
    apply (findDesc_ids b d x Hb b) in H.
    rewrite Forall_forall in Hlt. apply Hlt in H. lia. }
  unfold findDesc in *. rewrite Hbd in *. cbn [body] in *.
  rewrite substNode_element. cbn [children] in *.
  rewrite (proj2 (find_subst_other n s L b Hne HbL) kids
             (focus_unique i0 t0 c0 h0 kids n s Hnd Hfind)).
  rewrite Hb. f_equal. now apply (proj1 (subst_absent n _)).
Qed.

Lemma replaced_finds n s L d k b :
  wellFormed d -> findText n d = Some s ->
  b = n \/ (nextId d <= b)%nat ->
  findDesc b (mkDoc (substNode n (fun _ => L) (body d)) k) = findL b L.
Proof.
  intros [Hnd Hlt] Hs Hb.
  destruct (findText_found _ _ _ Hs) as (i0 & t0 & c0 & h0 & kids & Hbd & Hfind).
  rewrite Hbd in *.
  apply (focus_find i0 t0 c0 h0 kids n s Hnd Hfind).
  destruct Hb as [Hb|Hb]; [now left | right].
  eapply fresh_not_in; eauto.
Qed.

Lemma In_skipn {A} (x : A) k l : In x (skipn k l) -> In x l.
Proof.
  revert l. induction k as [|k IH]; intros [|y l]; cbn; auto.
Qed.

(** *** The loop of [highlightTextInNode] *)

Lemma highlightLoop_marks c q' :
  let q := c :: q' in
  forall fuel n s w,
    wellFormed (InitHighlight.doc w) ->
    findText n (InitHighlight.doc w) = Some s ->
    ~ In 304%N s ->
    (List.length s < fuel)%nat ->
    exists w',
      InitHighlight.highlightLoop fuel n (toLowerCase s) q w
      = Some (Ok tt, w')
      /\ wellFormed (InitHighlight.doc w')
      /\ (nextId (InitHighlight.doc w) <= nextId (InitHighlight.doc w'))%nat
      /\ textContent (body (InitHighlight.doc w'))
         = textContent (body (InitHighlight.doc w))
      /\ InitHighlight.text (InitHighlight.currentHighlight w')
         = InitHighlight.text (InitHighlight.currentHighlight w)
      /\ (forall b x, findDesc b (InitHighlight.doc w) = Some x ->
                      b <> n -> ~ In n (ids x) ->
                      findDesc b (InitHighlight.doc w') = Some x)
      /\ exists new,
           InitHighlight.spans (InitHighlight.currentHighlight w')
           = InitHighlight.spans (InitHighlight.currentHighlight w) ++ new
           /\ map (spanText (InitHighlight.doc w')) new
              = map (fun m => Some (slice s (start m) (end_ m)))
                  (findMatches (toLowerCase s) q).
Proof.
  intros q. induction fuel as [|fuel IH]; intros n s w Hwf Hs Hno Hfuel;
    [lia|].
  cbn [InitHighlight.highlightLoop].
  destruct (findMatches_step (toLowerCase s) c q') as [Hmiss Hhit].
  cbv zeta in Hmiss, Hhit. fold q in Hmiss, Hhit.
  destruct (Z.eqb_spec (indexOf (toLowerCase s) q 0) (-1)) as [Ei|Ei].
  - exists w. split; [reflexivity|]. split; [exact Hwf|]. split; [lia|].
    split; [reflexivity|]. split; [reflexivity|]. split; [auto|].
    exists []. rewrite app_nil_r, (Hmiss Ei). now split.
  - destruct (Hhit Ei) as (Hi0 & Hile & Hfound). clear Hmiss Hhit.
    set (i := indexOf (toLowerCase s) q 0) in *.
    assert (Hlen : len (toLowerCase s) = len s).
    { unfold len. now rewrite toLowerCase_length. }
    assert (Hq : 0 < len q) by (unfold len, q; cbn [List.length]; lia).
    destruct w as [d hl]. cbn [InitHighlight.doc
                                 InitHighlight.currentHighlight] in *.
    rewrite (highlightAt_result n i (len q) d s Hwf Hs Hi0 Hq ltac:(lia)).
    set (k := nextId d) in *.
    set (d1 := mkDoc (substNode n (fun _ => marked n k s i (len q)) (body d))
                 (4 + k)).
    set (rest := skipn (Z.to_nat (len q)) (skipn (Z.to_nat i) s)).
    assert (Hrest : findText (1 + k) d1 = Some rest).
    { unfold findText, d1.
      rewrite (replaced_finds n s _ d _ (1 + k)%nat Hwf Hs) by (right; lia).
      unfold marked. cbn [findL findNode nodeId].
      assert (En : (n =? 1 + k)%nat = false).
      { apply Nat.eqb_neq. intros ->.
        destruct Hwf as [_ Hlt]. rewrite Forall_forall in Hlt.
        pose proof (Hlt _ (findText_in_ids _ _ _ Hs)). unfold k in *. lia. }
      rewrite En.
      replace (2 + k =? 1 + k)%nat with false
        by (symmetry; apply Nat.eqb_neq; lia).
      replace (3 + k =? 1 + k)%nat with false
        by (symmetry; apply Nat.eqb_neq; lia).
      now rewrite Nat.eqb_refl. }
    unfold readText. rewrite Hrest.
    assert (Hn : (n < k)%nat).
    { destruct Hwf as [_ Hlt]. rewrite Forall_forall in Hlt.
      apply Hlt. eapply findText_in_ids; eauto. }
    destruct (replaced_wellFormed n s (marked n k s i (len q))
                [(2 + k)%nat; (3 + k)%nat; (1 + k)%nat] d (4 + k)
                Hwf Hs eq_refl) as [Hwf1 Htext1].
    { repeat constructor; cbn [In]; intuition lia. }
    { fold k. lia. }
    { fold k. cbn [In]. intros j Hj. intuition lia. }
    { unfold marked, slice. cbn [flat_map textContent app].
      replace (Z.to_nat (i + len q - i)) with (Z.to_nat (len q)) by lia.
      now rewrite !app_nil_r, !firstn_skipn. }
    fold d1 in Hwf1.
    assert (Hno' : ~ In 304%N rest).
    { intros H. apply Hno. unfold rest in H.
      now apply In_skipn, In_skipn in H. }
    assert (Hfuel' : (List.length rest < fuel)%nat).
    { unfold rest. rewrite !length_skipn. unfold len in *. lia. }
    destruct (IH (1 + k)%nat rest
                (InitHighlight.mkWorld d1
                   (InitHighlight.mkHighlight (InitHighlight.text hl)
                      (InitHighlight.spans hl ++ [(2 + k)%nat])))
                Hwf1 Hrest Hno' Hfuel')
      as (w' & Hrun & Hwf' & Hnext' & Htext' & Htracked' & Hkeep' & new'
          & Hspans' & Hnew').
    cbn [InitHighlight.doc InitHighlight.currentHighlight
         InitHighlight.text InitHighlight.spans] in *.
    exists w'. split; [exact Hrun|]. split; [exact Hwf'|].
    split; [unfold d1 in Hnext'; cbn [nextId] in Hnext'; lia|].
    split; [rewrite Htext'; exact Htext1|].
    split; [exact Htracked'|].
    assert (Hmarked : forall j, In j (idsL (marked n k s i (len q))) ->
                                j = n \/ (nextId d <= j)%nat).
    { fold k. unfold marked, idsL. cbn [flat_map ids app In].
      intros j Hj. intuition lia. }
    split.
    + intros b x Hb Hne Hnx. apply Hkeep'.
      * now apply (replaced_retains n s _ d _ b x Hwf Hs Hmarked).
      * intros ->. pose proof (nodeId_in_ids x) as Hx.
        destruct (proj2 (find_found _) _ _ Hb) as [_ Hid]. rewrite Hid in Hx.
        apply (findDesc_ids _ d x Hb) in Hx.
        destruct Hwf as [_ Hlt]. rewrite Forall_forall in Hlt.
        apply Hlt in Hx. unfold k in *. lia.
      * intros Hx. apply (findDesc_ids _ d x Hb) in Hx.
        destruct Hwf as [_ Hlt]. rewrite Forall_forall in Hlt.
        apply Hlt in Hx. unfold k in *. lia.
    + exists ((2 + k)%nat :: new'). split.
      * rewrite Hspans', <- app_assoc. reflexivity.
      * rewrite Hfound. cbn [map start end_]. f_equal.
        -- unfold spanText.
           rewrite (Hkeep' (2 + k)%nat
                      (Element (2 + k) (u16 "SPAN") [u16 "bread-highlight"]
                         false
                         [TextNode (3 + k) (slice s i (i + len q))])).
           ++ cbn [textContent flat_map]. now rewrite app_nil_r.
           ++ unfold d1.
              rewrite (replaced_finds n s _ d _ (2 + k)%nat Hwf Hs)
                by (right; fold k; lia).
              unfold marked. cbn [findL findNode nodeId].
              replace (n =? 2 + k)%nat with false
                by (symmetry; apply Nat.eqb_neq; lia).
              now rewrite Nat.eqb_refl.
           ++ lia.
           ++ cbn [ids flat_map app In]. intuition lia.
        -- rewrite Hnew', map_map.
           replace (toLowerCase rest)
             with (skipn (Z.to_nat (i + len q)) (toLowerCase s)).
           ++ apply map_ext_in. intros m Hm.
              destruct (findMatches_ranges_are_occurrences_aux _ _ m Hm)
                as (Hm0 & Hm1 & _).
              unfold shiftBy. cbn [start end_]. f_equal.
              unfold rest, slice. rewrite !skipn_skipn.
              f_equal; [lia|]. f_equal. lia.
           ++ unfold rest. rewrite skipn_skipn.
              rewrite (proj2 (toLowerCase_firstn_skipn s Hno _)).
              f_equal. lia.
Qed.

Lemma highlightAt_break n i tl d s :
  findText n d = Some s -> len s < i ->
  InitHighlight.highlightAt n i tl d = (Ok None, d).
Proof.
  intros Hs Hi. unfold InitHighlight.highlightAt.
  rewrite (bind_run _ _ _ _ _ (readText_run _ _ _ Hs)).
  now replace (len s <? i) with true by (symmetry; apply Z.ltb_lt; lia).
Qed.

(** The second [splitText] of a turn is asked for more than the node
    holds: the first split stays, and the turn ends in an exception. *)
Lemma highlightAt_throws n i tl d s :
  wellFormed d ->
  findText n d = Some s ->
  0 <= i <= len s -> len s < i + tl ->
  InitHighlight.highlightAt n i tl d
  = (Throw IndexSizeError,
     mkDoc (substNode n (splitAt i (nextId d)) (body d)) (S (nextId d))).
Proof.
  intros Hwf Hs Hi Htl. unfold InitHighlight.highlightAt.
  rewrite (bind_run _ _ _ _ _ (readText_run _ _ _ Hs)).
  replace (len s <? i) with false by (symmetry; apply Z.ltb_ge; lia).
  erewrite bind_run by (apply (splitText_run _ _ _ s); [exact Hs | lia]).
  unfold bind at 1. unfold splitText at 1. unfold bind at 1.
  assert (Hfind : findText (nextId d)
                    (mkDoc (substNode n (splitAt i (nextId d)) (body d))
                       (S (nextId d)))
                  = Some (skipn (Z.to_nat i) s)).
  { destruct (findText_found _ _ _ Hs)
      as (i0 & t0 & c0 & h0 & kids & Hb & Hfind).
    destruct Hwf as [Hnd Hlt]. rewrite Hb in *.
    rewrite (focus_ext i0 t0 c0 h0 kids n s Hnd Hfind). cbn [splitAt].
    unfold findText.
    rewrite (focus_find i0 t0 c0 h0 kids n s Hnd Hfind)
      by (right; eapply fresh_not_in; eauto).
    cbn [findL findNode nodeId].
    assert (En : (n =? nextId d)%nat = false).
    { apply Nat.eqb_neq. intros E.
      rewrite Forall_forall in Hlt.
      assert (Hin : In n (ids (Element i0 t0 c0 h0 kids))).
      { cbn [ids]. right. eapply foundL_in_ids; eauto. }
      apply Hlt in Hin. lia. }
    now rewrite En, Nat.eqb_refl. }
  unfold readText at 1. rewrite Hfind.
  assert (Hlen : len (skipn (Z.to_nat i) s) = len s - i).
  { unfold len. rewrite length_skipn. unfold len in *. lia. }
  replace ((tl <? 0) || (len (skipn (Z.to_nat i) s) <? tl)) with true.
  - reflexivity.
  - symmetry. apply orb_true_iff. right. apply Z.ltb_lt. lia.
Qed.

Lemma highlightLoop_ends c q' :
  let q := c :: q' in
  forall fuel n s w,
    wellFormed (InitHighlight.doc w) ->
    findText n (InitHighlight.doc w) = Some s ->
    (List.length s < fuel)%nat ->
    InitHighlight.highlightLoop fuel n (toLowerCase s) q w <> None.
Proof.
  intros q. induction fuel as [|fuel IH]; intros n s w Hwf Hs Hfuel; [lia|].
  cbn [InitHighlight.highlightLoop].
  destruct (findMatches_step (toLowerCase s) c q') as [_ Hhit].
  cbv zeta in Hhit. fold q in Hhit.
  destruct (Z.eqb_spec (indexOf (toLowerCase s) q 0) (-1)) as [Ei|Ei];
    [discriminate|].
  destruct (Hhit Ei) as (Hi0 & _ & _). clear Hhit.
  set (i := indexOf (toLowerCase s) q 0) in *.
  assert (Hq : 0 < len q) by (unfold len, q; cbn [List.length]; lia).
  destruct w as [d hl]. cbn [InitHighlight.doc
                               InitHighlight.currentHighlight] in *.
  destruct (Z.lt_ge_cases (len s) i) as [Hbreak|Hin].
  { rewrite (highlightAt_break n i (len q) d s Hs Hbreak). discriminate. }
  destruct (Z.lt_ge_cases (len s) (i + len q)) as [Hthrow|Hfit].
  { rewrite (highlightAt_throws n i (len q) d s Hwf Hs ltac:(lia) Hthrow).
    discriminate. }
  rewrite (highlightAt_result n i (len q) d s Hwf Hs Hi0 Hq Hfit).
  set (k := nextId d) in *.
  set (d1 := mkDoc (substNode n (fun _ => marked n k s i (len q)) (body d))
               (4 + k)).
  set (rest := skipn (Z.to_nat (len q)) (skipn (Z.to_nat i) s)).
  assert (Hn : (n < k)%nat).
  { destruct Hwf as [_ Hlt]. rewrite Forall_forall in Hlt.
    apply Hlt. eapply findText_in_ids; eauto. }
  assert (Hrest : findText (1 + k) d1 = Some rest).
  { unfold findText, d1.
    rewrite (replaced_finds n s _ d _ (1 + k)%nat Hwf Hs) by (right; lia).
    unfold marked. cbn [findL findNode nodeId].
    replace (n =? 1 + k)%nat with false
      by (symmetry; apply Nat.eqb_neq; lia).
    replace (2 + k =? 1 + k)%nat with false
      by (symmetry; apply Nat.eqb_neq; lia).
    replace (3 + k =? 1 + k)%nat with false
      by (symmetry; apply Nat.eqb_neq; lia).
    now rewrite Nat.eqb_refl. }
  unfold readText. rewrite Hrest.
  destruct (replaced_wellFormed n s (marked n k s i (len q))
              [(2 + k)%nat; (3 + k)%nat; (1 + k)%nat] d (4 + k)
              Hwf Hs eq_refl) as [Hwf1 _].
  { repeat constructor; cbn [In]; intuition lia. }
  { fold k. lia. }
  { fold k. cbn [In]. intros j Hj. intuition lia. }
  { unfold marked, slice. cbn [flat_map textContent app].
    replace (Z.to_nat (i + len q - i)) with (Z.to_nat (len q)) by lia.
    now rewrite !app_nil_r, !firstn_skipn. }
  apply IH; [exact Hwf1 | exact Hrest |].
  unfold rest. rewrite !length_skipn. unfold len in *. lia.
Qed.

Lemma highlightLoop_more_fuel q : forall fuel n t w r,
  InitHighlight.highlightLoop fuel n t q w = Some r ->
  InitHighlight.highlightLoop (S fuel) n t q w = Some r.
Proof.
  induction fuel as [|fuel IH]; intros n t w r H; [discriminate|].
  cbn [InitHighlight.highlightLoop] in H.
  change (InitHighlight.highlightLoop (S (S fuel)) n t q w)
    with (let startIdx := indexOf t q 0 in
          if startIdx =? -1 then Some (Ok tt, w)
          else
            match InitHighlight.highlightAt n startIdx (len q)
                    (InitHighlight.doc w) with
            | (Throw e, d) =>
                Some (Throw e,
                      InitHighlight.mkWorld d
                        (InitHighlight.currentHighlight w))
            | (Ok None, d) =>
                Some (Ok tt,
                      InitHighlight.mkWorld d
                        (InitHighlight.currentHighlight w))
            | (Ok (Some (span, afterHighlight)), d) =>
                let pushed :=
                  InitHighlight.mkHighlight
                    (InitHighlight.text (InitHighlight.currentHighlight w))
                    (InitHighlight.spans (InitHighlight.currentHighlight w)
                       ++ [span]) in
                match readText afterHighlight d with
                | (Throw e, d') =>
                    Some (Throw e, InitHighlight.mkWorld d' pushed)
                | (Ok rest, d') =>
                    InitHighlight.highlightLoop (S fuel) afterHighlight
                      (toLowerCase rest) q
                      (InitHighlight.mkWorld d' pushed)
                end
            end).
  cbv zeta in *.
  destruct (indexOf t q 0 =? -1); [exact H|].
  destruct (InitHighlight.highlightAt n (indexOf t q 0) (len q)
              (InitHighlight.doc w)) as [[[[span after]|]|e] d];
    try exact H.
  destruct (readText after d) as [[rest|e] d']; [|exact H].
  now apply IH.
Qed.

Lemma highlightLoop_enough_fuel q fuel fuel' n t w r :
  (fuel <= fuel')%nat ->
  InitHighlight.highlightLoop fuel n t q w = Some r ->
  InitHighlight.highlightLoop fuel' n t q w = Some r.
Proof.
  induction 1 as [|fuel' Hle IH]; [auto|].
  intros H. now apply highlightLoop_more_fuel, IH.
Qed.

(** X11. [highlightTextInNode] on a text node whose code units are all
    below U+0100, where lower-casing goes unit by unit, for a text to
    highlight that is not empty: the call returns, and has thrown nothing;
    the document is well formed and has the text it had; the spans pushed
    are one for each range that [findMatches] gives for the lower-cased
    text of the node, in that order, and each holds the text of the node
    at its range, which is the text to highlight up to case. *)
Theorem highlightTextInNode_marks_the_matches_of_the_node
    (node : nat) (lowerCaseText nodeText : jsstring)
    (w : InitHighlight.World) :
  wellFormed (InitHighlight.doc w) ->
  findText node (InitHighlight.doc w) = Some nodeText ->
  lowerCaseText <> [] ->
  latin1 nodeText ->
  exists w',
    InitHighlight.highlightTextInNode node lowerCaseText w = Some (Ok tt, w')
    /\ wellFormed (InitHighlight.doc w')
    /\ textContent (body (InitHighlight.doc w'))
       = textContent (body (InitHighlight.doc w))
    /\ InitHighlight.text (InitHighlight.currentHighlight w')
       = InitHighlight.text (InitHighlight.currentHighlight w)
    /\ exists new,
         InitHighlight.spans (InitHighlight.currentHighlight w')
         = InitHighlight.spans (InitHighlight.currentHighlight w) ++ new
         /\ map (spanText (InitHighlight.doc w')) new
            = map (fun m => Some (slice nodeText (start m) (end_ m)))
                (findMatches (toLowerCase nodeText) lowerCaseText)
         /\ Forall (fun span =>
                      exists t, spanText (InitHighlight.doc w') span = Some t
                                /\ toLowerCase t = lowerCaseText) new.
Proof.
  intros Hwf Hs Hq Hno%latin1_no_dotted_I.
  destruct lowerCaseText as [|c q']; [congruence|].
  unfold InitHighlight.highlightTextInNode, readText. rewrite Hs.
  destruct w as [d hl]. cbn [InitHighlight.doc
                               InitHighlight.currentHighlight] in *.
  destruct (highlightLoop_marks c q' (S (List.length nodeText)) node nodeText
              (InitHighlight.mkWorld d hl) Hwf Hs Hno ltac:(lia))
    as (w' & Hrun & Hwf' & _ & Htext & Htracked & _ & new & Hspans & Hnew).
  exists w'. split; [exact Hrun|]. split; [exact Hwf'|].
  split; [exact Htext|]. split; [exact Htracked|].
  exists new. split; [exact Hspans|]. split; [exact Hnew|].
  clear Hspans Hrun.
  set (found := findMatches (toLowerCase nodeText) (c :: q')) in *.
  assert (Hall : forall m, In m found ->
            toLowerCase (slice nodeText (start m) (end_ m)) = c :: q').
  { intros m Hm.
    destruct (findMatches_ranges_are_occurrences_aux _ _ m Hm)
      as (H0 & Hlt & Hend & Hlen & Ho).
    rewrite toLowerCase_slice by exact Hno.
    unfold slice, occursAt in *.
    replace (Z.to_nat (end_ m - start m))
      with (List.length (c :: q')) by (unfold len in *; lia).
    exact Ho. }
  clearbody found. revert found Hnew Hall.
  induction new as [|sp new IH]; intros [|m found] Hnew Hall;
    try discriminate; constructor.
  - cbn [map] in Hnew. injection Hnew as Hsp Hnew.
    exists (slice nodeText (start m) (end_ m)). split; [exact Hsp|].
    apply Hall. now left.
  - cbn [map] in Hnew. injection Hnew as Hsp Hnew.
    apply (IH found Hnew). intros m' Hm'. apply Hall. now right.
Qed.

Lemma wholeLeaf_wellFormed : wellFormed wholeLeaf.
Proof.
  split; cbn.
  - repeat constructor; cbn; intuition lia.
  - repeat constructor.
Qed.

Lemma highlightTextInNode_marks_the_matches_of_the_node_witness :
  let w := InitHighlight.mkWorld wholeLeaf (InitHighlight.mkHighlight None [])
  in
  exists w',
    InitHighlight.highlightTextInNode 2 (u16 "b") w = Some (Ok tt, w')
    /\ wellFormed (InitHighlight.doc w')
    /\ textContent (body (InitHighlight.doc w'))
       = textContent (body (InitHighlight.doc w))
    /\ InitHighlight.text (InitHighlight.currentHighlight w')
       = InitHighlight.text (InitHighlight.currentHighlight w)
    /\ exists new,
         InitHighlight.spans (InitHighlight.currentHighlight w')
         = InitHighlight.spans (InitHighlight.currentHighlight w) ++ new
         /\ map (spanText (InitHighlight.doc w')) new
            = map (fun m => Some (slice (u16 "ab") (start m) (end_ m)))
                (findMatches (toLowerCase (u16 "ab")) (u16 "b"))
         /\ Forall (fun span =>
                      exists t, spanText (InitHighlight.doc w') span = Some t
                                /\ toLowerCase t = u16 "b") new.
Proof.
  apply (highlightTextInNode_marks_the_matches_of_the_node
           2 (u16 "b") (u16 "ab")
           (InitHighlight.mkWorld wholeLeaf
              (InitHighlight.mkHighlight None []))).
  - exact wholeLeaf_wellFormed.
  - reflexivity.
  - discriminate.
  - vm_compute. repeat constructor.
Defined.

(** X12. [highlightTextInNode] throws where lower-casing makes the text
    longer. The text of the node has code units below U+0100 and U+0130
    only, the range in which lower-casing is followed exactly. When the
    first occurrence of the text to highlight in the lower-cased text of
    the node starts inside the node but ends past the length that the
    node has, the second [splitText] of the first turn raises
    IndexSizeError, and no span is pushed. *)
Theorem highlightTextInNode_throws_past_the_end_of_the_node
    (node : nat) (lowerCaseText nodeText : jsstring)
    (w : InitHighlight.World) :
  wellFormed (InitHighlight.doc w) ->
  findText node (InitHighlight.doc w) = Some nodeText ->
  caseModelled nodeText ->
  let startIdx := indexOf (toLowerCase nodeText) lowerCaseText 0 in
  0 <= startIdx <= len nodeText ->
  len nodeText < startIdx + len lowerCaseText ->
  exists w',
    InitHighlight.highlightTextInNode node lowerCaseText w
    = Some (Throw IndexSizeError, w')
    /\ InitHighlight.currentHighlight w' = InitHighlight.currentHighlight w.
Proof.
  intros Hwf Hs _ startIdx Hi Hlen.
  unfold InitHighlight.highlightTextInNode, readText. rewrite Hs.
  cbn [InitHighlight.highlightLoop InitHighlight.doc
       InitHighlight.currentHighlight].
  fold startIdx.
  replace (startIdx =? -1) with false by (symmetry; apply Z.eqb_neq; lia).
  rewrite (highlightAt_throws node startIdx (len lowerCaseText) _ nodeText
             Hwf Hs Hi Hlen).
  eexists. split; reflexivity.
Qed.

Lemma dottedCapitalI_wellFormed : wellFormed dottedCapitalI.
Proof.
  split; cbn.
  - repeat constructor; cbn; intuition lia.
  - repeat constructor.
Qed.

Lemma highlightTextInNode_throws_past_the_end_of_the_node_witness :
  let w := InitHighlight.mkWorld dottedCapitalI
             (InitHighlight.mkHighlight None []) in
  exists w',
    InitHighlight.highlightTextInNode 2 (toLowerCase [304%N]) w
    = Some (Throw IndexSizeError, w')
    /\ InitHighlight.currentHighlight w' = InitHighlight.currentHighlight w.
Proof.
  apply (highlightTextInNode_throws_past_the_end_of_the_node
           2 (toLowerCase [304%N]) [304%N]
           (InitHighlight.mkWorld dottedCapitalI
              (InitHighlight.mkHighlight None []))).
  - exact dottedCapitalI_wellFormed.
  - reflexivity.
  - constructor; [right; reflexivity | constructor].
  - vm_compute. split; discriminate.
  - vm_compute. reflexivity.
Defined.

(** X13. [highlightTextInNode] comes to an end whenever the text to
    highlight is not empty: on a well-formed document the call returns or
    throws, and more turns of the loop than the node has code units are
    never needed. *)
Theorem highlightTextInNode_ends
    (node : nat) (lowerCaseText : jsstring) (w : InitHighlight.World) :
  wellFormed (InitHighlight.doc w) ->
  lowerCaseText <> [] ->
  InitHighlight.highlightTextInNode node lowerCaseText w <> None
  /\ forall nodeText fuel,
       findText node (InitHighlight.doc w) = Some nodeText ->
       (List.length nodeText < fuel)%nat ->
       InitHighlight.highlightLoop fuel node (toLowerCase nodeText)
         lowerCaseText w
       = InitHighlight.highlightTextInNode node lowerCaseText w.
Proof.
  intros Hwf Hq. destruct lowerCaseText as [|c q']; [congruence|].
  unfold InitHighlight.highlightTextInNode, readText.
  destruct (findText node (InitHighlight.doc w)) as [s|] eqn:Hs.
  - destruct w as [d hl]. cbn [InitHighlight.doc
                                 InitHighlight.currentHighlight] in *.
    pose proof (highlightLoop_ends c q' (S (List.length s)) node s
                  (InitHighlight.mkWorld d hl) Hwf Hs ltac:(lia)) as Hend.
    split; [exact Hend|].
    intros nodeText fuel E Hfuel. injection E as <-.
    destruct (InitHighlight.highlightLoop (S (List.length s)) node
                (toLowerCase s) (c :: q') (InitHighlight.mkWorld d hl))
      as [r|] eqn:Er; [|congruence].
    apply (highlightLoop_enough_fuel _ (S (List.length s))); [lia | exact Er].
  - split; [discriminate | intros ? ? E; discriminate].
Qed.

Lemma highlightTextInNode_ends_witness :
  let w := InitHighlight.mkWorld dottedCapitalI
             (InitHighlight.mkHighlight None []) in
  InitHighlight.highlightTextInNode 2 (u16 "i") w <> None
  /\ forall nodeText fuel,
       findText 2 (InitHighlight.doc w) = Some nodeText ->
       (List.length nodeText < fuel)%nat ->
       InitHighlight.highlightLoop fuel 2 (toLowerCase nodeText) (u16 "i") w
       = InitHighlight.highlightTextInNode 2 (u16 "i") w.
Proof.
  apply (highlightTextInNode_ends 2 (u16 "i")
           (InitHighlight.mkWorld dottedCapitalI
              (InitHighlight.mkHighlight None []))).
  - exact dottedCapitalI_wellFormed.
  - discriminate.
Defined.

(** *** Clearing the tracked spans *)

Lemma joinText_facts j s acc :
  flat_map textContent (joinText j s acc) = s ++ flat_map textContent acc
  /\ incl (idsL (joinText j s acc)) (j :: idsL acc)
  /\ (NoDup (j :: idsL acc) -> NoDup (idsL (joinText j s acc))).
Proof.
  destruct s as [|a s].
  - cbn [joinText app]. split; [reflexivity|].
    split; [apply incl_tl, incl_refl | intros H; now inversion H].
  - destruct acc as [|[i t|i t c h l] r]; cbn [joinText].
    + split; [reflexivity|]. split; [apply incl_refl | auto].
    + unfold idsL. cbn [flat_map textContent ids app].
      split; [now rewrite app_assoc|]. split.
      * intros x [<-|Hx]; [now left | right; now right].
      * intros H. inversion H as [|? ? Hj Hr]; subst.
        inversion Hr as [|? ? Hi Hr']; subst.
        constructor; [|exact Hr']. intros Hin. apply Hj. now right.
    + split; [reflexivity|]. split; [apply incl_refl | auto].
Qed.

(** [normalize] keeps the text and brings in no node. *)
Lemma normalize_facts :
  (forall n, textContent (normalize n) = textContent n
             /\ incl (ids (normalize n)) (ids n)
             /\ (NoDup (ids n) -> NoDup (ids (normalize n)))
             /\ nodeId (normalize n) = nodeId n)
  /\ (forall l, flat_map textContent (normalizeL l) = flat_map textContent l
                /\ incl (idsL (normalizeL l)) (idsL l)
                /\ (NoDup (idsL l) -> NoDup (idsL (normalizeL l)))).
Proof.
  apply Node_list_ind.
  - intros i s. cbn. repeat split; auto using incl_refl.
  - intros i t c h l (H1 & H2 & H3). rewrite normalize_element.
    cbn [textContent ids nodeId]. fold (idsL (normalizeL l)). fold (idsL l).
    split; [exact H1|]. split; [|split; [|reflexivity]].
    + intros x [<-|Hx]; [now left | right; now apply H2].
    + intros H. inversion H as [|? ? Hi Hr]; subst.
      constructor; [intros Hin; apply Hi; now apply H2 | now apply H3].
  - cbn. repeat split; auto using incl_refl.
  - intros k r (K1 & K2 & K3 & _) (R1 & R2 & R3).
    unfold normalizeL in *. cbn [fold_right].
    fold (normalizeL r) in *.
    change (idsL (k :: r)) with (ids k ++ idsL r).
    cbn [flat_map]. destruct k as [j s|i t c h l].
    + destruct (joinText_facts j s (normalizeL r)) as (J1 & J2 & J3).
      cbn [textContent ids app]. split; [now rewrite J1, R1|]. split.
      * intros x Hx. apply J2 in Hx. destruct Hx as [<-|Hx]; [now left|].
        right. now apply R2.
      * intros H. apply J3. inversion H as [|? ? Hj Hr]; subst.
        constructor; [intros Hin; apply Hj; now apply R2 | now apply R3].
    + change (idsL (normalize (Element i t c h l) :: normalizeL r))
        with (ids (normalize (Element i t c h l)) ++ idsL (normalizeL r)).
      cbn [flat_map]. split; [now rewrite K1, R1|]. split.
      * intros x Hx. apply in_app_or in Hx. apply in_or_app.
        destruct Hx as [Hx|Hx]; [left; now apply K2 | right; now apply R2].
      * intros H. apply NoDup_app.
        -- apply K3. eapply NoDup_app_remove_r; eauto.
        -- apply R3. eapply NoDup_app_remove_l; eauto.
        -- intros x Hx Hx'. apply K2 in Hx. apply R2 in Hx'.
           exact (NoDup_app_disjoint _ _ _ H Hx Hx').
Qed.

Lemma mapNode_facts a f :
  (forall n, textContent (f n) = textContent n
             /\ incl (ids (f n)) (ids n)
             /\ (NoDup (ids n) -> NoDup (ids (f n)))
             /\ nodeId (f n) = nodeId n) ->
  (forall n, textContent (InitHighlight.mapNode a f n) = textContent n
             /\ incl (ids (InitHighlight.mapNode a f n)) (ids n)
             /\ (NoDup (ids n) -> NoDup (ids (InitHighlight.mapNode a f n))))
  /\ (forall l, flat_map textContent (map (InitHighlight.mapNode a f) l)
                = flat_map textContent l
                /\ incl (idsL (map (InitHighlight.mapNode a f) l)) (idsL l)
                /\ (NoDup (idsL l) ->
                    NoDup (idsL (map (InitHighlight.mapNode a f) l)))).
Proof.
  intros Hf. apply Node_list_ind.
  - intros i s. cbn [InitHighlight.mapNode nodeId].
    destruct (i =? a)%nat; [|repeat split; auto using incl_refl].
    destruct (Hf (TextNode i s)) as (F1 & F2 & F3 & _). auto.
  - intros i t c h l (H1 & H2 & H3). cbn [InitHighlight.mapNode nodeId].
    destruct (i =? a)%nat.
    + destruct (Hf (Element i t c h l)) as (F1 & F2 & F3 & _). auto.
    + cbn [textContent ids].
      fold (idsL (map (InitHighlight.mapNode a f) l)). fold (idsL l).
      split; [exact H1|]. split.
      * intros x [<-|Hx]; [now left | right; now apply H2].
      * intros H. inversion H as [|? ? Hi Hr]; subst.
        constructor; [intros Hin; apply Hi; now apply H2 | now apply H3].
  - cbn. repeat split; auto using incl_refl.
  - intros k r (K1 & K2 & K3) (R1 & R2 & R3). cbn [map flat_map].
    change (idsL (InitHighlight.mapNode a f k
                    :: map (InitHighlight.mapNode a f) r))
      with (ids (InitHighlight.mapNode a f k)
              ++ idsL (map (InitHighlight.mapNode a f) r)).
    change (idsL (k :: r)) with (ids k ++ idsL r).
    split; [now rewrite K1, R1|]. split.
    + intros x Hx. apply in_app_or in Hx. apply in_or_app.
      destruct Hx as [Hx|Hx]; [left; now apply K2 | right; now apply R2].
    + intros H. apply NoDup_app.
      * apply K3. eapply NoDup_app_remove_r; eauto.
      * apply R3. eapply NoDup_app_remove_l; eauto.
      * intros x Hx Hx'. apply K2 in Hx. apply R2 in Hx'.
        exact (NoDup_app_disjoint _ _ _ H Hx Hx').
Qed.

(** The identities after the node of identity [a] has been replaced. *)
Lemma ids_subst_node a L x0 :
  (forall n, NoDup (ids n) -> nodeId n <> a -> findNode a n = Some x0 ->
             Permutation (ids (substNode a (fun _ => L) n) ++ ids x0)
                         (idsL L ++ ids n))
  /\ (forall l, NoDup (idsL l) -> findL a l = Some x0 ->
                Permutation (idsL (substL a (fun _ => L) l) ++ ids x0)
                            (idsL L ++ idsL l)).
Proof.
  apply Node_list_ind.
  - intros i s _ Hne H. cbn in *.
    destruct (i =? a)%nat eqn:E; [|discriminate].
    apply Nat.eqb_eq in E. contradiction.
  - intros i t c h l IH Hnd Hne H.
    rewrite findNode_element in H. cbn [nodeId ids] in *.
    replace (i =? a)%nat with false in H
      by (symmetry; now apply Nat.eqb_neq).
    fold (substL a (fun _ => L) l). fold (idsL (substL a (fun _ => L) l)).
    fold (idsL l). cbn [app].
    apply Permutation_cons_app, IH; auto. now inversion Hnd.
  - intros _ H. discriminate.
  - intros k r Hk Hr Hnd H. unfold idsL in Hnd.
    cbn [flat_map findL] in *. fold (idsL r) in *.
    rewrite substL_cons, idsL_app.
    change (idsL (k :: r)) with (ids k ++ idsL r).
    destruct (findNode a k) as [y|] eqn:E.
    + injection H as ->.
      assert (Har : ~ In a (idsL r)).
      { eapply NoDup_app_disjoint; [exact Hnd|]. eapply found_in_ids; eauto. }
      rewrite (proj2 (subst_absent a _) r Har).
      destruct (nodeId k =? a)%nat eqn:Ek.
      * apply Nat.eqb_eq in Ek. subst a. rewrite findNode_self in E.
        injection E as ->. rewrite <- !app_assoc.
        apply Permutation_app_head, Permutation_app_comm.
      * apply Nat.eqb_neq in Ek.
        change (idsL [substNode a (fun _ => L) k])
          with (ids (substNode a (fun _ => L) k) ++ []).
        rewrite app_nil_r.
        eapply Permutation_trans;
          [|rewrite app_assoc; apply Permutation_app_tail, Hk; auto;
            eapply NoDup_app_remove_r; eauto].
        rewrite <- !app_assoc.
        apply Permutation_app_head, Permutation_app_comm.
    + assert (Hak : ~ In a (ids k)) by now apply (proj1 (find_present_id a)).
      replace (nodeId k =? a)%nat with false
        by (symmetry; apply Nat.eqb_neq; intros <-;
            apply Hak, nodeId_in_ids).
      rewrite (proj1 (subst_absent a _) k Hak).
      change (idsL [k]) with (ids k ++ []). rewrite app_nil_r.
      rewrite <- app_assoc.
      eapply Permutation_trans;
        [apply Permutation_app_head, Hr; auto;
         eapply NoDup_app_remove_l; eauto|].
      rewrite !app_assoc. apply Permutation_app_tail, Permutation_app_comm.
Qed.

Lemma parentInL_in_ids a p : forall l,
  parentInL a l = Some p -> In a (idsL l).
Proof.
  induction l as [|k r IH]; [discriminate|]. cbn [parentInL].
  change (idsL (k :: r)) with (ids k ++ idsL r). intros H.
  apply in_or_app. destruct (parentIn a k) as [p'|] eqn:E.
  - left. exact (proj1 (parentIn_in_ids a) k p' E).
  - right. now apply IH.
Qed.

Lemma parentIn_child a i t c h l p :
  parentIn a (Element i t c h l) = Some p -> In a (idsL l).
Proof.
  rewrite parentIn_element.
  destruct (existsb (fun k => (nodeId k =? a)%nat) l) eqn:E.
  - intros _. apply existsb_exists in E. destruct E as (k & Hk & Hid).
    apply Nat.eqb_eq in Hid. subst a. unfold idsL.
    apply in_flat_map. exists k. split; [exact Hk | apply nodeId_in_ids].
  - apply parentInL_in_ids.
Qed.

(** One tracked span put back as text: no exception; the document stays
    well formed and keeps its text; the span is in it no more, and nothing
    but one new node has come in. *)
Lemma restoreSpan_sound span d :
  wellFormed d ->
  exists d',
    InitHighlight.restoreSpan span d = (Ok tt, d')
    /\ wellFormed d'
    /\ textContent (body d') = textContent (body d)
    /\ nodeId (body d') = nodeId (body d)
    /\ (nextId d <= nextId d')%nat
    /\ (forall i, In i (ids (body d')) ->
                  In i (ids (body d)) \/ (nextId d <= i)%nat)
    /\ ((span < nextId d)%nat ->
        ~ In span (ids (body d')) \/ span = nodeId (body d')).
Proof.
  intros [Hnd Hlt]. unfold InitHighlight.restoreSpan.
  destruct (parentOf span d) as [p|] eqn:Ep.
  2:{ exists d. split; [reflexivity|]. split; [now split|].
      split; [reflexivity|]. split; [reflexivity|]. split; [lia|].
      split; [auto|]. intros _.
      destruct (Nat.eq_dec span (nodeId (body d))) as [E|E]; [now right|].
      left. intros Hin. unfold parentOf in Ep. revert Ep.
      apply (proj1 (parentIn_present span)); auto. }
  unfold parentOf in Ep.
  destruct (body d) as [i0 s0|i0 t0 c0 h0 kids] eqn:Hb; [discriminate|].
  pose proof (parentIn_child _ _ _ _ _ _ _ Ep) as Hin.
  unfold findDesc. rewrite Hb. cbn [children].
  destruct (findL span kids) as [x|] eqn:Ex.
  2:{ exfalso. exact (proj2 (find_present_id span) kids Ex Hin). }
  eexists. split; [reflexivity|].
  set (k := nextId d) in *.
  set (replaced := substNode span (fun _ => [TextNode k (textContent x)])
                     (Element i0 t0 c0 h0 kids)).
  assert (Hroot : i0 <> span).
  { intros ->. inversion Hnd as [|? ? Hi _]; subst. now apply Hi. }
  assert (Hperm : Permutation (ids replaced ++ ids x)
                              (k :: ids (Element i0 t0 c0 h0 kids))).
  { apply (proj1 (ids_subst_node span [TextNode k (textContent x)] x));
      auto.
    rewrite findNode_element.
    now replace (i0 =? span)%nat with false
      by (symmetry; now apply Nat.eqb_neq). }
  assert (Hk : ~ In k (ids (Element i0 t0 c0 h0 kids))).
  { intros H. rewrite Forall_forall in Hlt. apply Hlt in H. unfold k in H.
    lia. }
  assert (Hnd2 : NoDup (ids replaced ++ ids x)).
  { eapply Permutation_NoDup; [apply Permutation_sym, Hperm|].
    now constructor. }
  assert (Hnd1 : NoDup (ids replaced)).
  { exact (NoDup_app_remove_r _ _ Hnd2). }
  assert (Hold : forall i, In i (ids replaced) ->
                   In i (ids (Element i0 t0 c0 h0 kids)) \/ i = k).
  { intros i Hi.
    assert (Hi' : In i (k :: ids (Element i0 t0 c0 h0 kids))).
    { apply (Permutation_in _ Hperm), in_or_app. now left. }
    destruct Hi' as [<-|Hi']; auto. }
  assert (Htext1 : textContent replaced
                   = textContent (Element i0 t0 c0 h0 kids)).
  { apply (proj1 (textContent_subst span _)).
    intros y Hy Hid. cbn [flat_map textContent]. rewrite app_nil_r.
    f_equal. cbn [subnodes] in Hy. destruct Hy as [<-|Hy].
    - cbn in Hid. contradiction.
    - apply (unique_node kids); auto; [now inversion Hnd | |].
      + now apply (proj2 (find_found span) kids).
      + destruct (proj2 (find_found span) _ _ Ex) as [_ E]. congruence. }
  destruct (proj1 (mapNode_facts p normalize (proj1 normalize_facts))
              replaced) as (M1 & M2 & M3).
  assert (Mid : nodeId (InitHighlight.mapNode p normalize replaced) = i0).
  { unfold replaced. rewrite substNode_element.
    cbn [InitHighlight.mapNode nodeId].
    destruct (i0 =? p)%nat; [|reflexivity].
    now rewrite (proj2 (proj2 (proj2 (proj1 normalize_facts _)))). }
  cbn [body nextId].
  split; [unfold wellFormed; split; cbn [body nextId]|].
  - now apply M3.
  - apply Forall_forall. intros i Hi. apply M2, Hold in Hi.
    destruct Hi as [Hi| ->]; [|lia].
    rewrite Forall_forall in Hlt. apply Hlt in Hi. unfold k. lia.
  - split; [now rewrite M1|]. split; [exact Mid|]. split; [lia|]. split.
    + intros i Hi. apply M2, Hold in Hi.
      destruct Hi as [Hi| ->]; [now left | right; unfold k; lia].
    + intros _. left. intros Hi. apply M2 in Hi.
      apply (NoDup_app_disjoint _ _ _ Hnd2 Hi).
      destruct (proj2 (find_found span) _ _ Ex) as [_ E]. rewrite <- E.
      apply nodeId_in_ids.
Qed.

Lemma forEach_restoreSpan_sound : forall (l : list nat) d,
  wellFormed d ->
  Forall (fun span => (span < nextId d)%nat) l ->
  exists d',
    forEach InitHighlight.restoreSpan l d = (Ok tt, d')
    /\ wellFormed d'
    /\ textContent (body d') = textContent (body d)
    /\ nodeId (body d') = nodeId (body d)
    /\ (nextId d <= nextId d')%nat
    /\ (forall i, In i (ids (body d')) ->
                  In i (ids (body d)) \/ (nextId d <= i)%nat)
    /\ Forall (fun span => ~ In span (ids (body d'))
                           \/ span = nodeId (body d')) l.
Proof.
  induction l as [|span l IH]; intros d Hwf Hall.
  - exists d. split; [reflexivity|]. split; [exact Hwf|].
    split; [reflexivity|]. split; [reflexivity|]. split; [lia|].
    split; [auto | constructor].
  - inversion Hall as [|? ? Hsp Hall']; subst.
    destruct (restoreSpan_sound span d Hwf)
      as (d1 & Hrun & Hwf1 & Htext1 & Hid1 & Hnext1 & Hold1 & Hgone1).
    destruct (IH d1 Hwf1) as (d' & Hrun' & Hwf' & Htext' & Hid' & Hnext'
                              & Hold' & Hgone').
    { revert Hall'. apply Forall_impl. intros a Ha. lia. }
    exists d'. cbn [forEach]. rewrite (bind_run _ _ _ _ _ Hrun).
    split; [exact Hrun'|]. split; [exact Hwf'|].
    split; [congruence|]. split; [congruence|]. split; [lia|]. split.
    + intros i Hi. apply Hold' in Hi. destruct Hi as [Hi|Hi]; [|right; lia].
      apply Hold1 in Hi. tauto.
    + constructor; [|exact Hgone'].
      destruct (Hgone1 Hsp) as [Hg|Hg]; [left | right; congruence].
      intros Hi. apply Hold' in Hi. destruct Hi as [Hi|Hi]; [tauto | lia].
Qed.

(** *** Highlighting all the text nodes *)

Lemma initWalk_nodes :
  (forall r, (forall j, In j (InitHighlight.walk r) ->
                        exists s, In (TextNode j s) (descL (children r)))
             /\ (NoDup (ids r) -> NoDup (InitHighlight.walk r)))
  /\ (forall l parent,
         (forall j, In j (InitHighlight.walkKids parent l) ->
                    exists s, In (TextNode j s) (descL l))
         /\ (NoDup (idsL l) -> NoDup (InitHighlight.walkKids parent l))).
Proof.
  apply Node_list_ind.
  - intros i s. split; [intros j [] | constructor].
  - intros i t c h l IH.
    change (InitHighlight.walk (Element i t c h l))
      with (InitHighlight.walkKids (Element i t c h l) l).
    cbn [children ids]. destruct (IH (Element i t c h l)) as [H1 H2].
    split; [exact H1|]. intros Hnd. apply H2. now inversion Hnd.
  - intros parent. split; [intros j [] | constructor].
  - intros k r Hk Hr parent. destruct (Hr parent) as [R1 R2].
    destruct Hk as [K1 K2].
    change (InitHighlight.walkKids parent (k :: r))
      with (match k with
            | TextNode j _ =>
                match InitHighlight.acceptNode (Some parent) with
                | FILTER_ACCEPT => [j]
                | _ => []
                end
            | Element _ _ _ _ _ => InitHighlight.walk k
            end ++ InitHighlight.walkKids parent r).
    unfold descL, idsL in *. cbn [flat_map].
    assert (Hhead : forall j,
               In j match k with
                    | TextNode j _ =>
                        match InitHighlight.acceptNode (Some parent) with
                        | FILTER_ACCEPT => [j]
                        | _ => []
                        end
                    | Element _ _ _ _ _ => InitHighlight.walk k
                    end -> exists s, In (TextNode j s) (subnodes k)).
    { intros j Hin. destruct k as [j' s'|i t c h l].
      - destruct (InitHighlight.acceptNode (Some parent));
          try contradiction.
        destruct Hin as [<-|[]]. exists s'. now left.
      - destruct (K1 j Hin) as (s & Hs). exists s. cbn [subnodes]. now right. }
    split.
    + intros j Hin. apply in_app_or in Hin. destruct Hin as [Hin|Hin].
      * destruct (Hhead j Hin) as (s & Hs). exists s. apply in_or_app.
        now left.
      * destruct (R1 j Hin) as (s & Hs). exists s. apply in_or_app.
        now right.
    + intros Hnd. apply NoDup_app.
      * destruct k as [j' s'|i t c h l].
        -- destruct (InitHighlight.acceptNode (Some parent));
             repeat constructor; intros [].
        -- apply K2. eapply NoDup_app_remove_r; eauto.
      * apply R2. eapply NoDup_app_remove_l; eauto.
      * intros j Hj Hj'. destruct (Hhead j Hj) as (s & Hs).
        destruct (R1 j Hj') as (s' & Hs').
        apply in_subnodes_ids in Hs. apply in_descL_ids in Hs'.
        exact (NoDup_app_disjoint _ _ _ Hnd Hs Hs').
Qed.

Lemma text_in_textContent :
  (forall x j s, In (TextNode j s) (subnodes x) -> incl s (textContent x))
  /\ (forall l j s, In (TextNode j s) (descL l) ->
                    incl s (flat_map textContent l)).
Proof.
  apply Node_list_ind.
  - intros i t j s [E|[]]. injection E as -> ->. apply incl_refl.
  - intros i t c h l IH j s [E|Hin]; [discriminate|]. cbn [textContent].
    eauto.
  - intros j s [].
  - intros x r Hx Hr j s Hin. unfold descL in Hin. cbn [flat_map] in *.
    apply in_app_or in Hin. destruct Hin as [Hin|Hin].
    + apply incl_appl. eauto.
    + apply incl_appr. eauto.
Qed.

Lemma getTextNodes_texts d :
  wellFormed d ->
  NoDup (InitHighlight.getTextNodes d)
  /\ forall n, In n (InitHighlight.getTextNodes d) ->
       exists s, findText n d = Some s /\ incl s (textContent (body d)).
Proof.
  intros [Hnd _]. unfold InitHighlight.getTextNodes.
  destruct (proj1 initWalk_nodes (body d)) as [W1 W2].
  split; [now apply W2|]. intros n Hn.
  destruct (W1 n Hn) as (s & Hs). exists s.
  destruct (body d) as [i0 s0|i0 t0 c0 h0 kids] eqn:Hb; [destruct Hs|].
  cbn [children] in Hs. split.
  - unfold findText, findDesc. rewrite Hb. cbn [children].
    assert (Hk : NoDup (idsL kids)) by now inversion Hnd.
    destruct (findL n kids) as [x|] eqn:Ef.
    + destruct (proj2 (find_found n) _ _ Ef) as [Hxin Hid].
      replace x with (TextNode n s)
        by (apply (unique_node kids); auto).
      reflexivity.
    + exfalso. apply (proj2 (find_present_id n) _ Ef).
      now apply in_descL_ids in Hs.
  - cbn [textContent]. exact (proj2 text_in_textContent kids n s Hs).
Qed.

Lemma toLowerCase_nonempty s : s <> [] -> toLowerCase s <> [].
Proof.
  destruct s as [|c s]; [congruence|]. intros _ H.
  unfold toLowerCase in H. cbn [flat_map] in H.
  apply app_eq_nil in H. destruct H as [H _]. revert H.
  unfold lowerUnit.
  destruct ((65 <=? c) && (c <=? 90))%N; [discriminate|].
  destruct ((192 <=? c) && (c <=? 222) && negb (c =? 215))%N; [discriminate|].
  destruct (c =? 304)%N; discriminate.
Qed.

Lemma findText_findDesc n d s :
  findText n d = Some s -> findDesc n d = Some (TextNode n s).
Proof.
  unfold findText. destruct (findDesc n d) as [[j t|j t c h l]|] eqn:E;
    try discriminate.
  intros H. injection H as ->.
  unfold findDesc in E.
  destruct (proj2 (find_found n) _ _ E) as [_ Hid]. cbn in Hid. now subst j.
Qed.

Lemma forEachNode_highlight_sound c q' : forall nodes w,
  wellFormed (InitHighlight.doc w) ->
  NoDup nodes ->
  (forall n, In n nodes ->
     exists s, findText n (InitHighlight.doc w) = Some s /\ ~ In 304%N s) ->
  exists w',
    InitHighlight.forEachNode
      (fun node => InitHighlight.highlightTextInNode node (c :: q')) nodes w
    = Some (Ok tt, w')
    /\ wellFormed (InitHighlight.doc w')
    /\ textContent (body (InitHighlight.doc w'))
       = textContent (body (InitHighlight.doc w))
    /\ InitHighlight.text (InitHighlight.currentHighlight w')
       = InitHighlight.text (InitHighlight.currentHighlight w).
Proof.
  induction nodes as [|n nodes IH]; intros w Hwf Hnd Hall.
  - exists w. split; [reflexivity|]. split; [exact Hwf|]. split; reflexivity.
  - inversion Hnd as [|? ? Hnin Hnd']; subst.
    destruct (Hall n (or_introl eq_refl)) as (s & Hs & Hno).
    cbn [InitHighlight.forEachNode].
    unfold InitHighlight.highlightTextInNode, readText. rewrite Hs.
    destruct w as [d hl]. cbn [InitHighlight.doc
                                 InitHighlight.currentHighlight] in *.
    destruct (highlightLoop_marks c q' (S (List.length s)) n s
                (InitHighlight.mkWorld d hl) Hwf Hs Hno ltac:(lia))
      as (w1 & Hrun & Hwf1 & _ & Htext1 & Htracked1 & Hkeep & _).
    rewrite Hrun.
    cbn [InitHighlight.doc InitHighlight.currentHighlight] in *.
    destruct (IH w1 Hwf1 Hnd') as (w' & Hrun' & Hwf' & Htext' & Htracked').
    { intros n' Hn'. destruct (Hall n' (or_intror Hn')) as (s' & Hs' & Hno').
      exists s'. split; [|exact Hno'].
      unfold findText.
      rewrite (Hkeep n' (TextNode n' s')).
      - reflexivity.
      - now apply findText_findDesc.
      - intros ->. contradiction.
      - cbn. intros [->|[]]. contradiction. }
    exists w'. split; [exact Hrun'|]. split; [exact Hwf'|].
    split; congruence.
Qed.

Lemma forEach_restoreSpan_plain : forall (l : list nat) d,
  wellFormed d ->
  exists d',
    forEach InitHighlight.restoreSpan l d = (Ok tt, d')
    /\ wellFormed d'
    /\ textContent (body d') = textContent (body d).
Proof.
  induction l as [|span l IH]; intros d Hwf.
  - exists d. split; [reflexivity|]. split; [exact Hwf | reflexivity].
  - destruct (restoreSpan_sound span d Hwf) as (d1 & Hrun & Hwf1 & Htext1 & _).
    destruct (IH d1 Hwf1) as (d' & Hrun' & Hwf' & Htext').
    exists d'. cbn [forEach]. rewrite (bind_run _ _ _ _ _ Hrun).
    split; [exact Hrun'|]. split; [exact Hwf' | congruence].
Qed.

Lemma removeExistingHighlights_sound w :
  wellFormed (InitHighlight.doc w) ->
  exists d',
    InitHighlight.removeExistingHighlights w
    = (Ok tt,
       InitHighlight.mkWorld d'
         (InitHighlight.mkHighlight
            (InitHighlight.text (InitHighlight.currentHighlight w)) []))
    /\ wellFormed d'
    /\ textContent (body d') = textContent (body (InitHighlight.doc w)).
Proof.
  intros Hwf. unfold InitHighlight.removeExistingHighlights.
  destruct (forEach_restoreSpan_plain
              (InitHighlight.spans (InitHighlight.currentHighlight w))
              _ Hwf) as (d' & Hrun & Hwf' & Htext').
  rewrite Hrun. exists d'. now split.
Qed.

Lemma highlightAllOccurrences_sound text0 w :
  wellFormed (InitHighlight.doc w) ->
  ~ In 304%N (textContent (body (InitHighlight.doc w))) ->
  text0 <> [] ->
  exists w',
    InitHighlight.highlightAllOccurrences text0 w = Some (Ok tt, w')
    /\ wellFormed (InitHighlight.doc w')
    /\ textContent (body (InitHighlight.doc w'))
       = textContent (body (InitHighlight.doc w))
    /\ InitHighlight.text (InitHighlight.currentHighlight w')
       = InitHighlight.text (InitHighlight.currentHighlight w).
Proof.
  intros Hwf Hno Ht. unfold InitHighlight.highlightAllOccurrences.
  destruct (toLowerCase text0) as [|c q'] eqn:Eq;
    [now apply toLowerCase_nonempty in Eq|].
  destruct (getTextNodes_texts _ Hwf) as [Hnd Hall].
  apply forEachNode_highlight_sound; auto.
  intros n Hn. destruct (Hall n Hn) as (s & Hs & Hincl).
  exists s. split; [exact Hs|]. intros H. apply Hno. now apply Hincl.
Qed.

(** X14. The [mouseup] listener of [initHighlight] on a well-formed
    document whose text holds no U+0130: the call returns and has thrown
    nothing, whatever the selection and whatever spans are tracked; the
    document stays well formed and keeps its text; a selection of one
    letter or digit changes nothing at all, and any other selection
    becomes the tracked text. *)
Theorem switchHighlight_returns_and_keeps_the_text
    (selection : option Selection) (w : InitHighlight.World) :
  wellFormed (InitHighlight.doc w) ->
  ~ In 304%N (textContent (body (InitHighlight.doc w))) ->
  exists w',
    InitHighlight.switchHighlight selection w = Some (Ok tt, w')
    /\ wellFormed (InitHighlight.doc w')
    /\ textContent (body (InitHighlight.doc w'))
       = textContent (body (InitHighlight.doc w))
    /\ let selectedText := InitHighlight.getSelectedText selection in
       if (len selectedText =? 1) && testAlnum selectedText
       then w' = w
       else InitHighlight.text (InitHighlight.currentHighlight w')
            = Some selectedText.
Proof.
  intros Hwf Hno. unfold InitHighlight.switchHighlight. cbv zeta.
  set (selectedText := InitHighlight.getSelectedText selection).
  destruct ((len selectedText =? 1) && testAlnum selectedText).
  { exists w. split; [reflexivity|]. split; [exact Hwf|]. split; reflexivity. }
  destruct (Js.eqb selectedText []) eqn:Eempty.
  - (* an empty selection: clear, and track the empty text *)
    destruct (removeExistingHighlights_sound w Hwf) as (d1 & -> & Hwf1 & Ht1).
    cbn [negb andb]. eexists. split; [reflexivity|].
    cbn [InitHighlight.setText InitHighlight.doc
         InitHighlight.currentHighlight InitHighlight.text].
    split; [exact Hwf1|]. split; [exact Ht1 | reflexivity].
  - cbn [negb andb].
    assert (Hne : selectedText <> []).
    { intros E. apply jseqb_eq in E. congruence. }
    destruct (InitHighlight.differs selectedText
                (InitHighlight.text (InitHighlight.currentHighlight w)))
      eqn:Ed.
    + (* a new text: clear, highlight, track *)
      destruct (removeExistingHighlights_sound w Hwf)
        as (d1 & -> & Hwf1 & Ht1).
      destruct (highlightAllOccurrences_sound selectedText
                  (InitHighlight.mkWorld d1
                     (InitHighlight.mkHighlight
                        (InitHighlight.text
                           (InitHighlight.currentHighlight w)) []))
                  Hwf1 ltac:(cbn [InitHighlight.doc]; now rewrite Ht1) Hne)
        as (w3 & -> & Hwf3 & Ht3 & _).
      cbn [InitHighlight.doc] in Ht3.
      eexists. split; [reflexivity|].
      cbn [InitHighlight.setText InitHighlight.doc
           InitHighlight.currentHighlight InitHighlight.text].
      split; [exact Hwf3|]. split; [congruence | reflexivity].
    + (* the tracked text again: nothing to do *)
      exists w. split; [reflexivity|]. split; [exact Hwf|].
      split; [reflexivity|].
      unfold InitHighlight.differs in Ed.
      destruct (InitHighlight.text (InitHighlight.currentHighlight w))
        as [t|]; [|discriminate].
      apply negb_false_iff, jseqb_eq in Ed. now subst t.
Qed.

Lemma switchHighlight_returns_and_keeps_the_text_witness :
  let w := InitHighlight.mkWorld (document twice)
             (InitHighlight.mkHighlight None []) in
  exists w',
    InitHighlight.switchHighlight (selectIn 2 0 2 "ab") w = Some (Ok tt, w')
    /\ wellFormed (InitHighlight.doc w')
    /\ textContent (body (InitHighlight.doc w'))
       = textContent (body (InitHighlight.doc w))
    /\ let selectedText :=
         InitHighlight.getSelectedText (selectIn 2 0 2 "ab") in
       if (len selectedText =? 1) && testAlnum selectedText
       then w' = w
       else InitHighlight.text (InitHighlight.currentHighlight w')
            = Some selectedText.
Proof.
  apply (switchHighlight_returns_and_keeps_the_text
           (selectIn 2 0 2 "ab")
           (InitHighlight.mkWorld (document twice)
              (InitHighlight.mkHighlight None []))).
  - exact twice_wellFormed.
  - vm_compute. intros H.
    repeat (destruct H as [H|H]; [discriminate|]). exact H.
Defined.

Lemma findDesc_gone span d :
  NoDup (ids (body d)) ->
  ~ In span (ids (body d)) \/ span = nodeId (body d) ->
  findDesc span d = None.
Proof.
  intros Hnd H. unfold findDesc.
  apply (proj2 (find_absent_id span)).
  destruct (body d) as [i s|i t c h l]; [intros []|].
  cbn [children ids nodeId] in *. destruct H as [H| ->].
  - intros Hin. apply H. now right.
  - now inversion Hnd.
Qed.

(** X15. [removeExistingHighlights] throws nothing and forgets the spans
    it tracked; none of them is in the document any more; the document
    stays well formed and keeps its text, and the tracked text is what it
    was. *)
Theorem removeExistingHighlights_removes_the_tracked_spans
    (w : InitHighlight.World) :
  wellFormed (InitHighlight.doc w) ->
  Forall (fun span => (span < nextId (InitHighlight.doc w))%nat)
    (InitHighlight.spans (InitHighlight.currentHighlight w)) ->
  exists w',
    InitHighlight.removeExistingHighlights w = (Ok tt, w')
    /\ InitHighlight.spans (InitHighlight.currentHighlight w') = []
    /\ InitHighlight.text (InitHighlight.currentHighlight w')
       = InitHighlight.text (InitHighlight.currentHighlight w)
    /\ Forall (fun span => findDesc span (InitHighlight.doc w') = None)
         (InitHighlight.spans (InitHighlight.currentHighlight w))
    /\ wellFormed (InitHighlight.doc w')
    /\ textContent (body (InitHighlight.doc w'))
       = textContent (body (InitHighlight.doc w)).
Proof.
  intros Hwf Hall. unfold InitHighlight.removeExistingHighlights.
  destruct (forEach_restoreSpan_sound _ _ Hwf Hall)
    as (d' & Hrun & Hwf' & Htext' & _ & _ & _ & Hgone).
  rewrite Hrun. eexists. split; [reflexivity|].
  cbn [InitHighlight.doc InitHighlight.currentHighlight
       InitHighlight.spans InitHighlight.text].
  split; [reflexivity|]. split; [reflexivity|].
  split; [|split; [exact Hwf' | exact Htext']].
  revert Hgone. apply Forall_impl. intros span Hs.
  apply findDesc_gone; [apply Hwf' | exact Hs].
Qed.

Lemma removeExistingHighlights_removes_the_tracked_spans_witness :
  let w := InitHighlight.mkWorld threeLeavesMarked
             (InitHighlight.mkHighlight (Some (u16 "b")) [7%nat; 11%nat])
  in
  exists w',
    InitHighlight.removeExistingHighlights w = (Ok tt, w')
    /\ InitHighlight.spans (InitHighlight.currentHighlight w') = []
    /\ InitHighlight.text (InitHighlight.currentHighlight w')
       = InitHighlight.text (InitHighlight.currentHighlight w)
    /\ Forall (fun span => findDesc span (InitHighlight.doc w') = None)
         (InitHighlight.spans (InitHighlight.currentHighlight w))
    /\ wellFormed (InitHighlight.doc w')
    /\ textContent (body (InitHighlight.doc w'))
       = textContent (body (InitHighlight.doc w)).
Proof.
  apply (removeExistingHighlights_removes_the_tracked_spans
           (InitHighlight.mkWorld threeLeavesMarked
              (InitHighlight.mkHighlight (Some (u16 "b"))
                 [7%nat; 11%nat]))).
  - split; cbn.
    + repeat constructor; cbn; intuition lia.
    + repeat constructor.
  - cbn. repeat constructor.
Defined.
